(** * Projection AST (src/mongo/db/query/projection_ast.h)

    A shallow embedding of the projection AST node hierarchy: the [ASTNode]
    base class with its owned children and raw parent back-pointer, the seven
    concrete node classes, their constructors, [clone], [acceptVisitor] and
    the [ProjectionPathASTNode] accessors.

    Objects live in an explicit store.  A [std::unique_ptr] or a raw pointer
    is an optional address, [nullptr] being [None]; an operation is a
    function from stores to outcomes, where an outcome is a normal return, a
    thrown C++ exception, a failed [invariant] (the process is terminated) or
    undefined behaviour (a null or dangling dereference). *)

From stdpp Require Import base tactics option list sets strings.
From Stdlib Require Import ZArith Lia.

#[local] Set Warnings "-register-all".

Abbreviation addr := nat (only parsing).

(** A pointer: [None] is [nullptr]. *)
Abbreviation ptr := (option nat) (only parsing).

(** The payload of an exception raised with [uassert]. *)
Record DBException := { code : Z; reason : string }.

(** How a call ends. [OutOfFuel] belongs to the embedding only: the recursive
    operations carry a bound on the depth of the recursion. *)
Inductive Outcome (A : Type) : Type :=
| Ok (a : A)
| Throw (e : DBException)
| Abort
| Fault
| OutOfFuel.
Arguments Ok {A} a.
Arguments Throw {A} e.
Arguments Abort {A}.
Arguments Fault {A}.
Arguments OutOfFuel {A}.

(** ** The external sub-languages *)

(** The computed-expression language ([Expression], [Value],
    [VariablesParseState]) is an external collaborator: the header only calls
    [Expression::serialize] and [Expression::parseOperand].  It is taken as an
    interface.  A [BSONElement] is a field name with a value; [None] is the
    end-of-object element. *)
Class ExpressionLanguage := {
  Expr : Type;
  Value : Type;
  VariablesParseState : Type;
  serialize : Expr → bool → Value;
  parse : option (string * Value) → VariablesParseState → DBException + Expr
}.

(** Modelled from the spec: the match-predicate tree of a
    [MatchExpressionASTNode] (class [MatchExpression], not in this header) is
    "built from, and referencing into" an immutable buffer: its nodes "hold
    references into the bytes of the originating buffer (for literal values,
    field-name strings, etc.)".  A reference is a buffer with a byte range. *)
Record BufRef := { ref_buf : addr; ref_off : nat; ref_len : nat }.

Inductive MatchExpression :=
| MatchNode (matchType : nat) (refs : list BufRef) (subs : list MatchExpression).

(** Modelled from the spec: a [BSONObj] is a handle on a shared, immutable,
    reference-counted buffer; copying the handle shares the bytes. *)
Abbreviation BSONObj := nat (only parsing).

Record SharedBuffer := { bytes : list Byte.byte; holders : nat }.

Section ProjectionAST.
Context `{EL : ExpressionLanguage}.

(** ** The store *)

(** The part of a node that its concrete class adds to [ASTNode].
    [AbstractBase] is the dynamic type of an object while the [ASTNode]
    constructor runs, before the derived part exists. *)
Inductive Derived :=
| AbstractBase
| MatchExpressionASTNode (_bson : BSONObj) (_matchExpr : ptr)
| ProjectionPathASTNode (_fieldNames : list string)
| ProjectionPositionalASTNode
| ProjectionSliceASTNode (_skip : option Z) (_limit : Z)
| ProjectionElemMatchASTNode
| ExpressionASTNode (_expr : ptr)
| BooleanConstantASTNode (_val : bool).

(** [class ASTNode]: [_parent], [_children], and the derived part. *)
Record ASTNode := {
  _parent : ptr;
  _children : list ptr;
  derived : Derived
}.

(** Modelled from the spec: an [Expression] keeps "the parse context it was
    built under" ([getExpressionContext()]), an [ExpressionContext] holds the
    variable-resolution scope ([variablesParseState]). *)
Record ExpressionObj := { expCtx : addr; tree : Expr }.

Inductive Obj :=
| ONode (n : ASTNode)
| OMatchExpression (me : MatchExpression)
| OExpression (e : ExpressionObj)
| OExpressionContext (variablesParseState : VariablesParseState).

(** The object store and the buffer store.  A cell holding [None] is memory
    without a live object.  Allocation takes the next address. *)
Record State := {
  heap : list (option Obj);
  buffers : list (option SharedBuffer)
}.

Definition cell (h : list (option Obj)) (a : addr) : option Obj :=
  match h !! a with Some (Some o) => Some o | _ => None end.

Definition node_at (h : list (option Obj)) (a : addr) : option ASTNode :=
  match cell h a with Some (ONode n) => Some n | _ => None end.

Definition buffer_at (b : list (option SharedBuffer)) (a : addr) : option SharedBuffer :=
  match b !! a with Some (Some o) => Some o | _ => None end.

(** ** Operations as store transformers *)

(** An operation takes the store and ends in an outcome; a normal return
    carries the new store.  A thrown exception unwinds the call: what the
    call had built is destroyed, and the caller goes on in the store it had. *)
Definition M (A : Type) : Type := State → Outcome (A * State).

Definition ret {A} (a : A) : M A := λ s, Ok (a, s).

Definition bind {A B} (m : M A) (k : A → M B) : M B :=
  λ s, match m s with
       | Ok (a, s') => k a s'
       | Throw e => Throw e
       | Abort => Abort
       | Fault => Fault
       | OutOfFuel => OutOfFuel
       end.

Notation "'let*' x ':=' m 'in' k" := (bind m (λ x, k))
  (at level 10, x name, m at level 200, k at level 200, only parsing).
Notation "m ';;' k" := (bind m (λ _, k))
  (at level 100, k at level 200, right associativity, only parsing).

Definition fault {A} : M A := λ _, Fault.
Definition throw {A} (e : DBException) : M A := λ _, Throw e.

(** [invariant(b)]: terminates the process when [b] is false. *)
Definition invariant (b : bool) : M unit := λ s, if b then Ok (tt, s) else Abort.

(** [operator new] followed by the construction of [o]. *)
Definition alloc (o : Obj) : M addr :=
  λ s, Ok (length (heap s), {| heap := heap s ++ [Some o]; buffers := buffers s |}).

Definition load (a : addr) : M Obj :=
  λ s, match cell (heap s) a with Some o => Ok (o, s) | None => Fault end.

Definition store (a : addr) (o : Obj) : M unit :=
  λ s, match cell (heap s) a with
       | Some _ => Ok (tt, {| heap := <[a := Some o]> (heap s); buffers := buffers s |})
       | None => Fault
       end.

(** [operator delete]. *)
Definition free (a : addr) : M unit :=
  λ s, match cell (heap s) a with
       | Some _ => Ok (tt, {| heap := <[a := None]> (heap s); buffers := buffers s |})
       | None => Fault
       end.

(** Dereference of a pointer to a node. *)
Definition deref (p : ptr) : M addr :=
  match p with Some a => ret a | None => fault end.

Definition load_node (a : addr) : M ASTNode :=
  let* o := load a in
  match o with ONode n => ret n | _ => fault end.

Definition set_parent (n : ASTNode) (p : ptr) : ASTNode :=
  {| _parent := p; _children := _children n; derived := derived n |}.

Definition set_children (n : ASTNode) (cs : list ptr) : ASTNode :=
  {| _parent := _parent n; _children := cs; derived := derived n |}.

Definition set_derived (n : ASTNode) (d : Derived) : ASTNode :=
  {| _parent := _parent n; _children := _children n; derived := d |}.

(** Copy of a [BSONObj]: one more holder of the same buffer. *)
Definition retain (b : BSONObj) : M unit :=
  λ s, match buffer_at (buffers s) b with
       | Some sb =>
           Ok (tt, {| heap := heap s;
                      buffers := <[b := Some {| bytes := bytes sb; holders := S (holders sb) |}]> (buffers s) |})
       | None => Fault
       end.

(** Destruction of a [BSONObj]: the last holder releases the buffer. *)
Definition release (b : BSONObj) : M unit :=
  λ s, match buffer_at (buffers s) b with
       | Some sb =>
           match holders sb with
           | 0 => Fault
           | 1 => Ok (tt, {| heap := heap s; buffers := <[b := None]> (buffers s) |})
           | S n =>
               Ok (tt, {| heap := heap s;
                          buffers := <[b := Some {| bytes := bytes sb; holders := n |}]> (buffers s) |})
           end
       | None => Fault
       end.

(** A loop over a vector, in order. *)
Fixpoint for_each {A} (l : list A) (body : A → M unit) : M unit :=
  match l with
  | [] => ret tt
  | x :: l' => body x ;; for_each l' body
  end.

(** ** [class ASTNode] *)

(** [children()], [parent()], [isRoot()] (lines 76-86). *)
Definition children (n : ASTNode) : list ptr := _children n.
Definition parent (n : ASTNode) : ptr := _parent n.
Definition isRoot (n : ASTNode) : bool :=
  match _parent n with None => true | Some _ => false end.

(** [addChildToInternalVector] (lines 89-92), called on the object [this]:
    [node->_parent = this; _children.push_back(std::move(node))]. *)
Definition addChildToInternalVector (this : addr) (node : ptr) : M unit :=
  let* c := deref node in
  let* cn := load_node c in
  store c (ONode (set_parent cn (Some this))) ;;
  let* tn := load_node this in
  store this (ONode (set_children tn (_children tn ++ [node]))).

(** The body of [ASTNode(ASTNodeVector children)] (lines 55-59), once
    [_children] holds the vector: every child gets [_parent = this]. *)
Definition adopt_child (this : addr) (child : ptr) : M unit :=
  let* c := deref child in
  let* cn := load_node c in
  store c (ONode (set_parent cn (Some this))).

Definition adopt_children (this : addr) : M unit :=
  let* tn := load_node this in
  for_each (_children tn) (adopt_child this).

(** ** Constructors of the concrete classes *)

(** [MatchExpressionASTNode(BSONObj bson, std::unique_ptr<MatchExpression> me)]
    (lines 101-102): [_bson(bson)] is one more holder of the buffer. *)
Definition new_MatchExpressionASTNode (bson : BSONObj) (me : ptr) : M addr :=
  retain bson ;;
  alloc (ONode {| _parent := None; _children := [];
                  derived := MatchExpressionASTNode bson me |}).

(** [ProjectionPathASTNode()] (line 129). *)
Definition new_ProjectionPathASTNode_empty : M addr :=
  alloc (ONode {| _parent := None; _children := [];
                  derived := ProjectionPathASTNode [] |}).

(** [ProjectionPathASTNode(ASTNodeVector children, std::vector<std::string>
    fieldNames)] (lines 131-134). *)
Definition new_ProjectionPathASTNode (children : list ptr) (fieldNames : list string)
  : M addr :=
  let* this := alloc (ONode {| _parent := None; _children := children;
                               derived := AbstractBase |}) in
  adopt_children this ;;
  let* tn := load_node this in
  store this (ONode (set_derived tn (ProjectionPathASTNode fieldNames))) ;;
  invariant (length (_children tn) =? length fieldNames) ;;
  ret this.

(** [ProjectionPositionalASTNode(std::unique_ptr<MatchExpressionASTNode> child)]
    (lines 170-173). *)
Definition new_ProjectionPositionalASTNode (child : ptr) : M addr :=
  let* this := alloc (ONode {| _parent := None; _children := [];
                               derived := ProjectionPositionalASTNode |}) in
  invariant (bool_decide (child ≠ None)) ;;
  addChildToInternalVector this child ;;
  ret this.

(** [ProjectionSliceASTNode(boost::optional<int> skip, int limit)] (line 186). *)
Definition new_ProjectionSliceASTNode (skip : option Z) (limit : Z) : M addr :=
  alloc (ONode {| _parent := None; _children := [];
                  derived := ProjectionSliceASTNode skip limit |}).

(** [ProjectionElemMatchASTNode(std::unique_ptr<MatchExpressionASTNode> child)]
    (lines 211-214). *)
Definition new_ProjectionElemMatchASTNode (child : ptr) : M addr :=
  let* this := alloc (ONode {| _parent := None; _children := [];
                               derived := ProjectionElemMatchASTNode |}) in
  invariant (bool_decide (child ≠ None)) ;;
  addChildToInternalVector this child ;;
  ret this.

(** [ExpressionASTNode(boost::intrusive_ptr<Expression> expr)] (line 227). *)
Definition new_ExpressionASTNode (expr : ptr) : M addr :=
  alloc (ONode {| _parent := None; _children := [];
                  derived := ExpressionASTNode expr |}).

(** [BooleanConstantASTNode(bool val)] (line 258). *)
Definition new_BooleanConstantASTNode (val : bool) : M addr :=
  alloc (ONode {| _parent := None; _children := [];
                  derived := BooleanConstantASTNode val |}).

(** ** [ProjectionPathASTNode] members *)

(** The loop of [getChild] (lines 146-150) over the indices still to visit. *)
Fixpoint getChild_loop (fieldNames : list string) (children : list ptr)
    (fieldName : string) (indices : list nat) : M ptr :=
  match indices with
  | [] => ret None
  | i :: rest =>
      match fieldNames !! i with
      | Some name =>
          if bool_decide (name = fieldName) then
            match children !! i with
            | Some c => ret c
            | None => fault
            end
          else getChild_loop fieldNames children fieldName rest
      | None => fault
      end
  end.

(** [getChild(StringData fieldName)] (lines 144-152). *)
Definition getChild (this : addr) (fieldName : string) : M ptr :=
  let* n := load_node this in
  match derived n with
  | ProjectionPathASTNode fieldNames =>
      invariant (length fieldNames =? length (_children n)) ;;
      getChild_loop fieldNames (_children n) fieldName (seq 0 (length fieldNames))
  | _ => fault
  end.

(** [addChild(StringData fieldName, std::unique_ptr<ASTNode> node)]
    (lines 154-157). *)
Definition addChild (this : addr) (fieldName : string) (node : ptr) : M unit :=
  addChildToInternalVector this node ;;
  let* n := load_node this in
  match derived n with
  | ProjectionPathASTNode fieldNames =>
      store this (ONode (set_derived n (ProjectionPathASTNode (fieldNames ++ [fieldName]))))
  | _ => fault
  end.

(** [fieldNames()] (lines 159-161). *)
Definition fieldNames (n : ASTNode) : list string :=
  match derived n with ProjectionPathASTNode names => names | _ => [] end.

(** [limit()], [skip()] (lines 196-202), [value()] (lines 268-270),
    [matchExpression()] (lines 117-119) and [expression()] (lines 248-250). *)
Definition limit (n : ASTNode) : Z :=
  match derived n with ProjectionSliceASTNode _ l => l | _ => 0%Z end.
Definition skip (n : ASTNode) : option Z :=
  match derived n with ProjectionSliceASTNode s _ => s | _ => None end.
Definition value (n : ASTNode) : bool :=
  match derived n with BooleanConstantASTNode v => v | _ => false end.
Definition matchExpression (n : ASTNode) : ptr :=
  match derived n with MatchExpressionASTNode _ me => me | _ => None end.
Definition expression (n : ASTNode) : ptr :=
  match derived n with ExpressionASTNode e => e | _ => None end.

(** ** The visitor protocol *)

(** [class ProjectionASTVisitor]: one [visit] overload per concrete class.  A
    visitor carries a state of its own and may use the store. *)
Record ProjectionASTVisitor (V : Type) := {
  visit_MatchExpressionASTNode : addr → V → M V;
  visit_ProjectionPathASTNode : addr → V → M V;
  visit_ProjectionPositionalASTNode : addr → V → M V;
  visit_ProjectionSliceASTNode : addr → V → M V;
  visit_ProjectionElemMatchASTNode : addr → V → M V;
  visit_ExpressionASTNode : addr → V → M V;
  visit_BooleanConstantASTNode : addr → V → M V
}.
Arguments visit_MatchExpressionASTNode {V}.
Arguments visit_ProjectionPathASTNode {V}.
Arguments visit_ProjectionPositionalASTNode {V}.
Arguments visit_ProjectionSliceASTNode {V}.
Arguments visit_ProjectionElemMatchASTNode {V}.
Arguments visit_ExpressionASTNode {V}.
Arguments visit_BooleanConstantASTNode {V}.

(** The virtual [acceptVisitor]: each override is [visitor->visit(this)] with
    [this] of the overriding class. *)
Definition acceptVisitor {V} (visitor : ProjectionASTVisitor V) (this : addr) (v : V)
  : M V :=
  let* n := load_node this in
  match derived n with
  | AbstractBase => fault
  | MatchExpressionASTNode _ _ => visit_MatchExpressionASTNode visitor this v
  | ProjectionPathASTNode _ => visit_ProjectionPathASTNode visitor this v
  | ProjectionPositionalASTNode => visit_ProjectionPositionalASTNode visitor this v
  | ProjectionSliceASTNode _ _ => visit_ProjectionSliceASTNode visitor this v
  | ProjectionElemMatchASTNode => visit_ProjectionElemMatchASTNode visitor this v
  | ExpressionASTNode _ => visit_ExpressionASTNode visitor this v
  | BooleanConstantASTNode _ => visit_BooleanConstantASTNode visitor this v
  end.

(** ** Cloning *)

(** Modelled from the spec: [MatchExpression::shallowClone] (not in this
    header) is "a shallow clone of the predicate tree that preserves its
    references into that buffer": a new tree object, the same references. *)
Definition shallowClone (me : addr) : M addr :=
  let* o := load me in
  match o with
  | OMatchExpression t => alloc (OMatchExpression t)
  | _ => fault
  end.

(** Modelled from the spec: [Expression::parseOperand] (not in this header)
    parses an element under the given parse context and scope; the new
    expression keeps that context; a parse error is thrown ([uassert]). *)
Definition parseOperand (ctx : addr) (exprElement : option (string * Value))
    (vps : VariablesParseState) : M addr :=
  match parse exprElement vps with
  | inl e => throw e
  | inr t => alloc (OExpression {| expCtx := ctx; tree := t |})
  end.

Definition load_expression (a : addr) : M ExpressionObj :=
  let* o := load a in
  match o with OExpression e => ret e | _ => fault end.

Definition load_context (a : addr) : M VariablesParseState :=
  let* o := load a in
  match o with OExpressionContext c => ret c | _ => fault end.

(** What the copy constructor of each concrete class does after the
    [ASTNode] copy constructor: the user-written ones of
    [MatchExpressionASTNode] (lines 104-107) and [ExpressionASTNode]
    (lines 228-238), the implicit member-wise ones of the others. *)
Definition copy_derived (other : Derived) : M Derived :=
  match other with
  | AbstractBase => fault
  | MatchExpressionASTNode bson me =>
      retain bson ;;
      let* m := deref me in
      let* m' := shallowClone m in
      ret (MatchExpressionASTNode bson (Some m'))
  | ExpressionASTNode e =>
      let* ea := deref e in
      let* eo := load_expression ea in
      let bob := [(EmptyString, serialize (tree eo) false)] in
      let* vps := load_context (expCtx eo) in
      let* clonedExpr := parseOperand (expCtx eo) (head bob) vps in
      ret (ExpressionASTNode (Some clonedExpr))
  | d => ret d
  end.

(** The body of the loop of the [ASTNode] copy constructor (lines 64-66):
    [addChildToInternalVector(child->clone())]. *)
Definition clone_child (clone : addr → M addr) (this : addr) (child : ptr) : M unit :=
  let* c := deref child in
  let* n := clone c in
  addChildToInternalVector this (Some n).

(** The virtual [clone()]: every override makes a new object of its own
    class by copy construction from the node, that is the [ASTNode] copy
    constructor (lines 61-67) followed by the derived part.  [clone] is pure
    virtual in [ASTNode]: there is nothing to call on an object whose derived
    part does not exist.  The copy constructor reads the children vector of
    the node, which no step of the loop changes, once. *)
Fixpoint clone (fuel : nat) (a : addr) : M addr :=
  match fuel with
  | 0 => λ _, OutOfFuel
  | S fuel' =>
      let* other := load_node a in
      match derived other with
      | AbstractBase => fault
      | _ =>
          let* this := alloc (ONode {| _parent := None; _children := [];
                                       derived := AbstractBase |}) in
          for_each (_children other) (clone_child (clone fuel') this) ;;
          let* d := copy_derived (derived other) in
          let* tn := load_node this in
          store this (ONode (set_derived tn d)) ;;
          ret this
      end
  end.

(** ** Move construction and destruction *)

(** What is left in the derived part of a moved-from object. *)
Definition moved_from (d : Derived) : Derived :=
  match d with
  | ProjectionPathASTNode _ => ProjectionPathASTNode []
  | d => d
  end.

(** [ASTNode(ASTNode&&) = default] (line 68) under the implicit move
    constructor of a concrete class: the members are moved one by one.
    [MatchExpressionASTNode] and [ExpressionASTNode] declare a copy
    constructor, so have no move constructor, and are copied instead. *)
Definition move_construct (fuel : nat) (other : addr) : M addr :=
  let* o := load_node other in
  match derived o with
  | AbstractBase => fault
  | MatchExpressionASTNode _ _ | ExpressionASTNode _ => clone fuel other
  | d =>
      let* this := alloc (ONode {| _parent := _parent o; _children := _children o;
                                   derived := d |}) in
      store other (ONode {| _parent := _parent o; _children := [];
                            derived := moved_from d |}) ;;
      ret this
  end.

(** The implicit destructors ([virtual ~ASTNode() = default], line 70): the
    members of the derived class, then the owned children, then the storage.
    The shared ownership of an [Expression] is not tracked: dropping the
    reference of an [ExpressionASTNode] leaves the expression in place. *)
Fixpoint destroy (fuel : nat) (a : addr) : M unit :=
  match fuel with
  | 0 => λ _, OutOfFuel
  | S fuel' =>
      let* n := load_node a in
      match derived n with
      | MatchExpressionASTNode bson me =>
          match me with Some m => free m | None => ret tt end ;;
          release bson
      | _ => ret tt
      end ;;
      for_each (_children n) (λ child,
        match child with Some c => destroy fuel' c | None => ret tt end) ;;
      free a
  end.

(** * The vocabulary of the properties *)

(** ** Stores that differ in parent links only *)

Definition parents_only (h h' : list (option Obj)) : Prop :=
  length h' = length h ∧
  ∀ a, match cell h a with
       | Some (ONode n) =>
           ∃ n', cell h' a = Some (ONode n') ∧
                 _children n' = _children n ∧ derived n' = derived n
       | c => cell h' a = c
       end.

(** ** The child-vector constructor *)

Definition live_node (h : list (option Obj)) (p : ptr) : Prop :=
  ∃ a n, p = Some a ∧ node_at h a = Some n.

(** ** The single-child constructors *)

Definition is_MatchExpressionASTNode (n : ASTNode) : Prop :=
  ∃ bson me, derived n = MatchExpressionASTNode bson me.

(** The static type [std::unique_ptr<MatchExpressionASTNode>] of a value: null,
    or the address of a live [MatchExpressionASTNode]. *)
Definition MatchExpressionASTNode_ptr (h : list (option Obj)) (p : ptr) : Prop :=
  match p with
  | None => True
  | Some a => ∃ n, node_at h a = Some n ∧ is_MatchExpressionASTNode n
  end.

(** What a successful single-child constructor leaves: a root of class [d]
    whose only child is the argument, a [MatchExpressionASTNode] linked back
    to it. *)
Definition single_child_node (d : Derived) (child : ptr) (this : addr) (s' : State)
  : Prop :=
  ∃ c n cn, child = Some c ∧
    node_at (heap s') this = Some n ∧ derived n = d ∧ _parent n = None ∧
    _children n = [Some c] ∧
    node_at (heap s') c = Some cn ∧ is_MatchExpressionASTNode cn ∧
    _parent cn = Some this.

(** ** Double dispatch *)

Inductive Kind :=
| KMatchExpression
| KProjectionPath
| KProjectionPositional
| KProjectionSlice
| KProjectionElemMatch
| KExpression
| KBooleanConstant.

(** The concrete class of a node; none while the base is under construction. *)
Definition kind_of (d : Derived) : option Kind :=
  match d with
  | AbstractBase => None
  | MatchExpressionASTNode _ _ => Some KMatchExpression
  | ProjectionPathASTNode _ => Some KProjectionPath
  | ProjectionPositionalASTNode => Some KProjectionPositional
  | ProjectionSliceASTNode _ _ => Some KProjectionSlice
  | ProjectionElemMatchASTNode => Some KProjectionElemMatch
  | ExpressionASTNode _ => Some KExpression
  | BooleanConstantASTNode _ => Some KBooleanConstant
  end.

(** The [visit] overload that a visitor declares for a class. *)
Definition visit_of {V} (k : Kind) (visitor : ProjectionASTVisitor V)
  : addr → V → M V :=
  match k with
  | KMatchExpression => visit_MatchExpressionASTNode visitor
  | KProjectionPath => visit_ProjectionPathASTNode visitor
  | KProjectionPositional => visit_ProjectionPositionalASTNode visitor
  | KProjectionSlice => visit_ProjectionSliceASTNode visitor
  | KProjectionElemMatch => visit_ProjectionElemMatchASTNode visitor
  | KExpression => visit_ExpressionASTNode visitor
  | KBooleanConstant => visit_BooleanConstantASTNode visitor
  end.

(** A visitor that records every call it receives: which overload, on which
    node. *)
Definition record_call (k : Kind) (a : addr) (log : list (Kind * addr))
  : M (list (Kind * addr)) :=
  ret (log ++ [(k, a)]).

Definition recorder : ProjectionASTVisitor (list (Kind * addr)) :=
  {| visit_MatchExpressionASTNode := record_call KMatchExpression;
     visit_ProjectionPathASTNode := record_call KProjectionPath;
     visit_ProjectionPositionalASTNode := record_call KProjectionPositional;
     visit_ProjectionSliceASTNode := record_call KProjectionSlice;
     visit_ProjectionElemMatchASTNode := record_call KProjectionElemMatch;
     visit_ExpressionASTNode := record_call KExpression;
     visit_BooleanConstantASTNode := record_call KBooleanConstant |}.

(** ** Trees in the store *)

(** The content of a derived part together with the objects it refers to. *)
Inductive Payload :=
| PMatchExpression (bson : BSONObj) (m : addr) (me : MatchExpression)
| PProjectionPath (names : list string)
| PProjectionPositional
| PProjectionSlice (skip : option Z) (limit : Z)
| PProjectionElemMatch
| PExpression (e : addr) (ctx : addr) (vps : VariablesParseState) (t : Expr)
| PBooleanConstant (val : bool).

(** A tree of nodes: the address of each node, its payload, its subtrees. *)
Inductive Tree := TNode (self : addr) (p : Payload) (kids : list Tree).

Definition root (t : Tree) : addr := match t with TNode a _ _ => a end.

Definition derived_of (p : Payload) : Derived :=
  match p with
  | PMatchExpression bson m _ => MatchExpressionASTNode bson (Some m)
  | PProjectionPath names => ProjectionPathASTNode names
  | PProjectionPositional => ProjectionPositionalASTNode
  | PProjectionSlice skip limit => ProjectionSliceASTNode skip limit
  | PProjectionElemMatch => ProjectionElemMatchASTNode
  | PExpression e _ _ _ => ExpressionASTNode (Some e)
  | PBooleanConstant val => BooleanConstantASTNode val
  end.

Definition payload_ok (h : list (option Obj)) (p : Payload) : Prop :=
  match p with
  | PMatchExpression _ m me => cell h m = Some (OMatchExpression me)
  | PExpression e ctx vps t =>
      cell h e = Some (OExpression {| expCtx := ctx; tree := t |}) ∧
      cell h ctx = Some (OExpressionContext vps)
  | _ => True
  end.

(** Objects owned through a payload, and objects it only refers to. *)
Definition payload_owned (p : Payload) : list addr :=
  match p with
  | PMatchExpression _ m _ => [m]
  | PExpression e _ _ _ => [e]
  | _ => []
  end.

Definition payload_shared (p : Payload) : list addr :=
  match p with
  | PExpression _ ctx _ _ => [ctx]
  | _ => []
  end.

Definition payload_buffers (p : Payload) : list addr :=
  match p with
  | PMatchExpression bson _ _ => [bson]
  | _ => []
  end.

Fixpoint owned (t : Tree) : list addr :=
  match t with
  | TNode a p kids => a :: payload_owned p ++ (kids ≫= owned)
  end.

Fixpoint shared (t : Tree) : list addr :=
  match t with
  | TNode _ p kids => payload_shared p ++ (kids ≫= shared)
  end.

Fixpoint tree_buffers (t : Tree) : list addr :=
  match t with
  | TNode _ p kids => payload_buffers p ++ (kids ≫= tree_buffers)
  end.

Fixpoint height (t : Tree) : nat :=
  match t with
  | TNode _ _ kids => S (foldr (λ k m, max (height k) m) 0 kids)
  end.

(** [repr h par t]: the store [h] holds the tree [t], whose root has parent
    [par]; every other node has the node above it as its parent, and the
    children vector of a node lists the roots of its subtrees in order. *)
Inductive repr (h : list (option Obj)) : ptr → Tree → Prop :=
| repr_node par a p kids :
    node_at h a = Some {| _parent := par;
                          _children := map (λ k, Some (root k)) kids;
                          derived := derived_of p |} →
    payload_ok h p →
    Forall (repr h (Some a)) kids →
    repr h par (TNode a p kids).

(** ** What a clone is, tree against tree *)

(** The element that the copy constructor of [ExpressionASTNode] re-parses:
    the first element of the object built by [bob << "" << serialize(false)]. *)
Definition serialized_operand (t : Expr) : option (string * Value) :=
  Some (EmptyString, serialize t false).

Definition cloned_payload (p p' : Payload) : Prop :=
  match p, p' with
  | PMatchExpression bson _ me, PMatchExpression bson' _ me' =>
      bson' = bson ∧ me' = me
  | PProjectionPath names, PProjectionPath names' => names' = names
  | PProjectionPositional, PProjectionPositional => True
  | PProjectionSlice skip limit, PProjectionSlice skip' limit' =>
      skip' = skip ∧ limit' = limit
  | PProjectionElemMatch, PProjectionElemMatch => True
  | PExpression _ ctx vps t, PExpression _ ctx' vps' t' =>
      ctx' = ctx ∧ vps' = vps ∧ parse (serialized_operand t) vps = inr t'
  | PBooleanConstant val, PBooleanConstant val' => val' = val
  | _, _ => False
  end.

Inductive cloned : Tree → Tree → Prop :=
| cloned_node a p kids a' p' kids' :
    cloned_payload p p' → Forall2 cloned kids kids' →
    cloned (TNode a p kids) (TNode a' p' kids').

(** Every expression of the tree survives serialization and re-parsing. *)
Definition payload_reparses (p : Payload) : Prop :=
  match p with
  | PExpression _ _ vps t => ∃ t', parse (serialized_operand t) vps = inr t'
  | _ => True
  end.

Inductive reparses : Tree → Prop :=
| reparses_node a p kids :
    payload_reparses p → Forall reparses kids → reparses (TNode a p kids).

(** The buffer store only gains holders. *)
Definition buffers_grow (bs bs' : list (option SharedBuffer)) : Prop :=
  length bs' = length bs ∧
  ∀ b, match buffer_at bs b with
       | Some sb => ∃ sb', buffer_at bs' b = Some sb' ∧
                           bytes sb' = bytes sb ∧ holders sb ≤ holders sb'
       | None => buffer_at bs' b = None
       end.

Definition buffers_live (bs : list (option SharedBuffer)) (l : list addr) : Prop :=
  Forall (λ b, is_Some (buffer_at bs b)) l.

(** ** Correctness of [clone] *)

(** What a call of [clone] on the tree [t] in the store [s] must leave: a
    tree [t'] at fresh addresses, a root without parent, the old cells
    untouched. *)
Definition clone_post (s : State) (t : Tree) (s' : State) (t' : Tree) : Prop :=
  root t' = length (heap s) ∧
  repr (heap s') None t' ∧
  cloned t t' ∧
  Forall (λ x, length (heap s) ≤ x < length (heap s')) (owned t') ∧
  NoDup (owned t') ∧
  (∀ x, x < length (heap s) → heap s' !! x = heap s !! x) ∧
  buffers_grow (buffers s) (buffers s').

(** On a tree in the store [clone] returns a clone when every expression of
    the tree re-parses, and throws otherwise. *)
Definition clone_spec (fuel : nat) : Prop :=
  ∀ t s par,
    height t ≤ fuel → repr (heap s) par t →
    buffers_live (buffers s) (tree_buffers t) →
    (reparses t ∧
     ∃ s' t', clone fuel (root t) s = Ok (length (heap s), s') ∧ clone_post s t s' t') ∨
    (¬ reparses t ∧ ∃ e, clone fuel (root t) s = Throw e).

(** The state of the copy constructor inside its loop: the new object, at the
    first address after the store [s] of the call, has adopted the clones
    [done] so far. *)
Definition copying (s s1 : State) (done : list Tree) : Prop :=
  length (heap s) < length (heap s1) ∧
  (∀ x, x < length (heap s) → heap s1 !! x = heap s !! x) ∧
  node_at (heap s1) (length (heap s)) =
    Some {| _parent := None; _children := map (λ k, Some (root k)) done;
            derived := AbstractBase |} ∧
  Forall (repr (heap s1) (Some (length (heap s)))) done ∧
  Forall (λ x, length (heap s) < x < length (heap s1)) (done ≫= owned) ∧
  NoDup (done ≫= owned) ∧
  Forall (λ x, x < length (heap s)) (done ≫= shared) ∧
  buffers_grow (buffers s) (buffers s1).

(** ** What [clone] can and cannot do, on any store *)

(** The frame of [clone]: the result is the first fresh address, its parent
    pointer is null, and no cell of the store of the call has changed. *)
Definition clone_frame (fuel : nat) : Prop :=
  ∀ a s a' s',
    clone fuel a s = Ok (a', s') →
    a' = length (heap s) ∧ length (heap s) < length (heap s') ∧
    (∀ x, x < length (heap s) → heap s' !! x = heap s !! x) ∧
    ∃ n, node_at (heap s') a' = Some n ∧ _parent n = None.

(** ** How [clone] can fail *)

(** An exception that comes from the re-parse of a serialized expression. *)
Definition parse_error (e : DBException) : Prop :=
  ∃ elem vps, parse elem vps = inl e.

(** An outcome that is neither a process abort nor an exception from
    anywhere but the expression parser. *)
Definition no_abort {A} (o : Outcome A) : Prop :=
  match o with
  | Abort => False
  | Throw e => parse_error e
  | _ => True
  end.

(** A childless [ExpressionASTNode] in the store. *)
Definition expression_leaf (s : State) (a : addr) (par : ptr) (e ctx : addr)
    (vps : VariablesParseState) (t : Expr) : Prop :=
  node_at (heap s) a = Some {| _parent := par; _children := [];
                               derived := ExpressionASTNode (Some e) |} ∧
  cell (heap s) e = Some (OExpression {| expCtx := ctx; tree := t |}) ∧
  cell (heap s) ctx = Some (OExpressionContext vps).

(** ** The shape of a tree *)

(** What the shape keeps of a node: its class and its scalar state. *)
Inductive Label :=
| LMatchExpression
| LProjectionPath (fieldNames : list string)
| LProjectionPositional
| LProjectionSlice (skip : option Z) (limit : Z)
| LProjectionElemMatch
| LExpression
| LBooleanConstant (val : bool).

Inductive Shape := ShapeNode (l : Label) (kids : list Shape).

Definition label_of (d : Derived) : option Label :=
  match d with
  | AbstractBase => None
  | MatchExpressionASTNode _ _ => Some LMatchExpression
  | ProjectionPathASTNode names => Some (LProjectionPath names)
  | ProjectionPositionalASTNode => Some LProjectionPositional
  | ProjectionSliceASTNode skip limit => Some (LProjectionSlice skip limit)
  | ProjectionElemMatchASTNode => Some LProjectionElemMatch
  | ExpressionASTNode _ => Some LExpression
  | BooleanConstantASTNode val => Some (LBooleanConstant val)
  end.

(** The shape read off the store, following [children()] from a node. *)
Fixpoint shape_at (fuel : nat) (h : list (option Obj)) (a : addr) : option Shape :=
  match fuel with
  | 0 => None
  | S fuel' =>
      n ← node_at h a;
      l ← label_of (derived n);
      kids ← mapM (λ c : ptr, c ≫= shape_at fuel' h) (children n);
      Some (ShapeNode l kids)
  end.

Definition payload_label (p : Payload) : Label :=
  match p with
  | PMatchExpression _ _ _ => LMatchExpression
  | PProjectionPath names => LProjectionPath names
  | PProjectionPositional => LProjectionPositional
  | PProjectionSlice skip limit => LProjectionSlice skip limit
  | PProjectionElemMatch => LProjectionElemMatch
  | PExpression _ _ _ _ => LExpression
  | PBooleanConstant val => LBooleanConstant val
  end.

Fixpoint shape (t : Tree) : Shape :=
  match t with
  | TNode _ p kids => ShapeNode (payload_label p) (map shape kids)
  end.

(** ** Reachability and independence *)

(** The objects of the store that an object points to: a node to its parent,
    its children and the object of its derived part, an expression to its
    context.  References into buffers lead out of the object store. *)
Definition out_pointers (o : Obj) : list addr :=
  match o with
  | ONode n =>
      option_list (_parent n) ++ omap id (_children n) ++
      match derived n with
      | MatchExpressionASTNode _ me => option_list me
      | ExpressionASTNode e => option_list e
      | _ => []
      end
  | OMatchExpression _ => []
  | OExpression e => [expCtx e]
  | OExpressionContext _ => []
  end.

Inductive reach (h : list (option Obj)) (a : addr) : addr → Prop :=
| reach_here : reach h a a
| reach_step b c o :
    reach h a b → cell h b = Some o → c ∈ out_pointers o → reach h a c.

(** No object points outside the store. *)
Definition closed (h : list (option Obj)) : Prop :=
  Forall (λ c : option Obj,
            match c with
            | Some o => Forall (λ x, x < length h) (out_pointers o)
            | None => True
            end) h.

Definition is_context (h : list (option Obj)) (x : addr) : Prop :=
  ∃ vps, cell h x = Some (OExpressionContext vps).

(** [independent exempt h a a']: overwriting a cell reachable from one of the
    nodes [a] and [a'], unless exempt, changes no cell reachable from the
    other. *)
Definition independent (exempt : addr → Prop) (h : list (option Obj)) (a a' : addr)
  : Prop :=
  ∀ x y v,
    ¬ exempt x →
    (reach h a' x ∧ reach h a y) ∨ (reach h a x ∧ reach h a' y) →
    (<[x := v]> h) !! y = h !! y.

(** ** Match expressions and their buffers *)

(** The bytes behind a reference; none when the buffer is gone or too short. *)
Definition read_ref (bs : list (option SharedBuffer)) (r : BufRef)
  : option (list Byte.byte) :=
  sb ← buffer_at bs (ref_buf r);
  if decide (ref_off r + ref_len r ≤ length (bytes sb))
  then Some (take (ref_len r) (drop (ref_off r) (bytes sb)))
  else None.

(** A predicate tree as an observer reads it: every reference replaced by
    the bytes it designates. *)
Inductive Predicate :=
| PredicateNode (matchType : nat) (operands : list (list Byte.byte))
                (subs : list Predicate).

Fixpoint resolve (bs : list (option SharedBuffer)) (me : MatchExpression)
  : option Predicate :=
  match me with
  | MatchNode ty refs subs =>
      ops ← mapM (read_ref bs) refs;
      ss ← mapM (resolve bs) subs;
      Some (PredicateNode ty ops ss)
  end.

(** What [matchExpression()] lets an observer of the node [a] read. *)
Definition observe (s : State) (a : addr) : option Predicate :=
  n ← node_at (heap s) a;
  m ← matchExpression n;
  o ← cell (heap s) m;
  match o with
  | OMatchExpression me => resolve (buffers s) me
  | _ => None
  end.

Fixpoint all_refs (me : MatchExpression) : list BufRef :=
  match me with
  | MatchNode _ refs subs => refs ++ (subs ≫= all_refs)
  end.

(** The predicate tree refers to the buffer [b] only. *)
Definition refs_into (b : addr) (me : MatchExpression) : Prop :=
  Forall (λ r, ref_buf r = b) (all_refs me).

Definition rebase_ref (to : addr) (r : BufRef) : BufRef :=
  {| ref_buf := to; ref_off := ref_off r; ref_len := ref_len r |}.

Fixpoint rebase (to : addr) (me : MatchExpression) : MatchExpression :=
  match me with
  | MatchNode ty refs subs => MatchNode ty (map (rebase_ref to) refs) (map (rebase to) subs)
  end.

Definition copy_buffer (b : addr) : M addr :=
  λ s, match buffer_at (buffers s) b with
       | Some sb =>
           Ok (length (buffers s),
               {| heap := heap s;
                  buffers := buffers s ++ [Some {| bytes := bytes sb; holders := 1 |}] |})
       | None => Fault
       end.

(** The clone that the spec compares with, "a true deep clone" of a
    [MatchExpressionASTNode]: the bytes are copied into a buffer of their own,
    and the predicate tree of the copy refers to that buffer. *)
Definition deep_clone_MatchExpressionASTNode (a : addr) : M addr :=
  let* n := load_node a in
  match derived n with
  | MatchExpressionASTNode bson (Some m) =>
      let* o := load m in
      match o with
      | OMatchExpression me =>
          let* bson' := copy_buffer bson in
          let* m' := alloc (OMatchExpression (rebase bson' me)) in
          alloc (ONode {| _parent := None; _children := [];
                          derived := MatchExpressionASTNode bson' (Some m') |})
      | _ => fault
      end
  | _ => fault
  end.

(** A [MatchExpressionASTNode] in the store; it has no children. *)
Definition match_expression_leaf (s : State) (a : addr) (par : ptr) (bson m : addr)
    (me : MatchExpression) : Prop :=
  node_at (heap s) a = Some {| _parent := par; _children := [];
                               derived := MatchExpressionASTNode bson (Some m) |} ∧
  cell (heap s) m = Some (OMatchExpression me).

(** ** Parent and child links *)

(** The links of the node [nn] at [n]: its parent lists it exactly once, and
    each of its children names it as parent. *)
Definition node_links_ok (h : list (option Obj)) (n : addr) (nn : ASTNode) : bool :=
  match _parent nn with
  | None => true
  | Some p =>
      match node_at h p with
      | Some pn => length (filter (λ c, c = Some n) (_children pn)) =? 1
      | None => false
      end
  end &&
  forallb (λ c : ptr,
             match c with
             | Some ca =>
                 match node_at h ca with
                 | Some cn => bool_decide (_parent cn = Some n)
                 | None => false
                 end
             | None => false
             end) (_children nn).

(** Every node of the store has consistent links. *)
Definition links_consistent (h : list (option Obj)) : bool :=
  forallb (λ n, match node_at h n with
                | Some nn => node_links_ok h n nn
                | None => true
                end) (seq 0 (length h)).

(** ** Links as the accessors show them *)

(** The nodes of a tree. *)
Fixpoint nodes (t : Tree) : list addr :=
  match t with
  | TNode a _ kids => a :: (kids ≫= nodes)
  end.

(** The links of a tree in the store as [children()] and [parent()] show
    them: every child pointer of a node of the tree leads to a node of the
    tree that has that node as its parent; every node of the tree but the root
    has its parent in the tree, and is listed exactly once among the children
    of that parent. *)
Definition linked (h : list (option Obj)) (t : Tree) : Prop :=
  ∀ x, x ∈ nodes t →
    ∃ n, node_at h x = Some n ∧
      Forall (λ c : ptr, ∃ ca cn, c = Some ca ∧ ca ∈ nodes t ∧
                                  node_at h ca = Some cn ∧ parent cn = Some x)
        (children n) ∧
      (x ≠ root t →
       ∃ p pn, parent n = Some p ∧ p ∈ nodes t ∧ node_at h p = Some pn ∧
               length (filter (λ c, c = Some x) (children pn)) = 1).

(** ** Building a path node step by step *)

(** A caller that builds a path node with the default constructor and adds
    the children one by one, each under its name. *)
Definition ProjectionPathASTNode_by_addChild (children : list ptr)
    (fieldNames : list string) : M addr :=
  let* this := new_ProjectionPathASTNode_empty in
  for_each (zip fieldNames children) (λ '(name, child), addChild this name child) ;;
  ret this.

(** ** Holders of the buffers *)

(** How often the handle of the buffer [b] occurs in a list of handles. *)
Definition occurrences (b : addr) (l : list addr) : nat :=
  length (filter (λ x, x = b) l).

(** [holders_added bs bs' l]: from [bs] to [bs'] every buffer has gained one
    holder for each occurrence of its handle in [l], and nothing else has
    changed. *)
Definition holders_added (bs bs' : list (option SharedBuffer)) (l : list addr) : Prop :=
  length bs' = length bs ∧
  ∀ b, buffer_at bs' b =
       (λ sb, {| bytes := bytes sb; holders := holders sb + occurrences b l |})
         <$> buffer_at bs b.

(** ** Destruction of a tree *)




(** [holders_dropped bs bs' l]: from [bs] to [bs'] every buffer has lost one
    holder for each occurrence of its handle in [l]; a buffer that has lost
    its last holder is gone. *)
Definition holders_dropped (bs bs' : list (option SharedBuffer)) (l : list addr) : Prop :=
  length bs' = length bs ∧
  ∀ b, buffer_at bs' b =
       sb ← buffer_at bs b;
       if decide (occurrences b l = 0) then Some sb
       else if decide (holders sb ≤ occurrences b l) then None
       else Some {| bytes := bytes sb; holders := holders sb - occurrences b l |}.



(** ** Move construction *)


End ProjectionAST.

(** * Examples *)

(** A small expression language: an expression is an integer, serialized as
    itself; only the non-negative integers parse. *)
Definition example_language : ExpressionLanguage := {|
  Expr := Z;
  Value := Z;
  VariablesParseState := nat;
  serialize := λ e _, e;
  parse := λ elem _,
    match elem with
    | Some (_, v) =>
        if (0 <=? v)%Z then inr v
        else inl {| code := 168; reason := "Unrecognized expression" |}
    | None => inl {| code := 168; reason := "Unrecognized expression" |}
    end
|}.

Section Examples.
#[local] Existing Instance example_language.

Definition empty_state : State := {| heap := []; buffers := [] |}.

(** The scenario of the spec: a path node with the children ["a"], a boolean
    constant [true], and ["b"], a slice with [skip = 2] and [limit = 5]. *)
Definition build_scenario : M addr :=
  bind (new_BooleanConstantASTNode true) (λ a,
  bind (new_ProjectionSliceASTNode (Some 2%Z) 5%Z) (λ b,
  new_ProjectionPathASTNode [Some a; Some b] ["a"; "b"]%string)).

Definition scenario_state : State :=
  {| heap := [Some (ONode {| _parent := Some 2; _children := [];
                             derived := BooleanConstantASTNode true |});
              Some (ONode {| _parent := Some 2; _children := [];
                             derived := ProjectionSliceASTNode (Some 2%Z) 5%Z |});
              Some (ONode {| _parent := None; _children := [Some 0; Some 1];
                             derived := ProjectionPathASTNode ["a"; "b"]%string |})];
     buffers := [] |}.

Definition scenario_tree : Tree :=
  TNode 2 (PProjectionPath ["a"; "b"]%string)
    [TNode 0 (PBooleanConstant true) [];
     TNode 1 (PProjectionSlice (Some 2%Z) 5%Z) []].

(** A projection with every class of node: [{x: <expression 5>, "y.$":
    <positional, on a match expression>, z: {$elemMatch: ...}, a: true,
    b: {$slice: [2, 5]}}]. *)
Definition full_state : State :=
  {| heap := [Some (OExpressionContext 7);
              Some (OExpression {| expCtx := 0; tree := 5%Z |});
              Some (ONode {| _parent := Some 11; _children := [];
                             derived := ExpressionASTNode (Some 1) |});
              Some (OMatchExpression
                      (MatchNode 0 [{| ref_buf := 0; ref_off := 0; ref_len := 2 |}]
                         [MatchNode 1 [{| ref_buf := 0; ref_off := 2; ref_len := 1 |}] []]));
              Some (ONode {| _parent := Some 5; _children := [];
                             derived := MatchExpressionASTNode 0 (Some 3) |});
              Some (ONode {| _parent := Some 11; _children := [Some 4];
                             derived := ProjectionPositionalASTNode |});
              Some (OMatchExpression
                      (MatchNode 2 [{| ref_buf := 1; ref_off := 1; ref_len := 2 |}] []));
              Some (ONode {| _parent := Some 8; _children := [];
                             derived := MatchExpressionASTNode 1 (Some 6) |});
              Some (ONode {| _parent := Some 11; _children := [Some 7];
                             derived := ProjectionElemMatchASTNode |});
              Some (ONode {| _parent := Some 11; _children := [];
                             derived := BooleanConstantASTNode true |});
              Some (ONode {| _parent := Some 11; _children := [];
                             derived := ProjectionSliceASTNode (Some 2%Z) 5%Z |});
              Some (ONode {| _parent := None;
                             _children := [Some 2; Some 5; Some 8; Some 9; Some 10];
                             derived := ProjectionPathASTNode
                                          ["x"; "y.$"; "z"; "a"; "b"]%string |})];
     buffers := [Some {| bytes := [Byte.x61; Byte.x62; Byte.x63]; holders := 1 |};
                 Some {| bytes := [Byte.x64; Byte.x65; Byte.x66]; holders := 1 |}] |}.

Definition full_tree : Tree :=
  TNode 11 (PProjectionPath ["x"; "y.$"; "z"; "a"; "b"]%string)
    [TNode 2 (PExpression 1 0 7 5%Z) [];
     TNode 5 PProjectionPositional
       [TNode 4 (PMatchExpression 0 3
                   (MatchNode 0 [{| ref_buf := 0; ref_off := 0; ref_len := 2 |}]
                      [MatchNode 1 [{| ref_buf := 0; ref_off := 2; ref_len := 1 |}] []])) []];
     TNode 8 PProjectionElemMatch
       [TNode 7 (PMatchExpression 1 6
                   (MatchNode 2 [{| ref_buf := 1; ref_off := 1; ref_len := 2 |}] [])) []];
     TNode 9 (PBooleanConstant true) [];
     TNode 10 (PProjectionSlice (Some 2%Z) 5%Z) []].

(** How the constructors build [full_state], from the buffers, the predicate
    trees, the expression and its context, which come from the parsers. *)
Definition build_full : M addr :=
  bind (alloc (OExpressionContext 7)) (λ ctx,
  bind (alloc (OExpression {| expCtx := ctx; tree := 5%Z |})) (λ e,
  bind (new_ExpressionASTNode (Some e)) (λ x,
  bind (alloc (OMatchExpression
                 (MatchNode 0 [{| ref_buf := 0; ref_off := 0; ref_len := 2 |}]
                    [MatchNode 1 [{| ref_buf := 0; ref_off := 2; ref_len := 1 |}] []]))) (λ m1,
  bind (new_MatchExpressionASTNode 0 (Some m1)) (λ me1,
  bind (new_ProjectionPositionalASTNode (Some me1)) (λ y,
  bind (alloc (OMatchExpression
                 (MatchNode 2 [{| ref_buf := 1; ref_off := 1; ref_len := 2 |}] []))) (λ m2,
  bind (new_MatchExpressionASTNode 1 (Some m2)) (λ me2,
  bind (new_ProjectionElemMatchASTNode (Some me2)) (λ z,
  bind (new_BooleanConstantASTNode true) (λ a,
  bind (new_ProjectionSliceASTNode (Some 2%Z) 5%Z) (λ b,
  new_ProjectionPathASTNode [Some x; Some y; Some z; Some a; Some b]
    ["x"; "y.$"; "z"; "a"; "b"]%string))))))))))).

(** The buffers before the nodes hold them: no holder yet but the parser. *)
Definition parsed_buffers : State :=
  {| heap := [];
     buffers := [Some {| bytes := [Byte.x61; Byte.x62; Byte.x63]; holders := 0 |};
                 Some {| bytes := [Byte.x64; Byte.x65; Byte.x66]; holders := 0 |}] |}.

(** The scenario with one more leaf, not adopted yet, then adopted under
    the name ["c"]. *)
Definition scenario_leaf_state : State :=
  {| heap := heap scenario_state ++
             [Some (ONode {| _parent := None; _children := [];
                             derived := BooleanConstantASTNode false |})];
     buffers := [] |}.

Definition scenario_grown_state : State :=
  {| heap := [Some (ONode {| _parent := Some 2; _children := [];
                             derived := BooleanConstantASTNode true |});
              Some (ONode {| _parent := Some 2; _children := [];
                             derived := ProjectionSliceASTNode (Some 2%Z) 5%Z |});
              Some (ONode {| _parent := None; _children := [Some 0; Some 1; Some 3];
                             derived := ProjectionPathASTNode ["a"; "b"; "c"]%string |});
              Some (ONode {| _parent := Some 2; _children := [];
                             derived := BooleanConstantASTNode false |})];
     buffers := [] |}.

(** Two leaves that no node has adopted yet. *)
Definition leaves_state : State :=
  {| heap := [Some (ONode {| _parent := None; _children := [];
                             derived := BooleanConstantASTNode true |});
              Some (ONode {| _parent := None; _children := [];
                             derived := ProjectionSliceASTNode (Some 2%Z) 5%Z |})];
     buffers := [] |}.

(** An expression node whose expression, a negative integer, does not
    re-parse, under a path node. *)
Definition unparsable_state : State :=
  {| heap := [Some (OExpressionContext 7);
              Some (OExpression {| expCtx := 0; tree := (-3)%Z |});
              Some (ONode {| _parent := Some 3; _children := [];
                             derived := ExpressionASTNode (Some 1) |});
              Some (ONode {| _parent := None; _children := [Some 2];
                             derived := ProjectionPathASTNode ["x"]%string |})];
     buffers := [] |}.

Definition unparsable_tree : Tree :=
  TNode 3 (PProjectionPath ["x"]%string) [TNode 2 (PExpression 1 0 7 (-3)%Z) []].

(** A childless expression node with its expression and context. *)
Definition expression_state : State :=
  {| heap := [Some (OExpressionContext 7);
              Some (OExpression {| expCtx := 0; tree := 5%Z |});
              Some (ONode {| _parent := None; _children := [];
                             derived := ExpressionASTNode (Some 1) |})];
     buffers := [] |}.

(** The store after [clone] of that node. *)
Definition expression_cloned_state : State :=
  {| heap := [Some (OExpressionContext 7);
              Some (OExpression {| expCtx := 0; tree := 5%Z |});
              Some (ONode {| _parent := None; _children := [];
                             derived := ExpressionASTNode (Some 1) |});
              Some (ONode {| _parent := None; _children := [];
                             derived := ExpressionASTNode (Some 4) |});
              Some (OExpression {| expCtx := 0; tree := 5%Z |})];
     buffers := [] |}.

(** The positional node of the example, an interior node. *)
Definition positional_tree : Tree :=
  TNode 5 PProjectionPositional
    [TNode 4 (PMatchExpression 0 3
                (MatchNode 0 [{| ref_buf := 0; ref_off := 0; ref_len := 2 |}]
                   [MatchNode 1 [{| ref_buf := 0; ref_off := 2; ref_len := 1 |}] []])) []].

(** The store after the path node of the scenario has been moved from. *)
Definition scenario_moved_state : State :=
  {| heap := [Some (ONode {| _parent := Some 2; _children := [];
                             derived := BooleanConstantASTNode true |});
              Some (ONode {| _parent := Some 2; _children := [];
                             derived := ProjectionSliceASTNode (Some 2%Z) 5%Z |});
              Some (ONode {| _parent := None; _children := [];
                             derived := ProjectionPathASTNode [] |});
              Some (ONode {| _parent := None; _children := [Some 0; Some 1];
                             derived := ProjectionPathASTNode ["a"; "b"]%string |})];
     buffers := [] |}.

(** The leaf adopted under the name ["a"], which the node has already. *)
Definition scenario_shadowed_state : State :=
  {| heap := [Some (ONode {| _parent := Some 2; _children := [];
                             derived := BooleanConstantASTNode true |});
              Some (ONode {| _parent := Some 2; _children := [];
                             derived := ProjectionSliceASTNode (Some 2%Z) 5%Z |});
              Some (ONode {| _parent := None; _children := [Some 0; Some 1; Some 3];
                             derived := ProjectionPathASTNode ["a"; "b"; "a"]%string |});
              Some (ONode {| _parent := Some 2; _children := [];
                             derived := BooleanConstantASTNode false |})];
     buffers := [] |}.

(** The store after [clone] of the slice node of the scenario. *)
Definition slice_cloned_state : State :=
  {| heap := heap scenario_state ++
             [Some (ONode {| _parent := None; _children := [];
                             derived := ProjectionSliceASTNode (Some 2%Z) 5%Z |})];
     buffers := [] |}.

(** The names and the subtrees of the root of the full example. *)
Definition full_names : list string :=
  match full_tree with TNode _ (PProjectionPath names) _ => names | _ => [] end.

Definition full_kids : list Tree :=
  match full_tree with TNode _ _ kids => kids end.

(** The leaf that the scenario adopts last. *)
Definition leaf_tree : Tree := TNode 3 (PBooleanConstant false) [].

End Examples.

(** * Properties *)

Section Properties.
Context `{EL : ExpressionLanguage}.

(** ** The store primitives *)

Lemma cell_lt h a o : cell h a = Some o → a < length h.
Proof.
  unfold cell. destruct (h !! a) eqn:E; [|done].
  intros _. by eapply lookup_lt_Some.
Qed.

Lemma cell_app_old h l a : a < length h → cell (h ++ l) a = cell h a.
Proof. intros H. unfold cell. by rewrite lookup_app_l. Qed.

Lemma cell_app_new h o : cell (h ++ [Some o]) (length h) = Some o.
Proof. unfold cell. by rewrite list_lookup_middle. Qed.

Lemma cell_insert_eq h a c : a < length h → cell (<[a := c]> h) a = c.
Proof. intros H. unfold cell. rewrite list_lookup_insert_eq; [by destruct c|done]. Qed.

Lemma cell_insert_ne h a b c : a ≠ b → cell (<[a := c]> h) b = cell h b.
Proof. intros H. unfold cell. by rewrite list_lookup_insert_ne. Qed.

Lemma node_at_cell h a n : node_at h a = Some n ↔ cell h a = Some (ONode n).
Proof.
  unfold node_at. split.
  - destruct (cell h a) as [[]|]; naive_solver.
  - by intros ->.
Qed.

Lemma node_at_lt h a n : node_at h a = Some n → a < length h.
Proof. rewrite node_at_cell. apply cell_lt. Qed.

Lemma node_at_app_old h l a : a < length h → node_at (h ++ l) a = node_at h a.
Proof. intros H. unfold node_at. by rewrite cell_app_old. Qed.

Lemma node_at_app_new h n : node_at (h ++ [Some (ONode n)]) (length h) = Some n.
Proof. unfold node_at. by rewrite cell_app_new. Qed.

Lemma node_at_insert_eq h a n :
  a < length h → node_at (<[a := Some (ONode n)]> h) a = Some n.
Proof. intros H. unfold node_at. by rewrite cell_insert_eq. Qed.

Lemma node_at_insert_ne h a b c : a ≠ b → node_at (<[a := c]> h) b = node_at h b.
Proof. intros H. unfold node_at. by rewrite cell_insert_ne. Qed.

(** Running the primitives. *)

Lemma bind_ok {A B} (m : M A) (k : A → M B) s a s1 :
  m s = Ok (a, s1) → bind m k s = k a s1.
Proof. unfold bind. by intros ->. Qed.

Lemma bind_bind {A B C} (m : M A) (f : A → M B) (g : B → M C) s :
  bind (bind m f) g s = bind m (λ x, bind (f x) g) s.
Proof. unfold bind. by destruct (m s) as [[a s1]| | | |]. Qed.

Lemma bind_fault {A B} (m : M A) (k : A → M B) s :
  m s = Fault → bind m k s = Fault.
Proof. unfold bind. by intros ->. Qed.

Lemma bind_throw {A B} (m : M A) (k : A → M B) s e :
  m s = Throw e → bind m k s = Throw e.
Proof. unfold bind. by intros ->. Qed.

Lemma bind_abort {A B} (m : M A) (k : A → M B) s :
  m s = Abort → bind m k s = Abort.
Proof. unfold bind. by intros ->. Qed.

Lemma bind_inv {A B} (m : M A) (k : A → M B) s r :
  bind m k s = Ok r → ∃ a s1, m s = Ok (a, s1) ∧ k a s1 = Ok r.
Proof. unfold bind. destruct (m s) as [[a s1]| | | |]; naive_solver. Qed.

Lemma load_node_ok s a n : node_at (heap s) a = Some n → load_node a s = Ok (n, s).
Proof.
  rewrite node_at_cell. intros H. unfold load_node, bind, load. by rewrite H.
Qed.

Lemma load_node_inv s a n s1 :
  load_node a s = Ok (n, s1) → s1 = s ∧ node_at (heap s) a = Some n.
Proof.
  unfold load_node, bind, load, node_at.
  destruct (cell (heap s) a) as [[]|]; unfold ret, fault; naive_solver.
Qed.

Lemma store_ok s a o o0 :
  cell (heap s) a = Some o0 →
  store a o s = Ok (tt, {| heap := <[a := Some o]> (heap s); buffers := buffers s |}).
Proof. intros H. unfold store. by rewrite H. Qed.

Lemma store_inv s a o u s1 :
  store a o s = Ok (u, s1) →
  s1 = {| heap := <[a := Some o]> (heap s); buffers := buffers s |} ∧ a < length (heap s).
Proof.
  unfold store. destruct (cell (heap s) a) eqn:E; [|done].
  intros [= <- <-]. split; [done|]. by eapply cell_lt.
Qed.

(** ** Stores that differ in parent links only *)

Lemma parents_only_refl h : parents_only h h.
Proof. split; [done|]. intros a. destruct (cell h a) as [[]|]; eauto. Qed.

Lemma parents_only_trans h1 h2 h3 :
  parents_only h1 h2 → parents_only h2 h3 → parents_only h1 h3.
Proof.
  intros [L1 H1] [L2 H2]. split; [congruence|]. intros a.
  specialize (H1 a). specialize (H2 a).
  destruct (cell h1 a) as [[n| | |]|].
  - destruct H1 as (n' & E & ? & ?). rewrite E in H2.
    destruct H2 as (n'' & ? & ? & ?). exists n''. repeat split; congruence.
  - by rewrite H1 in H2.
  - by rewrite H1 in H2.
  - by rewrite H1 in H2.
  - by rewrite H1 in H2.
Qed.

Lemma parents_only_node h h' a n :
  parents_only h h' → node_at h a = Some n →
  ∃ n', node_at h' a = Some n' ∧ _children n' = _children n ∧ derived n' = derived n.
Proof.
  intros [_ H] E. apply node_at_cell in E. specialize (H a). rewrite E in H.
  destruct H as (n' & ? & ? & ?). exists n'. by rewrite node_at_cell.
Qed.

Lemma parents_only_set_parent h a n p :
  node_at h a = Some n → parents_only h (<[a := Some (ONode (set_parent n p))]> h).
Proof.
  intros E. pose proof (node_at_lt _ _ _ E) as Hlt. apply node_at_cell in E.
  split; [by rewrite length_insert|]. intros b.
  destruct (decide (a = b)) as [<-|Hne].
  - rewrite E, cell_insert_eq by done. eauto.
  - rewrite cell_insert_ne by done. destruct (cell h b) as [[]|]; eauto.
Qed.

(** ** The child-vector constructor *)

Lemma adopt_child_outcome this child s :
  adopt_child this child s = Fault ∨
  ∃ s', adopt_child this child s = Ok (tt, s') ∧
        parents_only (heap s) (heap s') ∧ buffers s' = buffers s.
Proof.
  unfold adopt_child. destruct child as [c|]; [|by left].
  unfold deref. rewrite (bind_ok _ _ s c s) by done.
  destruct (node_at (heap s) c) as [cn|] eqn:E.
  - rewrite (bind_ok _ _ s cn s) by by apply load_node_ok.
    right. eexists. split.
    + eapply store_ok. by apply node_at_cell.
    + split; [|done]. by apply parents_only_set_parent.
  - left. unfold bind, load_node, bind, load. unfold node_at in E.
    destruct (cell (heap s) c) as [[]|]; done.
Qed.

Lemma adopt_child_live this child s :
  live_node (heap s) child → adopt_child this child s ≠ Fault.
Proof.
  intros (c & cn & -> & E). unfold adopt_child, deref.
  rewrite (bind_ok _ _ s c s) by done.
  rewrite (bind_ok _ _ s cn s) by by apply load_node_ok.
  erewrite store_ok; [done|]. by apply node_at_cell.
Qed.

Lemma live_node_parents_only h h' p :
  parents_only h h' → live_node h p → live_node h' p.
Proof.
  intros Hp (a & n & -> & E).
  destruct (parents_only_node _ _ _ _ Hp E) as (n' & ? & _). by exists a, n'.
Qed.

Lemma adopt_loop_outcome this cs s :
  for_each cs (adopt_child this) s = Fault ∨
  ∃ s', for_each cs (adopt_child this) s = Ok (tt, s') ∧
        parents_only (heap s) (heap s') ∧ buffers s' = buffers s.
Proof.
  revert s. induction cs as [|c cs IH]; intros s; simpl.
  - right. exists s. split; [done|]. split; [apply parents_only_refl|done].
  - destruct (adopt_child_outcome this c s) as [E|(s1 & E & Hp & Hb)].
    + left. unfold bind. by rewrite E.
    + rewrite (bind_ok _ _ _ _ _ E).
      destruct (IH s1) as [E2|(s2 & E2 & Hp2 & Hb2)]; [by left|].
      right. exists s2. split; [done|]. split; [|congruence].
      by eapply parents_only_trans.
Qed.

Lemma adopt_loop_live this cs s :
  Forall (live_node (heap s)) cs → for_each cs (adopt_child this) s ≠ Fault.
Proof.
  revert s. induction cs as [|c cs IH]; intros s Hl; simpl; [done|].
  apply Forall_cons in Hl as [Hc Hcs].
  destruct (adopt_child_outcome this c s) as [E|(s1 & E & Hp & Hb)].
  - by apply adopt_child_live in E.
  - rewrite (bind_ok _ _ _ _ _ E). apply IH.
    eapply Forall_impl; [exact Hcs|]. intros p. by apply live_node_parents_only.
Qed.

Lemma new_ProjectionPathASTNode_outcome children names s :
  new_ProjectionPathASTNode children names s = Fault ∨
  ∃ s1 n',
    parents_only (heap s ++ [Some (ONode {| _parent := None; _children := children;
                                            derived := AbstractBase |})]) (heap s1) ∧
    buffers s1 = buffers s ∧
    node_at (heap s1) (length (heap s)) = Some n' ∧ _children n' = children ∧
    new_ProjectionPathASTNode children names s =
      if length children =? length names
      then Ok (length (heap s),
               {| heap := <[length (heap s) :=
                              Some (ONode (set_derived n' (ProjectionPathASTNode names)))]>
                            (heap s1);
                  buffers := buffers s1 |})
      else Abort.
Proof.
  unfold new_ProjectionPathASTNode.
  set (n0 := {| _parent := None; _children := children; derived := AbstractBase |}).
  set (s0 := {| heap := heap s ++ [Some (ONode n0)]; buffers := buffers s |}).
  rewrite (bind_ok _ _ s (length (heap s)) s0) by done.
  assert (node_at (heap s0) (length (heap s)) = Some n0) as E0
    by apply node_at_app_new.
  unfold adopt_children. rewrite bind_bind.
  rewrite (bind_ok _ _ _ _ _ (load_node_ok _ _ _ E0)).
  change (_children n0) with children.
  destruct (adopt_loop_outcome (length (heap s)) children s0) as [E|(s1 & E & Hp & Hb)].
  - left. by apply bind_fault.
  - right. destruct (parents_only_node _ _ _ _ Hp E0) as (n' & E1 & Hc & Hd).
    exists s1, n'. split; [exact Hp|]. split; [exact Hb|].
    split; [exact E1|]. split; [exact Hc|].
    rewrite (bind_ok _ _ _ _ _ E).
    rewrite (bind_ok _ _ _ _ _ (load_node_ok _ _ _ E1)).
    erewrite bind_ok; last by (eapply store_ok; apply node_at_cell).
    rewrite Hc. unfold bind, invariant. by destruct (_ =? _).
Qed.

Lemma getChild_loop_spec names cs fieldName s :
  length names = length cs →
  ∀ k i, i + k = length names →
    (∀ j, j < i → names !! j ≠ Some fieldName) →
    ∃ r, getChild_loop names cs fieldName (seq i k) s = Ok (r, s) ∧
      ((∃ i', names !! i' = Some fieldName ∧
              (∀ j, j < i' → names !! j ≠ Some fieldName) ∧ cs !! i' = Some r)
       ∨ ((fieldName ∉ names) ∧ r = None)).
Proof.
  intros Hlen k. induction k as [|k IH]; intros i Hik Hbefore; simpl.
  - exists None. split; [done|]. right. split; [|done].
    intros (j & Hj)%list_elem_of_lookup.
    apply (Hbefore j); [|done]. apply lookup_lt_Some in Hj. lia.
  - destruct (lookup_lt_is_Some_2 names i) as [name Hn]; [lia|].
    rewrite Hn. case_bool_decide as Hname.
    + destruct (lookup_lt_is_Some_2 cs i) as [c Hc]; [lia|].
      rewrite Hc. exists c. split; [done|]. left. exists i. by subst.
    + apply IH; [lia|]. intros j Hj.
      destruct (decide (j = i)) as [->|]; [congruence|]. apply Hbefore. lia.
Qed.

(** ** Adoption of one child *)

Lemma addChildToInternalVector_ok s this c cn tn :
  node_at (heap s) c = Some cn → node_at (heap s) this = Some tn → this ≠ c →
  addChildToInternalVector this (Some c) s =
    Ok (tt, {| heap := <[this := Some (ONode (set_children tn (_children tn ++ [Some c])))]>
                         (<[c := Some (ONode (set_parent cn (Some this)))]> (heap s));
               buffers := buffers s |}).
Proof.
  intros Hc Ht Hne. unfold addChildToInternalVector, deref.
  rewrite (bind_ok _ _ s c s eq_refl).
  rewrite (bind_ok _ _ _ _ _ (load_node_ok _ _ _ Hc)).
  erewrite bind_ok; last by (eapply store_ok; apply node_at_cell).
  erewrite bind_ok; last first.
  { apply load_node_ok. simpl. rewrite node_at_insert_ne by done. exact Ht. }
  erewrite store_ok; [done|]. simpl. rewrite cell_insert_ne by done.
  by apply node_at_cell.
Qed.

(** ** The single-child constructors *)

Lemma single_child_ctor d child s :
  MatchExpressionASTNode_ptr (heap s) child →
  match bind (alloc (ONode {| _parent := None; _children := []; derived := d |}))
          (λ this, bind (invariant (bool_decide (child ≠ None)))
             (λ _, bind (addChildToInternalVector this child) (λ _, ret this))) s with
  | Ok (this, s') => single_child_node d child this s'
  | Abort => child = None
  | _ => False
  end.
Proof.
  intros Hty. rewrite (bind_ok _ _ s _ _ eq_refl).
  destruct child as [c|]; [|done].
  rewrite (bind_ok _ _ _ tt _ eq_refl).
  destruct Hty as (cn & Hc & Hme).
  pose proof (node_at_lt _ _ _ Hc) as Hlt.
  erewrite bind_ok; last first.
  { eapply addChildToInternalVector_ok.
    - simpl. rewrite node_at_app_old by done. exact Hc.
    - simpl. apply node_at_app_new.
    - lia. }
  unfold ret. exists c. eexists. eexists. split; [done|]. simpl.
  rewrite node_at_insert_eq; last (rewrite length_insert, length_app; simpl; lia).
  split; [done|]. split; [done|]. split; [done|]. split; [done|].
  rewrite node_at_insert_ne by lia.
  rewrite node_at_insert_eq; last (rewrite length_app; simpl; lia).
  done.
Qed.

(** ** Trees in the store *)

Lemma Tree_ind' (P : Tree → Prop) :
  (∀ a p kids, Forall P kids → P (TNode a p kids)) → ∀ t, P t.
Proof.
  intros H. fix IH 1. intros [a p kids]. apply H.
  induction kids as [|k kids IHk]; constructor; [apply IH|apply IHk].
Qed.

Lemma owned_kid a p kids k x :
  k ∈ kids → x ∈ owned k → x ∈ owned (TNode a p kids).
Proof.
  intros Hk Hx. simpl. right. apply elem_of_app. right.
  apply list_elem_of_bind. by exists k.
Qed.

Lemma shared_kid a p kids k x :
  k ∈ kids → x ∈ shared k → x ∈ shared (TNode a p kids).
Proof.
  intros Hk Hx. simpl. apply elem_of_app. right.
  apply list_elem_of_bind. by exists k.
Qed.

Lemma payload_ok_lt h p :
  payload_ok h p →
  Forall (λ x, x < length h) (payload_owned p) ∧
  Forall (λ x, x < length h) (payload_shared p).
Proof.
  destruct p; simpl; intros H; split; repeat constructor.
  - by eapply cell_lt.
  - by eapply cell_lt, (proj1 H).
  - by eapply cell_lt, (proj2 H).
Qed.

Lemma payload_ok_frame h h' p :
  (∀ x, x ∈ payload_owned p → cell h' x = cell h x) →
  (∀ x, x ∈ payload_shared p → cell h' x = cell h x) →
  payload_ok h p → payload_ok h' p.
Proof.
  destruct p; simpl; intros Ho Hs H; try done.
  - rewrite Ho; [done|by left].
  - rewrite Ho, Hs; [done|by left..].
Qed.

Lemma repr_lt h par t :
  repr h par t →
  Forall (λ x, x < length h) (owned t) ∧ Forall (λ x, x < length h) (shared t).
Proof.
  revert par. induction t as [a p kids IH] using Tree_ind'.
  intros par Hr. inversion Hr as [? ? ? ? Hn Hp Hk]; subst.
  apply payload_ok_lt in Hp as [Hpo Hps].
  assert (∀ k, k ∈ kids →
            Forall (λ x, x < length h) (owned k) ∧
            Forall (λ x, x < length h) (shared k)) as Hkids.
  { rewrite Forall_forall in IH, Hk. intros k Hin. by eapply IH, Hk. }
  simpl. split.
  - constructor; [by eapply node_at_lt|]. apply Forall_app. split; [done|].
    apply Forall_bind, Forall_forall. intros k Hin. by apply Hkids.
  - apply Forall_app. split; [done|].
    apply Forall_bind, Forall_forall. intros k Hin. by apply Hkids.
Qed.

Lemma repr_frame h h' par t :
  (∀ x, x ∈ owned t → cell h' x = cell h x) →
  (∀ x, x ∈ shared t → cell h' x = cell h x) →
  repr h par t → repr h' par t.
Proof.
  revert par. induction t as [a p kids IH] using Tree_ind'.
  intros par Ho Hs Hr. inversion Hr as [? ? ? ? Hn Hp Hk]; subst.
  constructor.
  - unfold node_at. rewrite Ho; [exact Hn|]. simpl. by left.
  - eapply payload_ok_frame; [| |exact Hp]; intros x Hx.
    + apply Ho. simpl. right. apply elem_of_app. by left.
    + apply Hs. simpl. apply elem_of_app. by left.
  - rewrite Forall_forall in IH, Hk. apply Forall_forall. intros k Hin.
    apply (IH k Hin); [| |by apply Hk]; intros x Hx.
    + apply Ho. by eapply owned_kid.
    + apply Hs. by eapply shared_kid.
Qed.

(** ** What a clone is, tree against tree *)

Lemma buffers_grow_refl bs : buffers_grow bs bs.
Proof. split; [done|]. intros b. destruct (buffer_at bs b); eauto. Qed.

Lemma buffers_grow_trans bs1 bs2 bs3 :
  buffers_grow bs1 bs2 → buffers_grow bs2 bs3 → buffers_grow bs1 bs3.
Proof.
  intros [L1 H1] [L2 H2]. split; [congruence|]. intros b.
  specialize (H1 b). specialize (H2 b). destruct (buffer_at bs1 b) as [sb|].
  - destruct H1 as (sb2 & E & ? & ?). rewrite E in H2.
    destruct H2 as (sb3 & ? & ? & ?). exists sb3. split; [done|].
    split; [congruence|lia].
  - by rewrite H1 in H2.
Qed.

Lemma buffers_live_grow bs bs' l :
  buffers_grow bs bs' → buffers_live bs l → buffers_live bs' l.
Proof.
  intros [_ H] Hl. eapply Forall_impl; [exact Hl|].
  intros b [sb Hb]. specialize (H b).
  rewrite Hb in H. destruct H as (sb' & ? & _). by exists sb'.
Qed.

Lemma buffer_at_insert_eq bs b c :
  b < length bs → buffer_at (<[b := c]> bs) b = c.
Proof.
  intros H. unfold buffer_at. rewrite list_lookup_insert_eq by done. by destruct c.
Qed.

Lemma buffer_at_insert_ne bs a b c :
  a ≠ b → buffer_at (<[a := c]> bs) b = buffer_at bs b.
Proof. intros H. unfold buffer_at. by rewrite list_lookup_insert_ne. Qed.

Lemma buffer_at_lt bs b sb : buffer_at bs b = Some sb → b < length bs.
Proof.
  unfold buffer_at. destruct (bs !! b) eqn:E; [|done]. intros _.
  by eapply lookup_lt_Some.
Qed.

Lemma retain_ok s b sb :
  buffer_at (buffers s) b = Some sb →
  retain b s = Ok (tt, {| heap := heap s;
                          buffers := <[b := Some {| bytes := bytes sb;
                                                    holders := S (holders sb) |}]>
                                       (buffers s) |}).
Proof. intros H. unfold retain. by rewrite H. Qed.

Lemma retain_grow bs b sb :
  buffer_at bs b = Some sb →
  buffers_grow bs (<[b := Some {| bytes := bytes sb; holders := S (holders sb) |}]> bs).
Proof.
  intros Hb. split; [by rewrite length_insert|]. intros b'.
  destruct (decide (b = b')) as [<-|Hne].
  - rewrite Hb, buffer_at_insert_eq by by eapply buffer_at_lt.
    eexists. split; [done|]. simpl. split; [done|lia].
  - rewrite buffer_at_insert_ne by done. destruct (buffer_at bs b'); eauto.
Qed.

(** The derived part of a copy. *)
Lemma copy_derived_ok s p :
  payload_ok (heap s) p → buffers_live (buffers s) (payload_buffers p) →
  payload_reparses p →
  ∃ s' p',
    copy_derived (derived_of p) s = Ok (derived_of p', s') ∧
    cloned_payload p p' ∧
    (∃ new, heap s' = heap s ++ new) ∧
    payload_ok (heap s') p' ∧
    Forall (λ x, length (heap s) ≤ x < length (heap s')) (payload_owned p') ∧
    NoDup (payload_owned p') ∧
    buffers_grow (buffers s) (buffers s').
Proof.
  intros Hok Hlive Hre.
  destruct p as [bson m me|names| |skip limit| |e ctx vps t|val]; simpl in *.
  - apply Forall_singleton in Hlive as [sb Hsb].
    eexists _, (PMatchExpression bson (length (heap s)) me).
    unfold copy_derived. simpl.
    rewrite (bind_ok _ _ _ _ _ (retain_ok _ _ _ Hsb)). unfold deref.
    rewrite (bind_ok _ _ _ m _ eq_refl).
    unfold shallowClone. rewrite bind_bind.
    erewrite bind_ok; last by (unfold load; simpl; rewrite Hok).
    rewrite (bind_ok _ _ _ _ _ eq_refl). simpl. unfold ret.
    split; [done|]. split; [done|]. split; [by eexists|].
    split; [apply cell_app_new|].
    split; [constructor; [simpl; rewrite length_app; simpl; lia|constructor]|].
    split; [apply NoDup_singleton|]. by apply retain_grow.
  - exists s, (PProjectionPath names). repeat split; try done.
    + exists []. by rewrite app_nil_r.
    + constructor.
    + intros b. destruct (buffer_at (buffers s) b); eauto.
  - exists s, PProjectionPositional. repeat split; try done.
    + exists []. by rewrite app_nil_r.
    + constructor.
    + intros b. destruct (buffer_at (buffers s) b); eauto.
  - exists s, (PProjectionSlice skip limit). repeat split; try done.
    + exists []. by rewrite app_nil_r.
    + constructor.
    + intros b. destruct (buffer_at (buffers s) b); eauto.
  - exists s, PProjectionElemMatch. repeat split; try done.
    + exists []. by rewrite app_nil_r.
    + constructor.
    + intros b. destruct (buffer_at (buffers s) b); eauto.
  - destruct Hok as [He Hc]. destruct Hre as [t' Ht'].
    eexists _, (PExpression (length (heap s)) ctx vps t').
    unfold copy_derived, deref. simpl.
    rewrite (bind_ok _ _ _ e _ eq_refl).
    unfold load_expression. rewrite bind_bind.
    erewrite bind_ok; last by (unfold load; rewrite He).
    rewrite (bind_ok _ _ _ _ _ eq_refl). simpl.
    unfold load_context. rewrite bind_bind.
    erewrite bind_ok; last by (unfold load; rewrite Hc).
    rewrite (bind_ok _ _ _ _ _ eq_refl).
    unfold parseOperand. fold (serialized_operand t). rewrite Ht'.
    rewrite (bind_ok _ _ _ _ _ eq_refl). unfold ret. simpl.
    split; [done|]. split; [done|]. split; [by eexists|].
    split; [split; [apply cell_app_new|]|].
    { simpl. rewrite cell_app_old; [done|]. by eapply cell_lt. }
    split; [constructor; [simpl; rewrite length_app; simpl; lia|constructor]|].
    split; [apply NoDup_singleton|]. apply buffers_grow_refl.
  - exists s, (PBooleanConstant val). repeat split; try done.
    + exists []. by rewrite app_nil_r.
    + constructor.
    + intros b. destruct (buffer_at (buffers s) b); eauto.
Qed.

Lemma copy_derived_total s p :
  payload_ok (heap s) p → buffers_live (buffers s) (payload_buffers p) →
  (payload_reparses p ∧
   ∃ s' p',
     copy_derived (derived_of p) s = Ok (derived_of p', s') ∧
     cloned_payload p p' ∧
     (∃ new, heap s' = heap s ++ new) ∧
     payload_ok (heap s') p' ∧
     Forall (λ x, length (heap s) ≤ x < length (heap s')) (payload_owned p') ∧
     NoDup (payload_owned p') ∧
     buffers_grow (buffers s) (buffers s')) ∨
  (¬ payload_reparses p ∧ ∃ e, copy_derived (derived_of p) s = Throw e).
Proof.
  intros Hok Hlive.
  assert (payload_reparses p ∨
          ∃ e ctx vps t err, p = PExpression e ctx vps t ∧
                             parse (serialized_operand t) vps = inl err) as [Hre|Hno].
  { destruct p; try (by left). simpl.
    destruct (parse (serialized_operand t) vps) as [err|t'] eqn:E.
    - right. by eexists _, _, _, _, _.
    - left. by exists t'. }
  - left. split; [done|]. by apply copy_derived_ok.
  - right. destruct Hno as (e & ctx & vps & t & err & -> & Herr).
    split. { simpl. intros [t' Ht']. congruence. }
    exists err. destruct Hok as [He Hc]. simpl. unfold deref.
    rewrite (bind_ok (ret e) _ _ e _ eq_refl).
    unfold load_expression. rewrite bind_bind.
    erewrite bind_ok; last by (unfold load; rewrite He).
    rewrite (bind_ok _ _ _ _ _ eq_refl). simpl.
    unfold load_context. rewrite bind_bind.
    erewrite bind_ok; last by (unfold load; rewrite Hc).
    rewrite (bind_ok _ _ _ _ _ eq_refl).
    unfold parseOperand. fold (serialized_operand t). by rewrite Herr.
Qed.

(** ** Stability of a tree under changes elsewhere in the store *)

Lemma cell_agree h h' x : h' !! x = h !! x → cell h' x = cell h x.
Proof. unfold cell. by intros ->. Qed.

Lemma repr_agree_below h h' par t :
  (∀ x, x < length h → h' !! x = h !! x) → repr h par t → repr h' par t.
Proof.
  intros Hf Hr. destruct (repr_lt _ _ _ Hr) as [Ho Hs].
  rewrite Forall_forall in Ho, Hs.
  eapply repr_frame; [| |exact Hr]; intros x Hx; apply cell_agree, Hf; auto.
Qed.

Lemma repr_insert_other h par t a c :
  a ∉ owned t → a ∉ shared t → repr h par t → repr (<[a := c]> h) par t.
Proof.
  intros Ho Hs. apply repr_frame; intros x Hx; apply cell_insert_ne; congruence.
Qed.

Lemma repr_shared_context h par t x :
  repr h par t → x ∈ shared t → ∃ vps, cell h x = Some (OExpressionContext vps).
Proof.
  revert par. induction t as [a p kids IH] using Tree_ind'.
  intros par Hr. inversion Hr as [? ? ? ? Hn Hp Hk]; subst. simpl.
  intros [Hx|Hx]%elem_of_app.
  - destruct p; simpl in Hx; try by apply elem_of_nil in Hx.
    apply list_elem_of_singleton in Hx as ->. destruct Hp as [_ Hc]. eauto.
  - apply list_elem_of_bind in Hx as (k & Hx & Hin).
    rewrite Forall_forall in IH, Hk. by eapply IH, Hx; [|apply Hk].
Qed.

(** Re-parenting the root of a tree whose nodes are pairwise distinct. *)
Lemma repr_set_parent h par par' t n :
  repr h par t → NoDup (owned t) → node_at h (root t) = Some n →
  repr (<[root t := Some (ONode (set_parent n par'))]> h) par' t.
Proof.
  intros Hr Hnd Hn. pose proof Hr as Hr0.
  inversion Hr as [? a p kids Hn' Hp Hk]; subst. simpl in *.
  rewrite Hn' in Hn. injection Hn as <-.
  apply NoDup_cons in Hnd as [Hnotin _].
  assert (∀ x, x ∈ shared (TNode a p kids) → x ≠ a) as Hsh.
  { intros x Hx ->. destruct (repr_shared_context _ _ _ _ Hr0 Hx) as [vps Hc].
    apply node_at_cell in Hn'. congruence. }
  constructor.
  - rewrite node_at_insert_eq; [done|]. by eapply node_at_lt.
  - eapply payload_ok_frame; [| |exact Hp]; intros x Hx.
    + apply cell_insert_ne. intros <-. apply Hnotin, elem_of_app. by left.
    + apply cell_insert_ne. intros <-. eapply Hsh; [|done]. simpl.
      apply elem_of_app. by left.
  - rewrite Forall_forall in Hk. apply Forall_forall. intros k Hin.
    apply repr_insert_other; [| |by apply Hk].
    + intros Hx. apply Hnotin, elem_of_app. right.
      apply list_elem_of_bind. by exists k.
    + intros Hx. eapply Hsh; [|done]. by eapply shared_kid.
Qed.

Lemma cloned_payload_shared p p' :
  cloned_payload p p' → payload_shared p' = payload_shared p.
Proof. destruct p, p'; simpl; try done. by intros (-> & _). Qed.

Lemma cloned_shared t t' : cloned t t' → shared t' = shared t.
Proof.
  revert t'. induction t as [a p kids IH] using Tree_ind'.
  intros t' Hc. inversion Hc as [? ? ? a' p' kids' Hp Hk]; subst. simpl.
  rewrite (cloned_payload_shared _ _ Hp). f_equal.
  clear Hc Hp. induction Hk as [|k k' kids kids' Hkk Hk IHk]; [done|].
  apply Forall_cons in IH as [IH1 IH2]. rewrite !bind_cons.
  by rewrite (IH1 _ Hkk), (IHk IH2).
Qed.

(** ** Correctness of [clone] *)

Lemma clone_child_ok fuel s a k done s1 :
  clone_spec fuel →
  height k ≤ fuel → repr (heap s) (Some a) k →
  buffers_live (buffers s) (tree_buffers k) →
  copying s s1 done →
  (reparses k ∧
   ∃ s2 k',
     clone_child (clone fuel) (length (heap s)) (Some (root k)) s1 = Ok (tt, s2) ∧
     cloned k k' ∧ copying s s2 (done ++ [k'])) ∨
  (¬ reparses k ∧
   ∃ e, clone_child (clone fuel) (length (heap s)) (Some (root k)) s1 = Throw e).
Proof.
  intros IH Hh Hr Hl (Hlt & Hfr & Hthis & Hdone & Hrange & Hnd & Hsh & Hbuf).
  set (lo := length (heap s)) in *.
  assert (repr (heap s1) (Some a) k) as Hr1.
  { eapply repr_agree_below; [|exact Hr]. intros x Hx. by apply Hfr. }
  destruct (IH k s1 (Some a) Hh Hr1)
    as [(Hre & s1' & k' & Hclone & Hpost)|(Hnre & e & Hthrow)];
    [by eapply buffers_live_grow| |]; last first.
  { right. split; [done|]. exists e. unfold clone_child, deref.
    rewrite (bind_ok _ _ _ (root k) _ eq_refl). by apply bind_throw. }
  left. split; [done|].
  destruct Hpost as (Hroot & Hr' & Hcl & Hrange' & Hnd' & Hfr' & Hbuf').
  set (r := length (heap s1)) in *.
  pose proof Hr' as Hr'0. inversion Hr' as [? r' p' kids' Hnr _ _]; subst.
  simpl in Hroot. subst r'.
  assert (node_at (heap s1') lo =
            Some {| _parent := None; _children := map (λ k, Some (root k)) done;
                    derived := AbstractBase |}) as Hthis'.
  { unfold node_at, cell. rewrite Hfr' by done. exact Hthis. }
  assert (lo ≠ r) as Hne by (unfold r; lia).
  assert (r < length (heap s1')) as Hrlt by by eapply node_at_lt.
  eexists _, (TNode r p' kids'). split; [|split; [exact Hcl|]].
  { unfold clone_child, deref. rewrite (bind_ok _ _ _ (root k) _ eq_refl).
    rewrite (bind_ok _ _ _ _ _ Hclone).
    by apply addChildToInternalVector_ok. }
  assert (shared (TNode r p' kids') = shared k) as Hshk by by apply cloned_shared.
  destruct (repr_lt _ _ _ Hr) as [_ Hshlt]. fold lo in Hshlt.
  rewrite Forall_forall in Hrange, Hrange', Hsh, Hshlt.
  unfold copying. simpl heap. simpl buffers. fold lo.
  rewrite !length_insert.
  split; [lia|]. split.
  { intros x Hx. rewrite !list_lookup_insert_ne by lia.
    rewrite Hfr' by lia. by apply Hfr. }
  split.
  { rewrite node_at_insert_eq by (rewrite length_insert; lia).
    unfold set_children. simpl. by rewrite map_app. }
  split.
  { apply Forall_app. split.
    - rewrite Forall_forall in Hdone. apply Forall_forall. intros d Hd.
      assert (∀ x, x ∈ owned d → lo < x < r) as Hod.
      { intros x Hx. apply Hrange, list_elem_of_bind. by exists d. }
      assert (∀ x, x ∈ shared d → x < lo) as Hsd.
      { intros x Hx. apply Hsh, list_elem_of_bind. by exists d. }
      apply repr_insert_other.
      { intros Hx. apply Hod in Hx. lia. }
      { intros Hx. apply Hsd in Hx. lia. }
      apply repr_insert_other.
      { intros Hx. apply Hod in Hx. lia. }
      { intros Hx. apply Hsd in Hx. lia. }
      eapply repr_agree_below; [|by apply Hdone]. intros x Hx. by apply Hfr'.
    - apply Forall_singleton. apply repr_insert_other.
      { intros Hx. apply Hrange' in Hx. lia. }
      { rewrite Hshk. intros Hx. apply Hshlt in Hx. lia. }
      by apply (repr_set_parent _ None (Some lo) (TNode r p' kids')). }
  rewrite !bind_app, !bind_singleton.
  split.
  { apply Forall_app. split; apply Forall_forall; intros x Hx.
    - apply Hrange in Hx. unfold r in *. lia.
    - apply Hrange' in Hx. lia. }
  split.
  { apply NoDup_app. split; [done|]. split; [|done].
    intros x Hx Hx'. apply Hrange in Hx. apply Hrange' in Hx'. lia. }
  split.
  { apply Forall_app. split; apply Forall_forall; intros x Hx.
    - by apply Hsh.
    - rewrite Hshk in Hx. by apply Hshlt. }
  by eapply buffers_grow_trans.
Qed.

Lemma clone_children_ok fuel s a :
  clone_spec fuel →
  ∀ kids done s1,
    Forall (λ k, height k ≤ fuel) kids →
    Forall (repr (heap s) (Some a)) kids →
    Forall (λ k, buffers_live (buffers s) (tree_buffers k)) kids →
    copying s s1 done →
    (Forall reparses kids ∧
     ∃ s2 new,
       for_each (map (λ k, Some (root k)) kids)
                (clone_child (clone fuel) (length (heap s))) s1 = Ok (tt, s2) ∧
       Forall2 cloned kids new ∧ copying s s2 (done ++ new)) ∨
    (¬ Forall reparses kids ∧
     ∃ e, for_each (map (λ k, Some (root k)) kids)
                   (clone_child (clone fuel) (length (heap s))) s1 = Throw e).
Proof.
  intros IH kids. induction kids as [|k kids IHk]; intros done s1 Hh Hr Hl Hinv.
  - left. split; [constructor|]. exists s1, []. split; [done|].
    split; [constructor|]. by rewrite app_nil_r.
  - apply Forall_cons in Hh as [Hh1 Hh2]. apply Forall_cons in Hr as [Hr1 Hr2].
    apply Forall_cons in Hl as [Hl1 Hl2].
    destruct (clone_child_ok fuel s a k done s1 IH Hh1 Hr1 Hl1 Hinv)
      as [(Hre1 & s2 & k' & Hstep & Hcl & Hinv2)|(Hnre & e & Hthrow)]; last first.
    { right. split; [by intros [? _]%Forall_cons|]. exists e. simpl.
      by apply bind_throw. }
    destruct (IHk (done ++ [k']) s2 Hh2 Hr2 Hl2 Hinv2)
      as [(Hre2 & s3 & new & Hloop & Hcls & Hinv3)|(Hnre & e & Hthrow)]; last first.
    { right. split; [by intros [_ ?]%Forall_cons|]. exists e. simpl.
      by rewrite (bind_ok _ _ _ _ _ Hstep). }
    left. split; [by constructor|].
    exists s3, (k' :: new). split; [|split].
    + simpl. by rewrite (bind_ok _ _ _ _ _ Hstep).
    + by constructor.
    + by rewrite <- app_assoc in Hinv3.
Qed.

Lemma height_kids a p kids fuel :
  height (TNode a p kids) ≤ S fuel → Forall (λ k, height k ≤ fuel) kids.
Proof.
  simpl. intros H. apply le_S_n in H. revert H.
  induction kids as [|k kids IH]; simpl; intros H; constructor; [lia|].
  apply IH. lia.
Qed.

Lemma tree_buffers_kids bs a p kids :
  buffers_live bs (tree_buffers (TNode a p kids)) →
  buffers_live bs (payload_buffers p) ∧
  Forall (λ k, buffers_live bs (tree_buffers k)) kids.
Proof.
  unfold buffers_live. simpl. rewrite Forall_app, Forall_bind. by intros [? ?].
Qed.

Lemma clone_total fuel : clone_spec fuel.
Proof.
  induction fuel as [|fuel IH]; intros t s par Hh Hr Hl.
  { destruct t. simpl in Hh. lia. }
  destruct t as [a p kids]. pose proof Hr as Hr0.
  inversion Hr as [? ? ? ? Hn Hp Hk]; subst.
  apply tree_buffers_kids in Hl as [Hlp Hlk].
  pose proof (height_kids _ _ _ _ Hh) as Hhk.
  set (lo := length (heap s)).
  set (s1 := {| heap := heap s ++ [Some (ONode {| _parent := None; _children := [];
                                                 derived := AbstractBase |})];
                buffers := buffers s |}).
  assert (copying s s1 []) as Hinv.
  { unfold copying. simpl. rewrite length_app. simpl.
    split; [lia|]. split; [intros x Hx; by rewrite lookup_app_l|].
    split; [apply node_at_app_new|].
    split; [constructor|]. split; [constructor|]. split; [constructor|].
    split; [constructor|]. apply buffers_grow_refl. }
  cbn [root].
  assert (clone (S fuel) a s =
          bind (for_each (map (λ k, Some (root k)) kids)
                  (clone_child (clone fuel) lo))
            (λ _, bind (copy_derived (derived_of p))
               (λ d, bind (load_node lo)
                  (λ tn, bind (store lo (ONode (set_derived tn d)))
                     (λ _, ret lo)))) s1) as Hunfold.
  { simpl. rewrite (bind_ok _ _ _ _ _ (load_node_ok _ _ _ Hn)). simpl.
    assert (∀ (m : M nat), match derived_of p with AbstractBase => fault | _ => m end = m)
      as -> by (intros m; by destruct p).
    by rewrite (bind_ok (alloc _) _ s lo s1 eq_refl). }
  destruct (clone_children_ok fuel s a IH kids [] s1 Hhk Hk Hlk Hinv)
    as [(Hrek & s2 & kids' & Hloop & Hcls & Hinv2)|(Hnre & e & Hthrow)]; last first.
  { right. split.
    - intros Hre. inversion Hre; subst. done.
    - exists e. rewrite Hunfold. by apply bind_throw. }
  simpl in Hinv2.
  destruct Hinv2 as (Hlt & Hfr & Hthis & Hdone & Hrange & Hnd & Hsh & Hbuf).
  fold lo in Hlt, Hfr, Hthis, Hdone, Hrange, Hsh.
  assert (payload_ok (heap s2) p) as Hp2.
  { destruct (payload_ok_lt _ _ Hp) as [Ho Hs]. rewrite Forall_forall in Ho, Hs.
    eapply payload_ok_frame; [| |exact Hp]; intros x Hx;
      apply cell_agree, Hfr; auto. }
  destruct (copy_derived_total s2 p Hp2) as
    [(Hrep & s3 & p' & Hcopy & Hclp & [new Hext] & Hp3 & Hrp & Hndp & Hbuf3)
    |(Hnre & e & Hthrow)];
    [by eapply buffers_live_grow| |]; last first.
  { right. split.
    - intros Hre. inversion Hre; subst. done.
    - exists e. rewrite Hunfold, (bind_ok _ _ _ _ _ Hloop). by apply bind_throw. }
  left. split; [by constructor|].
  assert (length (heap s2) ≤ length (heap s3)) as Hle
    by (rewrite Hext, length_app; lia).
  assert (node_at (heap s3) lo =
            Some {| _parent := None; _children := map (λ k, Some (root k)) kids';
                    derived := AbstractBase |}) as Hthis3.
  { rewrite Hext, node_at_app_old by done. exact Hthis. }
  eexists _, (TNode lo p' kids'). split.
  { rewrite Hunfold.
    rewrite (bind_ok _ _ _ _ _ Hloop).
    rewrite (bind_ok _ _ _ _ _ Hcopy).
    rewrite (bind_ok _ _ _ _ _ (load_node_ok _ _ _ Hthis3)).
    erewrite bind_ok; last by (eapply store_ok; apply node_at_cell).
    reflexivity. }
  rewrite Forall_forall in Hrange, Hsh, Hrp.
  destruct (payload_ok_lt _ _ Hp) as [_ Hpsh]. rewrite Forall_forall in Hpsh.
  fold lo in Hpsh.
  unfold clone_post. simpl heap. simpl buffers. fold lo. rewrite length_insert.
  split; [done|]. split.
  { constructor.
    - rewrite node_at_insert_eq by lia. done.
    - eapply payload_ok_frame; [| |exact Hp3]; intros x Hx; apply cell_insert_ne.
      + apply Hrp in Hx. lia.
      + rewrite (cloned_payload_shared _ _ Hclp) in Hx. apply Hpsh in Hx. lia.
    - rewrite Forall_forall in Hdone. apply Forall_forall. intros k Hin.
      assert (∀ x, x ∈ owned k → lo < x < length (heap s2)) as Hod.
      { intros x Hx. apply Hrange, list_elem_of_bind. by exists k. }
      assert (∀ x, x ∈ shared k → x < lo) as Hsd.
      { intros x Hx. apply Hsh, list_elem_of_bind. by exists k. }
      apply repr_insert_other.
      { intros Hx. apply Hod in Hx. lia. }
      { intros Hx. apply Hsd in Hx. lia. }
      eapply repr_agree_below; [|by apply Hdone]. intros x Hx.
      rewrite Hext. by rewrite lookup_app_l. }
  split; [by constructor|].
  split.
  { simpl. constructor; [lia|]. apply Forall_app. split; apply Forall_forall; intros x Hx.
    - apply Hrp in Hx. lia.
    - apply Hrange in Hx. lia. }
  split.
  { simpl. apply NoDup_cons. split.
    - intros [Hx|Hx]%elem_of_app; [apply Hrp in Hx|apply Hrange in Hx]; lia.
    - apply NoDup_app. split; [done|]. split; [|done].
      intros x Hx Hx'. apply Hrp in Hx. apply Hrange in Hx'. lia. }
  split.
  { intros x Hx. rewrite list_lookup_insert_ne by (unfold lo; lia).
    rewrite Hext, lookup_app_l by lia. by apply Hfr. }
  by eapply buffers_grow_trans.
Qed.

(** [clone] on a tree all of whose expressions re-parse. *)
Theorem clone_correct fuel t s par :
  height t ≤ fuel → repr (heap s) par t →
  buffers_live (buffers s) (tree_buffers t) → reparses t →
  ∃ s' t', clone fuel (root t) s = Ok (length (heap s), s') ∧ clone_post s t s' t'.
Proof.
  intros Hh Hr Hl Hre.
  destruct (clone_total fuel t s par Hh Hr Hl) as [(_ & H)|(Hnre & _)]; done.
Qed.

(** [clone] on a tree one of whose expressions does not re-parse. *)
Theorem clone_throws fuel t s par :
  height t ≤ fuel → repr (heap s) par t →
  buffers_live (buffers s) (tree_buffers t) → ¬ reparses t →
  ∃ e, clone fuel (root t) s = Throw e.
Proof.
  intros Hh Hr Hl Hnre.
  destruct (clone_total fuel t s par Hh Hr Hl) as [(Hre & _)|(_ & H)]; done.
Qed.

(** ** What [clone] can and cannot do, on any store *)

Lemma deref_inv p c s s1 : deref p s = Ok (c, s1) → p = Some c ∧ s1 = s.
Proof. destruct p; unfold deref, ret, fault; naive_solver. Qed.

Lemma addChildToInternalVector_inv this node s u s' :
  addChildToInternalVector this node s = Ok (u, s') →
  ∃ c cn tn,
    node = Some c ∧ node_at (heap s) c = Some cn ∧
    node_at (<[c := Some (ONode (set_parent cn (Some this)))]> (heap s)) this = Some tn ∧
    s' = {| heap := <[this := Some (ONode (set_children tn (_children tn ++ [node])))]>
                      (<[c := Some (ONode (set_parent cn (Some this)))]> (heap s));
            buffers := buffers s |}.
Proof.
  unfold addChildToInternalVector. intros H.
  apply bind_inv in H as (c & s1 & Hd & H). apply deref_inv in Hd as [-> ->].
  apply bind_inv in H as (cn & s1 & Hl & H). apply load_node_inv in Hl as [-> Hc].
  apply bind_inv in H as ([] & s1 & Hs & H). apply store_inv in Hs as [-> _].
  apply bind_inv in H as (tn & s2 & Hl & H). apply load_node_inv in Hl as [-> Ht].
  apply store_inv in H as [-> _]. simpl in *. by exists c, cn, tn.
Qed.

Lemma load_inv a s o s1 : load a s = Ok (o, s1) → s1 = s ∧ cell (heap s) a = Some o.
Proof. unfold load. destruct (cell (heap s) a); naive_solver. Qed.

Lemma load_expression_inv a s e s1 :
  load_expression a s = Ok (e, s1) → s1 = s ∧ cell (heap s) a = Some (OExpression e).
Proof.
  unfold load_expression. intros H. apply bind_inv in H as (o & s2 & Hl & H).
  apply load_inv in Hl as [-> Hc]. destruct o; try done. by injection H as <- <-.
Qed.

Lemma load_context_inv a s c s1 :
  load_context a s = Ok (c, s1) →
  s1 = s ∧ cell (heap s) a = Some (OExpressionContext c).
Proof.
  unfold load_context. intros H. apply bind_inv in H as (o & s2 & Hl & H).
  apply load_inv in Hl as [-> Hc]. destruct o; try done. by injection H as <- <-.
Qed.

Lemma shallowClone_inv m s m' s' :
  shallowClone m s = Ok (m', s') →
  ∃ t, cell (heap s) m = Some (OMatchExpression t) ∧ m' = length (heap s) ∧
       s' = {| heap := heap s ++ [Some (OMatchExpression t)]; buffers := buffers s |}.
Proof.
  unfold shallowClone. intros H. apply bind_inv in H as (o & s2 & Hl & H).
  apply load_inv in Hl as [-> Hc]. destruct o; try done.
  injection H as <- <-. by eexists.
Qed.

Lemma parseOperand_inv ctx elem vps s e' s' :
  parseOperand ctx elem vps s = Ok (e', s') →
  ∃ t, parse elem vps = inr t ∧ e' = length (heap s) ∧
       s' = {| heap := heap s ++ [Some (OExpression {| expCtx := ctx; tree := t |})];
               buffers := buffers s |}.
Proof.
  unfold parseOperand. destruct (parse elem vps) as [e|t]; [done|].
  intros [= <- <-]. by exists t.
Qed.

Lemma retain_inv b s u s' :
  retain b s = Ok (u, s') →
  ∃ sb, buffer_at (buffers s) b = Some sb ∧
        s' = {| heap := heap s;
                buffers := <[b := Some {| bytes := bytes sb; holders := S (holders sb) |}]>
                             (buffers s) |}.
Proof.
  unfold retain. destruct (buffer_at (buffers s) b) as [sb|]; [|done].
  intros [= <-]. by exists sb.
Qed.

Lemma copy_derived_inv d s d' s' :
  copy_derived d s = Ok (d', s') → ∃ new, heap s' = heap s ++ new.
Proof.
  assert (s' = s → ∃ new, heap s' = heap s ++ new) as Hsame.
  { intros ->. exists []. by rewrite app_nil_r. }
  destruct d; simpl; intros H; try (apply Hsame; by injection H); try done.
  - apply bind_inv in H as ([] & s1 & Hr & H).
    apply retain_inv in Hr as (sb & _ & ->).
    apply bind_inv in H as (m & s2 & Hd & H). apply deref_inv in Hd as [_ ->].
    apply bind_inv in H as (m' & s2 & Hc & H). injection H as _ <-.
    apply shallowClone_inv in Hc as (t & _ & _ & ->). by eexists.
  - apply bind_inv in H as (ea & s1 & Hd & H). apply deref_inv in Hd as [_ ->].
    apply bind_inv in H as (eo & s1 & Hl & H).
    apply load_expression_inv in Hl as [-> _].
    apply bind_inv in H as (vps & s1 & Hl2 & H).
    apply load_context_inv in Hl2 as [-> _].
    apply bind_inv in H as (e' & s1 & Hp & H). injection H as _ <-.
    apply parseOperand_inv in Hp as (t & _ & _ & ->). by eexists.
Qed.

Lemma clone_children_frame fuel this cs :
  clone_frame fuel →
  ∀ s1 u s2 tn,
    for_each cs (clone_child (clone fuel) this) s1 = Ok (u, s2) →
    node_at (heap s1) this = Some tn →
    length (heap s1) ≤ length (heap s2) ∧
    (∀ x, x < length (heap s1) → x ≠ this → heap s2 !! x = heap s1 !! x) ∧
    ∃ tn', node_at (heap s2) this = Some tn' ∧
           _parent tn' = _parent tn ∧ derived tn' = derived tn.
Proof.
  intros IH. induction cs as [|c cs IHcs]; intros s1 u s2 tn H Ht.
  - injection H as _ <-. split; [done|]. split; [done|]. by exists tn.
  - simpl in H. apply bind_inv in H as ([] & s1' & Hstep & H).
    unfold clone_child in Hstep.
    apply bind_inv in Hstep as (ca & s0 & Hd & Hstep).
    apply deref_inv in Hd as [-> ->].
    apply bind_inv in Hstep as (n & s1c & Hc & Hstep).
    apply IH in Hc as (-> & Hlt & Hfr & _).
    apply addChildToInternalVector_inv in Hstep
      as (c' & cn & tn1 & [= <-] & Hcn & Htn1 & ->).
    pose proof (node_at_lt _ _ _ Ht) as Hthis.
    rewrite node_at_insert_ne in Htn1 by lia.
    assert (node_at (heap s1c) this = Some tn) as Ht1.
    { unfold node_at, cell. rewrite Hfr by done. exact Ht. }
    rewrite Ht1 in Htn1. injection Htn1 as <-.
    eapply IHcs in H as (Hle & Hfr2 & tn' & Htn' & Hpar & Hder); last first.
    { simpl. apply node_at_insert_eq. rewrite length_insert. lia. }
    simpl in *. rewrite !length_insert in *.
    split; [lia|]. split.
    + intros x Hx Hne. rewrite Hfr2 by lia.
      rewrite !list_lookup_insert_ne by lia. by apply Hfr.
    + exists tn'. by rewrite Hpar, Hder.
Qed.

Lemma clone_frame_holds fuel : clone_frame fuel.
Proof.
  induction fuel as [|fuel IH]; intros a s a' s' H; [done|].
  simpl in H. apply bind_inv in H as (other & s0 & Hl & H).
  apply load_node_inv in Hl as [-> Hother].
  assert (∃ m : M nat, m s = Ok (a', s') ∧
            m = bind (alloc (ONode {| _parent := None; _children := [];
                                      derived := AbstractBase |}))
                  (λ this, bind (for_each (_children other)
                                   (clone_child (clone fuel) this))
                    (λ _, bind (copy_derived (derived other))
                      (λ d, bind (load_node this)
                        (λ tn, bind (store this (ONode (set_derived tn d)))
                          (λ _, ret this))))))
    as (m & Hm & ->); [destruct (derived other); by eauto|].
  clear H. apply bind_inv in Hm as (this & s1 & Ha & H).
  injection Ha as <- <-.
  apply bind_inv in H as ([] & s2 & Hloop & H).
  eapply (clone_children_frame _ _ _ IH) in Hloop
    as (Hle & Hfr & tn' & Htn' & Hpar & _); last by apply node_at_app_new.
  simpl in *. rewrite length_app in *. simpl in *.
  apply bind_inv in H as (d & s3 & Hcopy & H).
  apply copy_derived_inv in Hcopy as [new Hext].
  apply bind_inv in H as (tn & s4 & Hl & H). apply load_node_inv in Hl as [-> Htn].
  apply bind_inv in H as ([] & s5 & Hs & H). apply store_inv in Hs as [-> Hlt].
  injection H as <- <-. simpl.
  rewrite Hext, node_at_app_old in Htn by lia.
  rewrite Htn' in Htn. injection Htn as <-.
  rewrite length_insert, Hext, length_app.
  split; [done|]. split; [lia|]. split.
  - intros x Hx. rewrite list_lookup_insert_ne by lia.
    rewrite lookup_app_l by lia. rewrite Hfr by lia. by rewrite lookup_app_l.
  - eexists. split; [apply node_at_insert_eq; rewrite length_app; lia|].
    done.
Qed.

(** ** How [clone] can fail *)

Lemma no_abort_bind {A B} (m : M A) (k : A → M B) s :
  no_abort (m s) → (∀ a s1, m s = Ok (a, s1) → no_abort (k a s1)) →
  no_abort (bind m k s).
Proof. unfold bind. destruct (m s) as [[a s1]| | | |]; auto. Qed.

Lemma no_abort_load a s : no_abort (load a s).
Proof. unfold load. by destruct (cell (heap s) a). Qed.

Lemma no_abort_load_node a s : no_abort (load_node a s).
Proof.
  unfold load_node. apply no_abort_bind; [apply no_abort_load|].
  intros [] s1 _; done.
Qed.

Lemma no_abort_store a o s : no_abort (store a o s).
Proof. unfold store. by destruct (cell (heap s) a). Qed.

Lemma no_abort_deref p s : no_abort (deref p s).
Proof. by destruct p. Qed.

Lemma no_abort_addChildToInternalVector this node s :
  no_abort (addChildToInternalVector this node s).
Proof.
  unfold addChildToInternalVector.
  apply no_abort_bind; [apply no_abort_deref|]. intros c s1 _.
  apply no_abort_bind; [apply no_abort_load_node|]. intros cn s2 _.
  apply no_abort_bind; [apply no_abort_store|]. intros [] s3 _.
  apply no_abort_bind; [apply no_abort_load_node|]. intros tn s4 _.
  apply no_abort_store.
Qed.

Lemma no_abort_copy_derived d s : no_abort (copy_derived d s).
Proof.
  destruct d; simpl; try done.
  - apply no_abort_bind.
    { unfold retain. by destruct (buffer_at (buffers s) _bson). }
    intros [] s1 _. apply no_abort_bind; [apply no_abort_deref|]. intros m s2 _.
    apply no_abort_bind; [|done].
    unfold shallowClone. apply no_abort_bind; [apply no_abort_load|].
    by intros [] s3 _.
  - apply no_abort_bind; [apply no_abort_deref|]. intros ea s1 _.
    apply no_abort_bind.
    { unfold load_expression. apply no_abort_bind; [apply no_abort_load|].
      by intros [] s2 _. }
    intros eo s2 _. apply no_abort_bind.
    { unfold load_context. apply no_abort_bind; [apply no_abort_load|].
      by intros [] s3 _. }
    intros vps s3 _. apply no_abort_bind; [|done].
    unfold parseOperand. destruct (parse _ vps) as [e|t] eqn:E; [|done].
    simpl. by eexists _, _.
Qed.

Lemma no_abort_clone fuel a s : no_abort (clone fuel a s).
Proof.
  revert a s. induction fuel as [|fuel IH]; intros a s; [done|].
  simpl. apply no_abort_bind; [apply no_abort_load_node|]. intros other s1 _.
  assert (no_abort
    (bind (alloc (ONode {| _parent := None; _children := []; derived := AbstractBase |}))
       (λ this, bind (for_each (_children other) (clone_child (clone fuel) this))
          (λ _, bind (copy_derived (derived other))
             (λ d, bind (load_node this)
                (λ tn, bind (store this (ONode (set_derived tn d)))
                   (λ _, ret this))))) s1)) as H; [|by destruct (derived other)].
  apply no_abort_bind; [done|]. intros this s2 _.
  apply no_abort_bind.
  { generalize (_children other). intros cs. revert s2.
    induction cs as [|c cs IHcs]; intros s2; [done|].
    simpl. apply no_abort_bind; [|intros [] s3 _; apply IHcs].
    unfold clone_child. apply no_abort_bind; [apply no_abort_deref|].
    intros ca s3 _. apply no_abort_bind; [apply IH|]. intros n s4 _.
    apply no_abort_addChildToInternalVector. }
  intros [] s3 _. apply no_abort_bind; [apply no_abort_copy_derived|].
  intros d s4 _. apply no_abort_bind; [apply no_abort_load_node|].
  intros tn s5 _. apply no_abort_bind; [apply no_abort_store|]. done.
Qed.

Lemma bind_ret {A B} (a : A) (k : A → M B) s : bind (ret a) k s = k a s.
Proof. done. Qed.

Lemma clone_expression_leaf s a par e ctx vps t fuel :
  expression_leaf s a par e ctx vps t →
  clone (S fuel) a s =
    match parse (serialized_operand t) vps with
    | inl err => Throw err
    | inr t' =>
        Ok (length (heap s),
            {| heap := <[length (heap s) :=
                           Some (ONode {| _parent := None; _children := [];
                                          derived := ExpressionASTNode
                                                       (Some (S (length (heap s)))) |})]>
                         ((heap s ++ [Some (ONode {| _parent := None; _children := [];
                                                     derived := AbstractBase |})])
                            ++ [Some (OExpression {| expCtx := ctx; tree := t' |})]);
               buffers := buffers s |})
    end.
Proof.
  intros (Hn & He & Hc). simpl.
  rewrite (bind_ok _ _ _ _ _ (load_node_ok _ _ _ Hn)). simpl.
  rewrite (bind_ok (alloc _) _ s _ _ eq_refl).
  rewrite bind_ret.
  pose proof (cell_lt _ _ _ He) as Hlte. pose proof (cell_lt _ _ _ Hc) as Hltc.
  rewrite bind_bind. rewrite bind_ret.
  rewrite bind_bind. unfold load_expression. rewrite bind_bind.
  erewrite bind_ok; last by (unfold load; simpl; rewrite cell_app_old, He).
  cbv beta iota. rewrite bind_ret. simpl.
  rewrite bind_bind. unfold load_context. rewrite bind_bind.
  erewrite bind_ok; last by (unfold load; simpl; rewrite cell_app_old, Hc).
  cbv beta iota. rewrite bind_ret.
  rewrite bind_bind. unfold parseOperand. fold (serialized_operand t).
  destruct (parse (serialized_operand t) vps) as [err|t']; [done|].
  rewrite (bind_ok (alloc _) _ _ _ _ eq_refl).
  rewrite bind_ret.
  erewrite bind_ok; last first.
  { apply load_node_ok. simpl. rewrite node_at_app_old by (rewrite length_app; simpl; lia).
    apply node_at_app_new. }
  erewrite bind_ok; last first.
  { eapply store_ok. simpl. rewrite cell_app_old by (rewrite length_app; simpl; lia).
    apply cell_app_new. }
  unfold ret. simpl. rewrite length_app. simpl.
  by replace (length (heap s) + 1) with (S (length (heap s))) by lia.
Qed.

(** ** The shape of a tree *)

Lemma label_of_derived_of p : label_of (derived_of p) = Some (payload_label p).
Proof. by destruct p. Qed.

Lemma shape_at_repr fuel h :
  ∀ t par, height t ≤ fuel → repr h par t → shape_at fuel h (root t) = Some (shape t).
Proof.
  induction fuel as [|fuel IH]; intros [a p kids] par Hh Hr.
  { simpl in Hh. lia. }
  inversion Hr as [? ? ? ? Hn Hp Hk]; subst.
  pose proof (height_kids _ _ _ _ Hh) as Hhk.
  simpl. rewrite Hn. simpl. rewrite label_of_derived_of. simpl.
  assert (mapM (λ c : option nat, c ≫= shape_at fuel h)
               (map (λ k, Some (root k)) kids) = Some (map shape kids)) as ->; [|done].
  apply mapM_Some. clear Hn Hr Hh.
  induction kids as [|k kids IHk]; simpl; [constructor|].
  apply Forall_cons in Hk as [Hk1 Hk2]. apply Forall_cons in Hhk as [Hh1 Hh2].
  constructor; [|by apply IHk]. simpl. by eapply IH.
Qed.

Lemma cloned_payload_label p p' : cloned_payload p p' → payload_label p' = payload_label p.
Proof.
  destruct p, p'; simpl; try done;
    [by intros -> | by intros [-> ->] | by intros ->].
Qed.

Lemma cloned_shape t : ∀ t', cloned t t' → shape t' = shape t.
Proof.
  induction t as [a p kids IH] using Tree_ind'.
  intros t' Hc. inversion Hc as [? ? ? a' p' kids' Hp Hk]; subst. simpl.
  rewrite (cloned_payload_label _ _ Hp). f_equal.
  clear Hc Hp. induction Hk as [|k k' kids kids' Hkk Hk IHk]; [done|].
  apply Forall_cons in IH as [IH1 IH2]. simpl.
  by rewrite (IH1 _ Hkk), (IHk IH2).
Qed.

Lemma cloned_height t : ∀ t', cloned t t' → height t' = height t.
Proof.
  induction t as [a p kids IH] using Tree_ind'.
  intros t' Hc. inversion Hc as [? ? ? a' p' kids' Hp Hk]; subst. simpl.
  f_equal. clear Hc Hp. induction Hk as [|k k' kids kids' Hkk Hk IHk]; [done|].
  apply Forall_cons in IH as [IH1 IH2]. simpl.
  by rewrite (IH1 _ Hkk), (IHk IH2).
Qed.

(** ** Reachability and independence *)

Lemma closed_out h b o c :
  closed h → cell h b = Some o → c ∈ out_pointers o → c < length h.
Proof.
  unfold closed, cell. intros Hcl Hb Hc.
  destruct (h !! b) as [[o'|]|] eqn:E; try done. injection Hb as ->.
  rewrite Forall_lookup in Hcl. specialize (Hcl _ _ E). simpl in Hcl.
  rewrite Forall_forall in Hcl. by apply Hcl.
Qed.

Lemma reach_below h h' n a x :
  closed h → length h = n → (∀ y, y < n → h' !! y = h !! y) →
  a < n → reach h' a x → x < n.
Proof.
  intros Hcl <- Hfr Ha Hreach. induction Hreach as [|b c o _ IH Hb Hc]; [done|].
  unfold cell in Hb. rewrite Hfr in Hb by done. by eapply closed_out.
Qed.

Lemma elem_of_option_list {A} (x : A) (o : option A) : x ∈ option_list o ↔ o = Some x.
Proof.
  destruct o as [y|]; simpl.
  - rewrite list_elem_of_singleton. naive_solver.
  - split; [by intros ?%elem_of_nil|done].
Qed.

Lemma derived_of_pointer p x :
  x ∈ match derived_of p with
      | MatchExpressionASTNode _ me => option_list me
      | ExpressionASTNode e => option_list e
      | _ => []
      end →
  x ∈ payload_owned p.
Proof.
  destruct p; simpl; try done.
Qed.

(** The objects of a tree in the store point into the tree, to its shared
    contexts, or to the parent of its root. *)
Lemma repr_out h t :
  ∀ par b o c,
    repr h par t → b ∈ owned t → cell h b = Some o → c ∈ out_pointers o →
    c ∈ owned t ∨ c ∈ shared t ∨ par = Some c.
Proof.
  induction t as [a p kids IH] using Tree_ind'.
  intros par b o c Hr Hb Ho Hc.
  inversion Hr as [? ? ? ? Hn Hp Hk]; subst.
  simpl in Hb. apply elem_of_cons in Hb as [->|Hb].
  - apply node_at_cell in Hn. rewrite Hn in Ho. injection Ho as <-.
    simpl in Hc. apply elem_of_app in Hc as [Hc|Hc].
    { right. right. by apply elem_of_option_list in Hc. }
    apply elem_of_app in Hc as [Hc|Hc].
    + left. apply list_elem_of_omap in Hc as (q & Hq & Hqc). simpl in Hqc. subst q.
      apply list_elem_of_fmap in Hq as (k & Hkc & Hin). injection Hkc as ->.
      eapply owned_kid; [done|]. destruct k. by left.
    + left. simpl. right. apply elem_of_app. left. by apply derived_of_pointer.
  - apply elem_of_app in Hb as [Hb|Hb].
    + destruct p; simpl in Hb; try by apply elem_of_nil in Hb.
      * apply list_elem_of_singleton in Hb as ->. simpl in Hp.
        rewrite Hp in Ho. injection Ho as <-. by apply elem_of_nil in Hc.
      * apply list_elem_of_singleton in Hb as ->. destruct Hp as [He _].
        rewrite He in Ho. injection Ho as <-. simpl in Hc.
        apply list_elem_of_singleton in Hc as ->. right. left. by left.
    + apply list_elem_of_bind in Hb as (k & Hb & Hin).
      rewrite Forall_forall in IH, Hk.
      destruct (IH k Hin (Some a) b o c (Hk k Hin) Hb Ho Hc) as [H|[H|H]].
      * left. by eapply owned_kid.
      * right. left. by eapply shared_kid.
      * injection H as ->. left. by left.
Qed.

Lemma reach_repr h t x :
  repr h None t → reach h (root t) x → x ∈ owned t ∨ x ∈ shared t.
Proof.
  intros Hr Hreach. induction Hreach as [|b c o _ IH Hb Hc].
  - left. destruct t. by left.
  - destruct IH as [IH|IH].
    + destruct (repr_out _ _ _ _ _ _ Hr IH Hb Hc) as [H|[H|H]]; auto. done.
    + destruct (repr_shared_context _ _ _ _ Hr IH) as [vps Hv].
      rewrite Hv in Hb. injection Hb as <-. by apply elem_of_nil in Hc.
Qed.

(** ** Match expressions and their buffers *)

Lemma MatchExpression_ind' (P : MatchExpression → Prop) :
  (∀ ty refs subs, Forall P subs → P (MatchNode ty refs subs)) → ∀ me, P me.
Proof.
  intros H. fix IH 1. intros [ty refs subs]. apply H.
  induction subs as [|k subs IHk]; constructor; [apply IH|apply IHk].
Qed.

Lemma mapM_map_ext {A B C} (f : B → option C) (f' : A → option C) (g : A → B) l :
  Forall (λ x, f (g x) = f' x) l → mapM f (map g l) = mapM f' l.
Proof. induction 1 as [|x l Hx _ IH]; simpl; [done|]. by rewrite Hx, IH. Qed.

Lemma mapM_ext_Forall {A B} (f f' : A → option B) l :
  Forall (λ x, f x = f' x) l → mapM f l = mapM f' l.
Proof. induction 1 as [|x l Hx _ IH]; simpl; [done|]. by rewrite Hx, IH. Qed.

Lemma read_ref_same_bytes bs bs' r r' sb sb' :
  buffer_at bs (ref_buf r) = Some sb → buffer_at bs' (ref_buf r') = Some sb' →
  bytes sb' = bytes sb → ref_off r' = ref_off r → ref_len r' = ref_len r →
  read_ref bs' r' = read_ref bs r.
Proof.
  intros Hb Hb' Hbytes Hoff Hlen. unfold read_ref.
  rewrite Hb, Hb'. simpl. by rewrite Hbytes, Hoff, Hlen.
Qed.

(** Resolution reads the bytes of the buffer and nothing else. *)
Lemma resolve_same_bytes bs bs' b sb sb' me :
  refs_into b me → buffer_at bs b = Some sb → buffer_at bs' b = Some sb' →
  bytes sb' = bytes sb → resolve bs' me = resolve bs me.
Proof.
  intros Hrefs Hb Hb' Hbytes. revert Hrefs. unfold refs_into.
  induction me as [ty refs subs IH] using MatchExpression_ind'.
  simpl. rewrite Forall_app, Forall_bind. intros [Hr Hs].
  rewrite (mapM_ext_Forall (read_ref bs') (read_ref bs) refs); last first.
  { eapply Forall_impl; [exact Hr|]. intros r Hrb. simpl in Hrb.
    eapply read_ref_same_bytes; rewrite ?Hrb; eauto. }
  rewrite (mapM_ext_Forall (resolve bs') (resolve bs) subs); [done|].
  rewrite Forall_forall in IH, Hs. apply Forall_forall. intros k Hk.
  apply IH; [done|]. by apply Hs.
Qed.

(** Re-targeting the references to a buffer with the same bytes changes
    nothing of what is read. *)
Lemma resolve_rebase bs bs' b b' sb sb' me :
  refs_into b me → buffer_at bs b = Some sb → buffer_at bs' b' = Some sb' →
  bytes sb' = bytes sb → resolve bs' (rebase b' me) = resolve bs me.
Proof.
  intros Hrefs Hb Hb' Hbytes. revert Hrefs. unfold refs_into.
  induction me as [ty refs subs IH] using MatchExpression_ind'.
  simpl. rewrite Forall_app, Forall_bind. intros [Hr Hs].
  rewrite (mapM_map_ext (read_ref bs') (read_ref bs) (rebase_ref b') refs); last first.
  { eapply Forall_impl; [exact Hr|]. intros r Hrb. simpl in Hrb.
    eapply read_ref_same_bytes; simpl; rewrite ?Hrb; eauto. }
  rewrite (mapM_map_ext (resolve bs') (resolve bs) (rebase b') subs); [done|].
  rewrite Forall_forall in IH, Hs. apply Forall_forall. intros k Hk.
  apply IH; [done|]. by apply Hs.
Qed.

Lemma observe_leaf s a par bson m me :
  match_expression_leaf s a par bson m me → observe s a = resolve (buffers s) me.
Proof. intros [Hn Hm]. unfold observe. rewrite Hn. simpl. by rewrite Hm. Qed.

Lemma leaf_distinct s a par bson m me :
  match_expression_leaf s a par bson m me →
  a ≠ m ∧ a < length (heap s) ∧ m < length (heap s).
Proof.
  intros [Hn Hm]. split; [|split].
  - intros ->. apply node_at_cell in Hn. congruence.
  - by eapply node_at_lt.
  - by eapply cell_lt.
Qed.

Lemma clone_match_expression_leaf s a par bson m me sb fuel :
  match_expression_leaf s a par bson m me →
  buffer_at (buffers s) bson = Some sb →
  clone (S fuel) a s =
    Ok (length (heap s),
        {| heap := <[length (heap s) :=
                       Some (ONode {| _parent := None; _children := [];
                                      derived := MatchExpressionASTNode bson
                                                   (Some (S (length (heap s)))) |})]>
                     ((heap s ++ [Some (ONode {| _parent := None; _children := [];
                                                 derived := AbstractBase |})])
                        ++ [Some (OMatchExpression me)]);
           buffers := <[bson := Some {| bytes := bytes sb; holders := S (holders sb) |}]>
                        (buffers s) |}).
Proof.
  intros Hleaf Hsb. destruct (leaf_distinct _ _ _ _ _ _ Hleaf) as (Hne & Hlta & Hltm).
  destruct Hleaf as [Hn Hm]. simpl.
  rewrite (bind_ok _ _ _ _ _ (load_node_ok _ _ _ Hn)). simpl.
  rewrite (bind_ok (alloc _) _ s _ _ eq_refl).
  rewrite bind_ret. rewrite bind_bind.
  erewrite bind_ok; last by (apply retain_ok; simpl; exact Hsb).
  cbv beta. rewrite bind_bind, bind_ret. rewrite bind_bind.
  unfold shallowClone. rewrite bind_bind.
  erewrite bind_ok; last by (unfold load; simpl; rewrite cell_app_old, Hm).
  cbv beta iota. rewrite (bind_ok (alloc _) _ _ _ _ eq_refl). rewrite bind_ret.
  erewrite bind_ok; last first.
  { apply load_node_ok. simpl. rewrite node_at_app_old by (rewrite length_app; simpl; lia).
    apply node_at_app_new. }
  erewrite bind_ok; last first.
  { eapply store_ok. simpl. rewrite cell_app_old by (rewrite length_app; simpl; lia).
    apply cell_app_new. }
  unfold ret. simpl. rewrite length_app. simpl.
  by replace (length (heap s) + 1) with (S (length (heap s))) by lia.
Qed.

Lemma destroy_match_expression_leaf s a par bson m me sb k fuel :
  match_expression_leaf s a par bson m me →
  buffer_at (buffers s) bson = Some sb → holders sb = S k →
  destroy (S fuel) a s =
    Ok (tt, {| heap := <[a := None]> (<[m := None]> (heap s));
               buffers := <[bson := match k with
                                    | 0 => None
                                    | S _ => Some {| bytes := bytes sb; holders := k |}
                                    end]> (buffers s) |}).
Proof.
  intros Hleaf Hsb Hk. destruct (leaf_distinct _ _ _ _ _ _ Hleaf) as (Hne & Hlta & Hltm).
  destruct Hleaf as [Hn Hm]. simpl.
  rewrite (bind_ok _ _ _ _ _ (load_node_ok _ _ _ Hn)). simpl.
  rewrite bind_bind.
  erewrite bind_ok; last by (unfold free; rewrite Hm).
  rewrite (bind_ok (release bson) _ _ tt
             {| heap := <[m := None]> (heap s);
                buffers := <[bson := match k with
                                     | 0 => None
                                     | S _ => Some {| bytes := bytes sb; holders := k |}
                                     end]> (buffers s) |}); last first.
  { unfold release. simpl. rewrite Hsb, Hk. by destruct k. }
  rewrite bind_ret. unfold free. simpl.
  rewrite cell_insert_ne by done. apply node_at_cell in Hn. by rewrite Hn.
Qed.

(** ** Parent and child links *)

(** Move construction leaves the children with the moved-from object as their
    parent, although the new object now owns them and the moved-from object
    lists no children. *)
Lemma move_construct_keeps_stale_parent fuel s a n names c cn :
  node_at (heap s) a = Some n → derived n = ProjectionPathASTNode names →
  Some c ∈ _children n →
  node_at (heap s) c = Some cn → _parent cn = Some a → a ≠ c →
  ∃ s' n' an',
    move_construct fuel a s = Ok (length (heap s), s') ∧
    node_at (heap s') (length (heap s)) = Some n' ∧ Some c ∈ children n' ∧
    node_at (heap s') c = Some cn ∧ parent cn = Some a ∧
    a ≠ length (heap s) ∧
    node_at (heap s') a = Some an' ∧ children an' = [].
Proof.
  intros Hn Hd Hin Hc Hp Hne. unfold move_construct.
  rewrite (bind_ok _ _ _ _ _ (load_node_ok _ _ _ Hn)). rewrite Hd.
  rewrite (bind_ok (alloc _) _ _ _ _ eq_refl).
  pose proof (node_at_lt _ _ _ Hn) as Hlta. pose proof (node_at_lt _ _ _ Hc) as Hltc.
  erewrite bind_ok; last first.
  { eapply store_ok. simpl. rewrite cell_app_old by done. by apply node_at_cell. }
  eexists _, _, _. split; [done|]. simpl.
  rewrite node_at_insert_ne by lia. rewrite node_at_app_new.
  split; [done|]. split; [done|].
  rewrite node_at_insert_ne by done. rewrite node_at_app_old by done.
  split; [done|]. split; [done|]. split; [lia|].
  rewrite node_at_insert_eq by (rewrite length_app; lia). done.
Qed.

(** ** Path nodes keep their two vectors aligned *)

Lemma addChild_aligned s this n names fieldName node u s' :
  node_at (heap s) this = Some n → derived n = ProjectionPathASTNode names →
  addChild this fieldName node s = Ok (u, s') →
  ∃ n', node_at (heap s') this = Some n' ∧
        derived n' = ProjectionPathASTNode (names ++ [fieldName]) ∧
        _children n' = _children n ++ [node].
Proof.
  intros Hn Hd H. unfold addChild in H.
  apply bind_inv in H as ([] & s1 & Hadd & H).
  apply addChildToInternalVector_inv in Hadd as (c & cn & tn & -> & Hc & Ht & ->).
  assert (_children tn = _children n ∧ derived tn = derived n) as [Hcs Hds].
  { destruct (decide (c = this)) as [->|Hne].
    - rewrite node_at_insert_eq in Ht by by eapply node_at_lt.
      injection Ht as <-. rewrite Hn in Hc. by injection Hc as <-.
    - rewrite node_at_insert_ne in Ht by done. rewrite Hn in Ht. by injection Ht as <-. }
  apply bind_inv in H as (n1 & s2 & Hl & H). apply load_node_inv in Hl as [-> Hn1].
  simpl in Hn1. rewrite node_at_insert_eq in Hn1; last first.
  { rewrite length_insert. by eapply node_at_lt. }
  injection Hn1 as <-. simpl in H. rewrite Hds, Hd in H.
  apply store_inv in H as [-> Hlt]. simpl in *.
  eexists. split; [by apply node_at_insert_eq|]. simpl. by rewrite Hcs.
Qed.

(** ** Copies of the single-child nodes *)

Lemma clone_single_child fuel s par a p c bson m me :
  p = PProjectionPositional ∨ p = PProjectionElemMatch →
  repr (heap s) par (TNode a p [TNode c (PMatchExpression bson m me) []]) →
  buffers_live (buffers s) [bson] → 2 ≤ fuel →
  ∃ s' c',
    clone fuel a s = Ok (length (heap s), s') ∧
    single_child_node (derived_of p) (Some c') (length (heap s)) s'.
Proof.
  intros Hp Hr Hl Hfuel.
  destruct (clone_correct fuel (TNode a p [TNode c (PMatchExpression bson m me) []])
              s par) as (s' & t' & Hc & Hroot & Hr' & Hcl & _).
  { simpl. lia. }
  { exact Hr. }
  { destruct Hp as [-> | ->]; exact Hl. }
  { constructor; [by destruct Hp as [-> | ->]|]. repeat constructor. }
  inversion Hcl as [? ? ? a' p' kids' Hcp Hk]; subst.
  inversion Hk as [|k k' ? ? Hkk Hk']; subst. inversion Hk'; subst.
  inversion Hkk as [? ? ? c' pc' kids'' Hcpc Hk'']; subst. inversion Hk''; subst.
  simpl in Hroot. subst a'.
  inversion Hr' as [? ? ? ? Hn _ Hkids]; subst.
  apply Forall_cons in Hkids as [Hkid _].
  inversion Hkid as [? ? ? ? Hnc _ _]; subst.
  exists s', c'. split; [done|].
  exists c'. eexists _, _. split; [done|]. split; [exact Hn|]. simpl.
  split. { destruct Hp as [-> | ->]; by destruct p'. }
  split; [done|]. split; [done|]. split; [exact Hnc|]. split; [|done].
  destruct pc'; simpl in Hcpc; try done. by eexists _, _.
Qed.

(** ** The constructors establish the links *)

Lemma node_not_shared h par t x n :
  repr h par t → node_at h x = Some n → x ∉ shared t.
Proof.
  intros Hr Hn Hx. destruct (repr_shared_context _ _ _ _ Hr Hx) as [vps Hc].
  apply node_at_cell in Hn. congruence.
Qed.

Lemma repr_root_node h par t :
  repr h par t → ∃ n, node_at h (root t) = Some n ∧ _parent n = par.
Proof. intros Hr. inversion Hr; subst. simpl. eauto. Qed.

Lemma root_owned t : root t ∈ owned t.
Proof. destruct t. by left. Qed.

Lemma adopt_child_ok this c cn s :
  node_at (heap s) c = Some cn →
  adopt_child this (Some c) s =
    Ok (tt, {| heap := <[c := Some (ONode (set_parent cn (Some this)))]> (heap s);
               buffers := buffers s |}).
Proof.
  intros Hc. unfold adopt_child, deref. rewrite bind_ret.
  rewrite (bind_ok _ _ _ _ _ (load_node_ok _ _ _ Hc)).
  eapply store_ok. by apply node_at_cell.
Qed.

(** The loop of the child-vector constructor over subtrees with pairwise
    distinct nodes: each becomes a subtree of [this]. *)
Lemma adopt_children_repr this :
  ∀ rest done s1,
    NoDup ((done ++ rest) ≫= owned) →
    this ∉ (done ++ rest) ≫= owned →
    (∃ n, node_at (heap s1) this = Some n) →
    Forall (repr (heap s1) (Some this)) done →
    Forall (repr (heap s1) None) rest →
    ∃ s2,
      for_each (map (λ k, Some (root k)) rest) (adopt_child this) s1 = Ok (tt, s2) ∧
      Forall (repr (heap s2) (Some this)) (done ++ rest) ∧
      cell (heap s2) this = cell (heap s1) this ∧
      buffers s2 = buffers s1.
Proof.
  induction rest as [|k rest IH]; intros done s1 Hnd Hthis Hn Hdone Hrest.
  - exists s1. rewrite app_nil_r. by repeat split.
  - apply Forall_cons in Hrest as [Hk Hrest].
    destruct (repr_root_node _ _ _ Hk) as (cn & Hcn & _).
    rewrite bind_app, bind_cons in Hnd, Hthis.
    apply NoDup_app in Hnd as (Hnd1 & Hdis1 & Hnd2).
    apply NoDup_app in Hnd2 as (Hndk & Hdis2 & Hnd3).
    assert (root k ≠ this) as Hne.
    { intros Heq. apply Hthis. rewrite <- Heq.
      apply elem_of_app. right. apply elem_of_app. left. apply root_owned. }
    assert (∀ k', k' ∈ done ++ rest → ∀ par, repr (heap s1) par k' →
              repr (<[root k := Some (ONode (set_parent cn (Some this)))]> (heap s1))
                   par k') as Hother.
    { intros k' Hin par Hr'. apply repr_insert_other; [| |done].
      - intros Hx. apply elem_of_app in Hin as [Hin|Hin].
        + eapply (Hdis1 (root k)).
          * apply list_elem_of_bind. by exists k'.
          * apply elem_of_app. left. apply root_owned.
        + eapply (Hdis2 (root k)); [apply root_owned|].
          apply list_elem_of_bind. by exists k'.
      - by eapply node_not_shared. }
    assert (((done ++ [k]) ++ rest) ≫= owned
            = (done ≫= owned) ++ owned k ++ (rest ≫= owned)) as Heq.
    { by rewrite <- app_assoc, bind_app. }
    destruct (IH (done ++ [k])
                {| heap := <[root k := Some (ONode (set_parent cn (Some this)))]> (heap s1);
                   buffers := buffers s1 |}) as (s2 & Hloop & Hall & Hcell & Hb).
    + rewrite Heq. apply NoDup_app. split; [done|]. split; [done|].
      by apply NoDup_app.
    + by rewrite Heq.
    + destruct Hn as [n Hn]. exists n. simpl. by rewrite node_at_insert_ne.
    + simpl. apply Forall_app. split.
      * rewrite Forall_forall in Hdone. apply Forall_forall. intros k' Hin.
        apply Hother; [|by apply Hdone]. apply elem_of_app. by left.
      * apply Forall_singleton. by apply (repr_set_parent _ None).
    + simpl. rewrite Forall_forall in Hrest. apply Forall_forall. intros k' Hin.
      apply Hother; [|by apply Hrest]. apply elem_of_app. by right.
    + exists s2. split; [|split; [|split]].
      * simpl. rewrite (bind_ok _ _ _ _ _ (adopt_child_ok this _ _ _ Hcn)).
        exact Hloop.
      * by rewrite <- app_assoc in Hall.
      * rewrite Hcell. simpl. by rewrite cell_insert_ne.
      * by rewrite Hb.
Qed.

(** The child-vector constructor of a path node, on subtrees with pairwise
    distinct nodes and as many names: a tree with consistent links. *)
Lemma new_ProjectionPathASTNode_repr kids names s :
  Forall (repr (heap s) None) kids → NoDup (kids ≫= owned) →
  length names = length kids →
  ∃ s',
    new_ProjectionPathASTNode (map (λ k, Some (root k)) kids) names s
      = Ok (length (heap s), s') ∧
    repr (heap s') None (TNode (length (heap s)) (PProjectionPath names) kids) ∧
    NoDup (owned (TNode (length (heap s)) (PProjectionPath names) kids)).
Proof.
  intros Hkids Hnd Hlen.
  set (this := length (heap s)).
  set (n0 := {| _parent := None; _children := map (λ k, Some (root k)) kids;
                derived := AbstractBase |}).
  set (s0 := {| heap := heap s ++ [Some (ONode n0)]; buffers := buffers s |}).
  assert (∀ x, x ∈ kids ≫= owned → x < this) as Hlt.
  { intros x (k & Hx & Hin)%list_elem_of_bind. rewrite Forall_forall in Hkids.
    destruct (repr_lt _ _ _ (Hkids k Hin)) as [Ho _]. rewrite Forall_forall in Ho.
    by apply Ho. }
  assert (∀ x, x ∈ kids ≫= shared → x < this) as Hslt.
  { intros x (k & Hx & Hin)%list_elem_of_bind. rewrite Forall_forall in Hkids.
    destruct (repr_lt _ _ _ (Hkids k Hin)) as [_ Hs]. rewrite Forall_forall in Hs.
    by apply Hs. }
  destruct (adopt_children_repr this kids [] s0) as (s1 & Hloop & Hall & Hcell & Hb).
  - done.
  - intros Hx. apply Hlt in Hx. lia.
  - exists n0. apply node_at_app_new.
  - constructor.
  - eapply Forall_impl; [exact Hkids|]. intros k Hk.
    eapply repr_agree_below; [|exact Hk]. intros x Hx. simpl. by rewrite lookup_app_l.
  - simpl in Hall. assert (node_at (heap s1) this = Some n0) as Hn1.
    { unfold node_at. rewrite Hcell. apply node_at_app_new. }
    eexists. split; [|split].
    + unfold new_ProjectionPathASTNode. rewrite (bind_ok (alloc _) _ s this s0 eq_refl).
      unfold adopt_children. rewrite bind_bind.
      erewrite bind_ok; last by (apply load_node_ok, node_at_app_new).
      rewrite (bind_ok _ _ _ _ _ Hloop).
      rewrite (bind_ok _ _ _ _ _ (load_node_ok _ _ _ Hn1)).
      erewrite bind_ok; last by (eapply store_ok; apply node_at_cell).
      simpl. rewrite length_map, <- Hlen, Nat.eqb_refl. reflexivity.
    + constructor; simpl.
      * rewrite node_at_insert_eq by by eapply node_at_lt. done.
      * done.
      * rewrite Forall_forall in Hall. apply Forall_forall. intros k Hin.
        apply repr_insert_other; [| |by apply Hall].
        -- intros Hx. assert (this < this); [|lia].
           apply Hlt, list_elem_of_bind. by exists k.
        -- intros Hx. assert (this < this); [|lia].
           apply Hslt, list_elem_of_bind. by exists k.
    + simpl. apply NoDup_cons. split; [|done].
      intros Hx. apply Hlt in Hx. lia.
Qed.

(** [addChild] of a subtree with nodes of its own to a path node: the
    subtree becomes the last subtree of the node, under the new name. *)
Lemma addChild_repr s par this names kids k fieldName :
  repr (heap s) par (TNode this (PProjectionPath names) kids) →
  repr (heap s) None k →
  NoDup (owned (TNode this (PProjectionPath names) kids) ++ owned k) →
  ∃ s',
    addChild this fieldName (Some (root k)) s = Ok (tt, s') ∧
    repr (heap s') par
      (TNode this (PProjectionPath (names ++ [fieldName])) (kids ++ [k])) ∧
    NoDup (owned (TNode this (PProjectionPath (names ++ [fieldName])) (kids ++ [k]))).
Proof.
  intros Hr Hk Hnd. pose proof Hr as Hr0.
  inversion Hr as [? ? ? ? Hn _ Hkids]; subst.
  destruct (repr_root_node _ _ _ Hk) as (cn & Hcn & _).
  apply NoDup_app in Hnd as (Hndt & Hdis & Hndk).
  assert (this ≠ root k) as Hne.
  { intros Heq. apply (Hdis this); [by left|]. rewrite Heq. apply root_owned. }
  pose proof Hndt as Hndt0. simpl in Hndt. apply NoDup_cons in Hndt as [Hthis Hndkids].
  set (tn := {| _parent := par; _children := map (λ k0, Some (root k0)) kids;
                derived := ProjectionPathASTNode names |}) in *.
  eexists. split; [|split].
  - unfold addChild.
    rewrite (bind_ok _ _ _ _ _ (addChildToInternalVector_ok _ _ _ _ _ Hcn Hn Hne)).
    erewrite bind_ok; last first.
    { apply load_node_ok. simpl. apply node_at_insert_eq.
      rewrite length_insert. by eapply node_at_lt. }
    simpl. eapply store_ok. simpl. rewrite cell_insert_eq; [done|].
    rewrite length_insert. by eapply node_at_lt.
  - simpl. rewrite list_insert_insert_eq. constructor.
    + rewrite node_at_insert_eq; last (rewrite length_insert; by eapply node_at_lt).
      unfold set_derived, set_children. simpl. by rewrite map_app.
    + done.
    + apply Forall_app. split.
      * rewrite Forall_forall in Hkids. apply Forall_forall. intros k' Hin.
        apply repr_insert_other.
        { intros Hx. apply Hthis. apply list_elem_of_bind. by exists k'. }
        { by eapply node_not_shared; [apply Hkids|]. }
        apply repr_insert_other; [| |by apply Hkids].
        { intros Hx. apply (Hdis (root k)); [|apply root_owned].
          by eapply owned_kid. }
        { by eapply node_not_shared; [apply Hkids|]. }
      * apply Forall_singleton. apply repr_insert_other.
        { intros Hx. apply (Hdis this); [by left|done]. }
        { by eapply node_not_shared. }
        by apply (repr_set_parent _ None).
  - simpl. rewrite bind_app, bind_singleton. apply NoDup_cons. split.
    + intros [Hx|Hx]%elem_of_app; [done|]. apply (Hdis this); [by left|done].
    + apply NoDup_app. split; [done|]. split; [|done].
      intros x Hx Hx'. apply (Hdis x); [by right|done].
Qed.

(** * The claims *)

(** C1. Constructing a [ProjectionPathASTNode] from a child vector and a
    field-name vector of different lengths never yields a node: the
    [invariant] aborts (or a null or dangling child is dereferenced first), and
    it aborts whenever the children are live nodes.  A node that the
    constructor returns, and a node after [addChild], has as many field names
    as children.  On a path node whose two vectors have the same length,
    [getChild(name)] returns the child stored at the first index whose field
    name equals [name], and a null pointer when no field name matches;
    duplicates are tolerated, the first match wins.  On a path node whose
    vectors differ in length [getChild] aborts. *)
Theorem C1_path_constructor_and_getChild :
  (∀ children names s,
     length children ≠ length names →
     (new_ProjectionPathASTNode children names s = Abort ∨
      new_ProjectionPathASTNode children names s = Fault) ∧
     (Forall (live_node (heap s)) children →
      new_ProjectionPathASTNode children names s = Abort)) ∧
  (∀ children names s this s',
     new_ProjectionPathASTNode children names s = Ok (this, s') →
     ∃ n, node_at (heap s') this = Some n ∧
          derived n = ProjectionPathASTNode names ∧ _children n = children ∧
          length names = length children) ∧
  (∀ s this n names fieldName node u s',
     node_at (heap s) this = Some n → derived n = ProjectionPathASTNode names →
     addChild this fieldName node s = Ok (u, s') →
     ∃ n', node_at (heap s') this = Some n' ∧
           derived n' = ProjectionPathASTNode (names ++ [fieldName]) ∧
           _children n' = _children n ++ [node]) ∧
  (∀ s this n names fieldName,
     node_at (heap s) this = Some n →
     derived n = ProjectionPathASTNode names →
     length names = length (_children n) →
     ∃ r, getChild this fieldName s = Ok (r, s) ∧
       ((∃ i, names !! i = Some fieldName ∧
              (∀ j, j < i → names !! j ≠ Some fieldName) ∧
              _children n !! i = Some r)
        ∨ ((fieldName ∉ names) ∧ r = None))) ∧
  (∀ s this n names fieldName,
     node_at (heap s) this = Some n →
     derived n = ProjectionPathASTNode names →
     length names ≠ length (_children n) →
     getChild this fieldName s = Abort).
Proof.
  split; [|split; [|split; [|split]]].
  - intros children names s Hne.
    assert ((length children =? length names) = false) as Hb
      by by apply Nat.eqb_neq.
    destruct (new_ProjectionPathASTNode_outcome children names s)
      as [E|(s1 & n' & _ & _ & _ & _ & E)].
    + split; [by right|]. intros Hl. exfalso. revert E.
      unfold new_ProjectionPathASTNode.
      rewrite (bind_ok _ _ s _ _ eq_refl). unfold adopt_children.
      rewrite bind_bind.
      erewrite bind_ok; last by (apply load_node_ok, node_at_app_new).
      simpl _children.
      match goal with |- bind (for_each ?cs ?f) ?k ?s0 = _ → _ =>
        destruct (adopt_loop_outcome (length (heap s)) cs s0) as [E|(s1 & E & Hp & _)] end.
      * exfalso. revert E. apply adopt_loop_live. simpl.
        eapply Forall_impl; [exact Hl|]. intros p (a & n & -> & Hn).
        exists a, n. split; [done|]. rewrite node_at_app_old; [done|].
        by eapply node_at_lt.
      * rewrite (bind_ok _ _ _ _ _ E).
        destruct (parents_only_node _ _ _ _ Hp (node_at_app_new _ _))
          as (n' & E1 & Hc & _).
        rewrite (bind_ok _ _ _ _ _ (load_node_ok _ _ _ E1)).
        erewrite bind_ok; last by (eapply store_ok; apply node_at_cell).
        rewrite Hc. simpl. rewrite Hb. done.
    + rewrite Hb in E. split; [by left|done].
  - intros children names s this s' H.
    destruct (new_ProjectionPathASTNode_outcome children names s)
      as [E|(s1 & n' & _ & _ & Hn' & Hc & E)]; [congruence|].
    rewrite H in E. destruct (length children =? length names) eqn:Hb; [|done].
    injection E as -> ->. simpl. eexists. split.
    + apply node_at_insert_eq. by eapply node_at_lt.
    + simpl. split; [done|]. split; [done|]. symmetry. by apply Nat.eqb_eq.
  - intros s this n names fieldName node u s'. apply addChild_aligned.
  - intros s this n names fieldName Hn Hd Hlen. unfold getChild.
    rewrite (bind_ok _ _ _ _ _ (load_node_ok _ _ _ Hn)). rewrite Hd.
    assert ((length names =? length (_children n)) = true) as Hb
      by by apply Nat.eqb_eq.
    rewrite (bind_ok _ _ s tt s) by (unfold invariant; by rewrite Hb).
    apply getChild_loop_spec; [done|lia|]. intros j Hj. lia.
  - intros s this n names fieldName Hn Hd Hlen. unfold getChild.
    rewrite (bind_ok _ _ _ _ _ (load_node_ok _ _ _ Hn)). rewrite Hd.
    apply bind_abort. unfold invariant.
    by destruct (Nat.eqb_spec (length names) (length (_children n))).
Qed.

(** C2. For [ProjectionPositionalASTNode] and [ProjectionElemMatchASTNode]: the
    constructor takes one pointer whose static type admits a
    [MatchExpressionASTNode] only; with a null pointer it aborts; otherwise it
    returns a node with exactly one child, that [MatchExpressionASTNode],
    linked back to the new node; no other outcome exists.  The copy that
    [clone] makes of such a node has exactly one child as well, a
    [MatchExpressionASTNode] linked back to the copy. *)
Theorem C2_single_match_expression_child :
  (∀ child s,
     MatchExpressionASTNode_ptr (heap s) child →
     match new_ProjectionPositionalASTNode child s with
     | Ok (this, s') => single_child_node ProjectionPositionalASTNode child this s'
     | Abort => child = None
     | _ => False
     end ∧
     match new_ProjectionElemMatchASTNode child s with
     | Ok (this, s') => single_child_node ProjectionElemMatchASTNode child this s'
     | Abort => child = None
     | _ => False
     end ∧
     (child = None →
      new_ProjectionPositionalASTNode child s = Abort ∧
      new_ProjectionElemMatchASTNode child s = Abort)) ∧
  (∀ fuel s par a p c bson m me,
     p = PProjectionPositional ∨ p = PProjectionElemMatch →
     repr (heap s) par (TNode a p [TNode c (PMatchExpression bson m me) []]) →
     buffers_live (buffers s) [bson] → 2 ≤ fuel →
     ∃ s' c',
       clone fuel a s = Ok (length (heap s), s') ∧
       single_child_node (derived_of p) (Some c') (length (heap s)) s').
Proof.
  split.
  - intros child s Hty. split; [|split].
    + by apply (single_child_ctor ProjectionPositionalASTNode).
    + by apply (single_child_ctor ProjectionElemMatchASTNode).
    + by intros ->.
  - apply clone_single_child.
Qed.

(** C3. The clone of a tree has the shape of the tree: read off the store from
    the two roots, the same classes, the same numbers of children in the same
    order, the same field names on path nodes, the same [skip], [limit] and
    boolean values. *)
Theorem C3_clone_preserves_shape :
  ∀ fuel t s par,
    height t ≤ fuel → repr (heap s) par t →
    buffers_live (buffers s) (tree_buffers t) → reparses t →
    ∃ s' sh,
      clone fuel (root t) s = Ok (length (heap s), s') ∧
      shape_at fuel (heap s) (root t) = Some sh ∧
      shape_at fuel (heap s') (root t) = Some sh ∧
      shape_at fuel (heap s') (length (heap s)) = Some sh.
Proof.
  intros fuel t s par Hh Hr Hl Hre.
  destruct (clone_correct fuel t s par Hh Hr Hl Hre)
    as (s' & t' & Hc & Hroot & Hr' & Hcl & _ & _ & Hfr & _).
  exists s', (shape t). split; [done|].
  split; [by eapply shape_at_repr|]. split.
  - eapply shape_at_repr; [done|]. eapply repr_agree_below; [|exact Hr]. done.
  - rewrite <- Hroot, <- (cloned_shape _ _ Hcl).
    eapply shape_at_repr; [|exact Hr']. by rewrite (cloned_height _ _ Hcl).
Qed.

(** C4 (amended). After [clone], overwriting any object reachable from the
    clone, other than an expression context, changes no object reachable from
    the original, and the other way round; the buffers keep their bytes.
    What the two trees share is the immutable buffers of match-expression
    nodes and the expression contexts of expression nodes. *)
Theorem C4_clone_independent_but_for_buffers_and_contexts :
  ∀ fuel t s par,
    height t ≤ fuel → repr (heap s) par t →
    buffers_live (buffers s) (tree_buffers t) → reparses t →
    closed (heap s) →
    ∃ s',
      clone fuel (root t) s = Ok (length (heap s), s') ∧
      independent (is_context (heap s')) (heap s') (root t) (length (heap s)) ∧
      (∀ b sb, buffer_at (buffers s) b = Some sb →
               ∃ sb', buffer_at (buffers s') b = Some sb' ∧ bytes sb' = bytes sb).
Proof.
  intros fuel t s par Hh Hr Hl Hre Hcl.
  destruct (clone_correct fuel t s par Hh Hr Hl Hre)
    as (s' & t' & Hc & Hroot & Hr' & Hcld & Hrange & _ & Hfr & Hbuf).
  exists s'. split; [done|]. split.
  - assert (root t < length (heap s)) as Hlt.
    { destruct t. inversion Hr; subst. by eapply node_at_lt. }
    rewrite Forall_forall in Hrange.
    assert (∀ x, reach (heap s') (length (heap s)) x →
                 length (heap s) ≤ x ∨ is_context (heap s') x) as Hnew.
    { intros x Hx. rewrite <- Hroot in Hx.
      destruct (reach_repr _ _ _ Hr' Hx) as [Ho|Hs].
      - left. apply Hrange in Ho. lia.
      - right. by eapply repr_shared_context. }
    assert (∀ y, reach (heap s') (root t) y → y < length (heap s)) as Hold.
    { intros y Hy. by eapply reach_below. }
    intros x y v Hex [[Hx Hy]|[Hx Hy]]; apply list_lookup_insert_ne.
    + apply Hnew in Hx as [Hx|Hx]; [|done]. apply Hold in Hy. lia.
    + apply Hold in Hx. apply Hnew in Hy as [Hy|Hy]; [lia|].
      intros ->. done.
  - intros b sb Hb. destruct Hbuf as [_ Hbuf]. specialize (Hbuf b).
    rewrite Hb in Hbuf. destruct Hbuf as (sb' & ? & ? & _). by exists sb'.
Qed.

(** C5. Cloning a [MatchExpressionASTNode] keeps the buffer handle of the
    original, so the same bytes with one more holder and no new buffer, and
    gives the copy a predicate tree of its own with the references of the
    original.  To an observer of the predicate the copy is the deep clone,
    with a buffer of its own, that the spec compares it with: both read what
    the original reads, also after the original has been destroyed. *)
Theorem C5_shallow_clone_with_buffer_is_deep_clone :
  ∀ s a par bson m me sb fuel,
    match_expression_leaf s a par bson m me →
    buffer_at (buffers s) bson = Some sb → 0 < holders sb →
    refs_into bson me →
    ∃ s1 s2 a2 s1' s2',
      clone (S fuel) a s = Ok (length (heap s), s1) ∧
      match_expression_leaf s1 (length (heap s)) None bson (S (length (heap s))) me ∧
      buffers s1 = <[bson := Some {| bytes := bytes sb; holders := S (holders sb) |}]>
                     (buffers s) ∧
      deep_clone_MatchExpressionASTNode a s = Ok (a2, s2) ∧
      observe s1 (length (heap s)) = observe s a ∧
      observe s2 a2 = observe s a ∧
      destroy (S fuel) a s1 = Ok (tt, s1') ∧
      destroy (S fuel) a s2 = Ok (tt, s2') ∧
      observe s1' (length (heap s)) = observe s a ∧
      observe s2' a2 = observe s a.
Proof.
  intros s a par bson m me sb fuel Hleaf Hsb Hpos Hrefs.
  destruct (leaf_distinct _ _ _ _ _ _ Hleaf) as (Hne & Hlta & Hltm).
  pose proof (buffer_at_lt _ _ _ Hsb) as Hltb.
  pose proof Hleaf as [Hn Hm].
  destruct (holders sb) as [|k] eqn:Hk; [lia|].
  set (lo := length (heap s)).
  set (h1 := <[lo := Some (ONode {| _parent := None; _children := [];
                                    derived := MatchExpressionASTNode bson (Some (S lo)) |})]>
               ((heap s ++ [Some (ONode {| _parent := None; _children := [];
                                           derived := AbstractBase |})])
                  ++ [Some (OMatchExpression me)])).
  set (s1 := {| heap := h1;
                buffers := <[bson := Some {| bytes := bytes sb; holders := S (S k) |}]>
                             (buffers s) |}).
  set (b' := length (buffers s)).
  set (s2 := {| heap := (heap s ++ [Some (OMatchExpression (rebase b' me))])
                          ++ [Some (ONode {| _parent := None; _children := [];
                                             derived := MatchExpressionASTNode b' (Some lo) |})];
                buffers := buffers s ++ [Some {| bytes := bytes sb; holders := 1 |}] |}).
  assert (match_expression_leaf s1 lo None bson (S lo) me) as Hleaf1.
  { split; simpl; unfold h1.
    - apply node_at_insert_eq. rewrite !length_app. simpl. lia.
    - rewrite cell_insert_ne by lia.
      replace (S lo) with (length (heap s ++ [Some (ONode {| _parent := None;
                 _children := []; derived := AbstractBase |})]))
        by (rewrite length_app; simpl; lia).
      apply cell_app_new. }
  assert (match_expression_leaf s1 a par bson m me) as Hold1.
  { split; simpl; unfold h1, node_at.
    - rewrite cell_insert_ne by lia. rewrite <- app_assoc, cell_app_old by done. exact Hn.
    - rewrite cell_insert_ne by lia. by rewrite <- app_assoc, cell_app_old. }
  assert (match_expression_leaf s2 (S lo) None b' lo (rebase b' me)) as Hleaf2.
  { split; simpl.
    - replace (S lo) with (length (heap s ++ [Some (OMatchExpression (rebase b' me))]))
        by (rewrite length_app; simpl; lia).
      apply node_at_app_new.
    - rewrite cell_app_old by (rewrite length_app; simpl; lia). apply cell_app_new. }
  assert (match_expression_leaf s2 a par bson m me) as Hold2.
  { split; simpl; unfold node_at.
    - rewrite <- app_assoc, cell_app_old by done. exact Hn.
    - by rewrite <- app_assoc, cell_app_old. }
  assert (buffer_at (buffers s1) bson =
            Some {| bytes := bytes sb; holders := S (S k) |}) as Hb1
    by (simpl; by rewrite buffer_at_insert_eq).
  assert (buffer_at (buffers s2) bson = Some sb) as Hb2.
  { simpl. unfold buffer_at. rewrite lookup_app_l by done. exact Hsb. }
  assert (buffer_at (buffers s2) b' = Some {| bytes := bytes sb; holders := 1 |}) as Hb2'.
  { simpl. unfold buffer_at, b'. by rewrite list_lookup_middle. }
  eexists s1, s2, (S lo), _, _.
  split. { rewrite (clone_match_expression_leaf _ _ _ _ _ _ _ fuel Hleaf Hsb).
           by rewrite Hk. }
  split; [exact Hleaf1|]. split; [done|].
  split.
  { unfold deep_clone_MatchExpressionASTNode.
    rewrite (bind_ok _ _ _ _ _ (load_node_ok _ _ _ Hn)). simpl.
    erewrite bind_ok; last by (unfold load; rewrite Hm). cbv beta iota.
    erewrite bind_ok; last by (unfold copy_buffer; rewrite Hsb).
    rewrite (bind_ok (alloc _) _ _ _ _ eq_refl). unfold alloc. simpl.
    rewrite length_app. simpl. fold lo.
    by replace (lo + 1) with (S lo) by lia. }
  rewrite (observe_leaf _ _ _ _ _ _ Hleaf).
  split.
  { rewrite (observe_leaf _ _ _ _ _ _ Hleaf1).
    by eapply resolve_same_bytes. }
  split.
  { rewrite (observe_leaf _ _ _ _ _ _ Hleaf2).
    by eapply resolve_rebase. }
  split. { by eapply destroy_match_expression_leaf. }
  split. { by eapply destroy_match_expression_leaf. }
  split.
  - erewrite observe_leaf; last first.
    { destruct Hleaf1 as [Hn1 Hm1]. split; simpl.
      - rewrite !node_at_insert_ne by lia. exact Hn1.
      - rewrite !cell_insert_ne by lia. exact Hm1. }
    simpl.
    eapply (resolve_same_bytes _ _ bson sb {| bytes := bytes sb; holders := S k |});
      [done|done| |done].
    rewrite list_insert_insert_eq. by rewrite buffer_at_insert_eq.
  - erewrite observe_leaf; last first.
    { destruct Hleaf2 as [Hn2 Hm2]. split; simpl.
      - rewrite !node_at_insert_ne by lia. exact Hn2.
      - rewrite !cell_insert_ne by lia. exact Hm2. }
    simpl.
    eapply (resolve_rebase _ _ bson b' sb {| bytes := bytes sb; holders := 1 |});
      [done|done| |done].
    rewrite buffer_at_insert_ne by (unfold b'; lia). exact Hb2'.
Qed.

(** C6. The copy of a childless [ExpressionASTNode] holds the expression
    obtained by serializing the original one ([serialize(false)], wrapped as
    an element with an empty name) and parsing the result under the
    expression context of the original and the scope of that context; the new
    expression keeps that same context.  The original node and its expression
    are left as they were.  Whenever parsing the serialized form gives the
    expression back, the copy holds an expression equal to the original. *)
Theorem C6_expression_clone_reparses :
  ∀ s a par e ctx vps t fuel t',
    expression_leaf s a par e ctx vps t →
    parse (serialized_operand t) vps = inr t' →
    ∃ s',
      clone (S fuel) a s = Ok (length (heap s), s') ∧
      expression_leaf s' (length (heap s)) None (S (length (heap s))) ctx vps t' ∧
      expression_leaf s' a par e ctx vps t ∧
      (parse (serialized_operand t) vps = inr t →
       expression_leaf s' (length (heap s)) None (S (length (heap s))) ctx vps t).
Proof.
  intros s a par e ctx vps t fuel t' Hleaf Hparse.
  rewrite (clone_expression_leaf _ _ _ _ _ _ _ fuel Hleaf), Hparse.
  eexists. split; [done|].
  destruct Hleaf as (Hn & He & Hc).
  pose proof (node_at_lt _ _ _ Hn) as Hlta.
  pose proof (cell_lt _ _ _ He) as Hlte. pose proof (cell_lt _ _ _ Hc) as Hltc.
  assert (expression_leaf
            {| heap := <[length (heap s) :=
                           Some (ONode {| _parent := None; _children := [];
                                          derived := ExpressionASTNode
                                                       (Some (S (length (heap s)))) |})]>
                         ((heap s ++ [Some (ONode {| _parent := None; _children := [];
                                                     derived := AbstractBase |})])
                            ++ [Some (OExpression {| expCtx := ctx; tree := t' |})]);
               buffers := buffers s |}
            (length (heap s)) None (S (length (heap s))) ctx vps t') as Hnew.
  { unfold expression_leaf. simpl. split; [|split].
    - apply node_at_insert_eq. rewrite !length_app. simpl. lia.
    - rewrite cell_insert_ne by lia.
      replace (S (length (heap s)))
        with (length (heap s ++ [Some (ONode {| _parent := None; _children := [];
                                                derived := AbstractBase |})]))
        by (rewrite length_app; simpl; lia).
      apply cell_app_new.
    - rewrite cell_insert_ne by lia.
      rewrite <- app_assoc. by rewrite cell_app_old. }
  split; [exact Hnew|]. split.
  - unfold expression_leaf, node_at. simpl.
    rewrite !cell_insert_ne by lia. rewrite <- app_assoc.
    rewrite !cell_app_old by done. done.
  - intros [= <-]. exact Hnew.
Qed.

(** C7. When parsing the serialized expression of an [ExpressionASTNode]
    fails, [clone] of the node ends with the parser's exception, which the
    caller can catch and inspect; [clone] of a tree with an expression that
    does not re-parse ends with an exception as well.  On no node and no
    store does [clone] end in a process abort, and every exception that
    leaves [clone] is an exception of the expression parser. *)
Theorem C7_reparse_failure_is_thrown :
  (∀ s a par e ctx vps t fuel err,
     expression_leaf s a par e ctx vps t →
     parse (serialized_operand t) vps = inl err →
     clone (S fuel) a s = Throw err) ∧
  (∀ fuel t s par,
     height t ≤ fuel → repr (heap s) par t →
     buffers_live (buffers s) (tree_buffers t) → ¬ reparses t →
     ∃ err, clone fuel (root t) s = Throw err ∧ parse_error err) ∧
  (∀ fuel a s, clone fuel a s ≠ Abort) ∧
  (∀ fuel a s err, clone fuel a s = Throw err → parse_error err).
Proof.
  assert (∀ fuel a s err, clone fuel a s = Throw err → parse_error err) as Hpe.
  { intros fuel a s err H. pose proof (no_abort_clone fuel a s) as Hn.
    by rewrite H in Hn. }
  split; [|split; [|split]].
  - intros s a par e ctx vps t fuel err Hleaf Hparse.
    by rewrite (clone_expression_leaf _ _ _ _ _ _ _ fuel Hleaf), Hparse.
  - intros fuel t s par Hh Hr Hl Hnre.
    destruct (clone_throws fuel t s par Hh Hr Hl Hnre) as [err Herr].
    exists err. split; [done|]. by eapply Hpe.
  - intros fuel a s H. pose proof (no_abort_clone fuel a s) as Hn.
    by rewrite H in Hn.
  - exact Hpe.
Qed.

(** C8. On a node of any of the seven concrete classes, [acceptVisitor] is the
    call of the visitor's overload for that class on the node itself, for
    every visitor; a visitor that records its calls sees exactly one call, of
    that overload, with that node. *)
Theorem C8_acceptVisitor_dispatch :
  ∀ s this n k,
    node_at (heap s) this = Some n →
    kind_of (derived n) = Some k →
    (∀ V (visitor : ProjectionASTVisitor V) v,
       acceptVisitor visitor this v s = visit_of k visitor this v s) ∧
    (∀ log, acceptVisitor recorder this log s = Ok (log ++ [(k, this)], s)).
Proof.
  intros s this n k Hn Hk.
  assert (∀ V (visitor : ProjectionASTVisitor V) v,
            acceptVisitor visitor this v s = visit_of k visitor this v s) as H.
  { intros V visitor v. unfold acceptVisitor.
    rewrite (bind_ok _ _ _ _ _ (load_node_ok _ _ _ Hn)).
    destruct (derived n); simpl in Hk; try discriminate;
      injection Hk as <-; reflexivity. }
  split; [exact H|]. intros log. rewrite H. by destruct k.
Qed.

(** C10. The node that [clone] returns has a null parent pointer, and
    [isRoot()] is true on it, whatever the parent of the cloned node was; for
    a tree in the store, interior or not, [clone] does return.  The parent
    link appears when a node adopts the clone. *)
Theorem C10_clone_is_root :
  (∀ fuel a s a' s',
     clone fuel a s = Ok (a', s') →
     ∃ n, node_at (heap s') a' = Some n ∧ parent n = None ∧ isRoot n = true) ∧
  (∀ fuel t s par,
     height t ≤ fuel → repr (heap s) par t →
     buffers_live (buffers s) (tree_buffers t) → reparses t →
     ∃ s' n, clone fuel (root t) s = Ok (length (heap s), s') ∧
             node_at (heap s') (length (heap s)) = Some n ∧
             parent n = None ∧ isRoot n = true) ∧
  (∀ s this c cn tn,
     node_at (heap s) c = Some cn → node_at (heap s) this = Some tn → this ≠ c →
     ∃ s' cn', addChildToInternalVector this (Some c) s = Ok (tt, s') ∧
               node_at (heap s') c = Some cn' ∧ parent cn' = Some this).
Proof.
  split; [|split].
  - intros fuel a s a' s' H.
    apply clone_frame_holds in H as (_ & _ & _ & n & Hn & Hp).
    exists n. unfold parent, isRoot. by rewrite Hp.
  - intros fuel t s par Hh Hr Hl Hre.
    destruct (clone_correct fuel t s par Hh Hr Hl Hre) as (s' & t' & Hc & _).
    pose proof Hc as Hc0.
    apply clone_frame_holds in Hc as (_ & _ & _ & n & Hn & Hp).
    exists s', n. unfold parent, isRoot. by rewrite Hp.
  - intros s this c cn tn Hc Ht Hne.
    eexists _, _. split; [by apply addChildToInternalVector_ok|].
    simpl. rewrite node_at_insert_ne by done.
    rewrite node_at_insert_eq by by eapply node_at_lt. done.
Qed.

(** * Further properties *)

(** ** Lookup in path nodes *)

Lemma getChild_aligned s this n names fieldName :
  node_at (heap s) this = Some n → derived n = ProjectionPathASTNode names →
  length names = length (_children n) →
  ∃ r, getChild this fieldName s = Ok (r, s) ∧
       ((∃ i, names !! i = Some fieldName ∧
              (∀ j, j < i → names !! j ≠ Some fieldName) ∧
              _children n !! i = Some r)
        ∨ ((fieldName ∉ names) ∧ r = None)).
Proof.
  intros Hn Hd Hlen. unfold getChild.
  rewrite (bind_ok _ _ _ _ _ (load_node_ok _ _ _ Hn)). rewrite Hd.
  assert ((length names =? length (_children n)) = true) as Hb
    by by apply Nat.eqb_eq.
  rewrite (bind_ok _ _ s tt s) by (unfold invariant; by rewrite Hb).
  apply getChild_loop_spec; [done|lia|]. intros j Hj. lia.
Qed.

Lemma first_match_unique (names : list string) fieldName i i' :
  names !! i = Some fieldName → (∀ j, j < i → names !! j ≠ Some fieldName) →
  names !! i' = Some fieldName → (∀ j, j < i' → names !! j ≠ Some fieldName) →
  i = i'.
Proof.
  intros Hi Hfi Hi' Hfi'.
  destruct (Nat.lt_trichotomy i i') as [Hlt|[->|Hlt]]; [|done|].
  - by apply Hfi' in Hlt.
  - by apply Hfi in Hlt.
Qed.

(** The first match of a name decides the result of [getChild]. *)
Lemma getChild_first s this n names fieldName i :
  node_at (heap s) this = Some n → derived n = ProjectionPathASTNode names →
  length names = length (_children n) →
  names !! i = Some fieldName → (∀ j, j < i → names !! j ≠ Some fieldName) →
  ∃ r, _children n !! i = Some r ∧ getChild this fieldName s = Ok (r, s).
Proof.
  intros Hn Hd Hlen Hi Hfi.
  destruct (getChild_aligned s this n names fieldName Hn Hd Hlen)
    as (r & Hg & [(i' & Hi' & Hfi' & Hr)|[Hnot _]]).
  - rewrite (first_match_unique names fieldName i i') by done. by exists r.
  - exfalso. apply Hnot. by eapply list_elem_of_lookup_2.
Qed.

Lemma getChild_absent s this n names fieldName :
  node_at (heap s) this = Some n → derived n = ProjectionPathASTNode names →
  length names = length (_children n) → fieldName ∉ names →
  getChild this fieldName s = Ok (None, s).
Proof.
  intros Hn Hd Hlen Hnot.
  destruct (getChild_aligned s this n names fieldName Hn Hd Hlen)
    as (r & Hg & [(i' & Hi' & _)|[_ ->]]); [|done].
  exfalso. apply Hnot. by eapply list_elem_of_lookup_2.
Qed.

(** ** The child-vector constructor, read backwards *)

(** The loop of the child-vector constructor, read backwards. *)
Lemma adopt_child_inv this child s u s' :
  adopt_child this child s = Ok (u, s') →
  ∃ c cn, child = Some c ∧ node_at (heap s) c = Some cn ∧
    s' = {| heap := <[c := Some (ONode (set_parent cn (Some this)))]> (heap s);
            buffers := buffers s |}.
Proof.
  unfold adopt_child. intros H.
  apply bind_inv in H as (c & s1 & Hd & H). apply deref_inv in Hd as [-> ->].
  apply bind_inv in H as (cn & s1 & Hl & H). apply load_node_inv in Hl as [-> Hc].
  apply store_inv in H as [-> _]. by exists c, cn.
Qed.

Lemma adopt_loop_inv this cs :
  ∀ s u s1,
    for_each cs (adopt_child this) s = Ok (u, s1) →
    buffers s1 = buffers s ∧ length (heap s1) = length (heap s) ∧
    (∀ x, Some x ∉ cs → heap s1 !! x = heap s !! x) ∧
    (∀ p, p ∈ cs → ∃ c cn cn',
        p = Some c ∧ node_at (heap s) c = Some cn ∧ node_at (heap s1) c = Some cn' ∧
        _parent cn' = Some this ∧ _children cn' = _children cn ∧
        derived cn' = derived cn).
Proof.
  induction cs as [|p0 cs IH]; intros s u s1 H.
  - injection H as _ <-. repeat split; try done. intros p Hp. by apply elem_of_nil in Hp.
  - simpl in H. apply bind_inv in H as ([] & s0 & Hstep & H).
    apply adopt_child_inv in Hstep as (c & cn & -> & Hc & ->).
    apply IH in H as (Hb & Hlen & Hfr & Hall). simpl in *.
    rewrite length_insert in Hlen.
    pose proof (node_at_lt _ _ _ Hc) as Hlt.
    split; [done|]. split; [done|]. split.
    + intros x Hx. rewrite Hfr.
      * apply list_lookup_insert_ne. intros ->. apply Hx. by left.
      * intros Hin. apply Hx. by right.
    + assert (∀ c', Some c' ∈ cs → ∀ cn0, node_at (heap s) c' = Some cn0 →
                ∃ cn', node_at (heap s1) c' = Some cn' ∧ _parent cn' = Some this ∧
                       _children cn' = _children cn0 ∧ derived cn' = derived cn0) as Hin.
      { intros c' Hc' cn0 Hcn0.
        destruct (Hall _ Hc') as (c2 & cn2 & cn' & [= <-] & Hcn2 & Hcn' & Hp & Hcs & Hd).
        exists cn'. split; [done|]. split; [done|].
        destruct (decide (c = c')) as [<-|Hne].
        - rewrite node_at_insert_eq in Hcn2 by done. injection Hcn2 as <-.
          rewrite Hc in Hcn0. by injection Hcn0 as <-.
        - rewrite node_at_insert_ne in Hcn2 by done.
          rewrite Hcn2 in Hcn0. by injection Hcn0 as <-. }
      intros p [->|Hp]%elem_of_cons.
      * exists c, cn. destruct (decide (Some c ∈ cs)) as [Hmem|Hmem].
        -- destruct (Hin c Hmem cn Hc) as (cn' & ? & ? & ? & ?). by exists cn'.
        -- exists (set_parent cn (Some this)). split; [done|]. split; [done|].
           split; [|done]. unfold node_at, cell. rewrite Hfr by done.
           fold (cell (<[c:=Some (ONode (set_parent cn (Some this)))]> (heap s)) c).
           by rewrite cell_insert_eq.
      * destruct (Hall _ Hp) as (c2 & cn2 & cn' & -> & Hcn2 & _).
        assert (∃ cn0, node_at (heap s) c2 = Some cn0) as [cn0 Hcn0].
        { destruct (decide (c = c2)) as [<-|Hne]; [by exists cn|].
          rewrite node_at_insert_ne in Hcn2 by done. by exists cn2. }
        destruct (Hin c2 Hp cn0 Hcn0) as (cn'' & ? & ? & ? & ?).
        by exists c2, cn0, cn''.
Qed.

Lemma new_ProjectionPathASTNode_inv children names s this s' :
  new_ProjectionPathASTNode children names s = Ok (this, s') →
  this = length (heap s) ∧ length children = length names ∧
  buffers s' = buffers s ∧ length (heap s') = S (length (heap s)) ∧
  (∃ n, node_at (heap s') this = Some n ∧ derived n = ProjectionPathASTNode names ∧
        _children n = children) ∧
  (∀ x, x < length (heap s) → Some x ∉ children → heap s' !! x = heap s !! x) ∧
  (∀ c cn, Some c ∈ children → node_at (heap s) c = Some cn →
     ∃ cn', node_at (heap s') c = Some cn' ∧ _parent cn' = Some this ∧
            _children cn' = _children cn ∧ derived cn' = derived cn).
Proof.
  unfold new_ProjectionPathASTNode. intros H.
  apply bind_inv in H as (this0 & s0 & Ha & H). injection Ha as <- <-.
  apply bind_inv in H as ([] & s1 & Hloop & H).
  unfold adopt_children in Hloop.
  apply bind_inv in Hloop as (tn0 & s0' & Hl & Hloop).
  apply load_node_inv in Hl as [-> Htn0]. simpl in Htn0.
  rewrite node_at_app_new in Htn0. injection Htn0 as <-. simpl in Hloop.
  apply adopt_loop_inv in Hloop as (Hb & Hlen & Hfr & Hall). simpl in *.
  rewrite length_app in Hlen. simpl in Hlen.
  apply bind_inv in H as (tn & s2 & Hl & H). apply load_node_inv in Hl as [-> Htn].
  apply bind_inv in H as ([] & s2 & Hs & H). apply store_inv in Hs as [-> Hlt].
  apply bind_inv in H as ([] & s2 & Hi & H). injection H as <- <-.
  unfold invariant in Hi.
  destruct (Nat.eqb_spec (length (_children tn)) (length names)) as [Hlen'|]; [|done].
  injection Hi as <-. simpl.
  assert ((_children tn = children ∧ derived tn = AbstractBase) ∨
          Some (length (heap s)) ∈ children) as Htn'.
  { destruct (decide (Some (length (heap s)) ∈ children)) as [Hin|Hnin]; [by right|left].
    unfold node_at, cell in Htn. rewrite Hfr in Htn by done.
    rewrite list_lookup_middle in Htn by done. by injection Htn as <-. }
  assert (_children tn = children) as Hcs.
  { destruct Htn' as [[? _]|Hin]; [done|].
    destruct (Hall _ Hin) as (c & cn & cn' & [= <-] & Hcn & Hcn' & _ & Hcs & _).
    rewrite node_at_app_new in Hcn. injection Hcn as <-.
    rewrite Htn in Hcn'. injection Hcn' as <-. done. }
  split; [done|]. split; [congruence|]. split; [done|].
  split; [rewrite length_insert; lia|]. split; [|split].
  - eexists. split; [apply node_at_insert_eq; lia|]. done.
  - intros x Hx Hnin. rewrite list_lookup_insert_ne by lia.
    rewrite Hfr by done. by apply lookup_app_l.
  - intros c cn Hin Hcn. pose proof (node_at_lt _ _ _ Hcn) as Hltc.
    destruct (Hall _ Hin) as (c2 & cn2 & cn' & [= <-] & Hcn2 & Hcn' & Hp & Hcs' & Hd).
    rewrite node_at_app_old in Hcn2 by done. rewrite Hcn in Hcn2. injection Hcn2 as <-.
    exists cn'. split; [|done]. by rewrite node_at_insert_ne by lia.
Qed.

(** X1. A child handed to the child-vector constructor of a path node under a
    name is what [getChild] of that name returns, unless an earlier entry has
    the name; the constructor has made the new node its parent and has left
    its class, members and children as they were. *)
Theorem X1_constructor_then_getChild :
  ∀ cs names s this s' i fieldName c cn,
    new_ProjectionPathASTNode cs names s = Ok (this, s') →
    names !! i = Some fieldName → (∀ j, j < i → names !! j ≠ Some fieldName) →
    cs !! i = Some (Some c) → node_at (heap s) c = Some cn →
    getChild this fieldName s' = Ok (Some c, s') ∧
    ∃ cn', node_at (heap s') c = Some cn' ∧
           parent cn' = Some this ∧ isRoot cn' = false ∧
           derived cn' = derived cn ∧ children cn' = children cn.
Proof.
  intros cs names s this s' i fieldName c cn H Hi Hfi Hci Hcn.
  apply new_ProjectionPathASTNode_inv in H
    as (-> & Hlen & _ & _ & (n & Hn & Hd & Hcs) & _ & Hall).
  split.
  - destruct (getChild_first s' (length (heap s)) n names fieldName i) as (r & Hr & Hg);
      try done.
    + by rewrite Hcs.
    + rewrite Hcs, Hci in Hr. by injection Hr as <-.
  - destruct (Hall c cn) as (cn' & Hcn' & Hp & Hcs' & Hd'); [|done|].
    { by eapply list_elem_of_lookup_2. }
    exists cn'. unfold parent, isRoot, children. by rewrite Hp.
Qed.

(** ** [addChild] and lookup *)

Lemma addChild_ok s this n names fieldName c cn :
  node_at (heap s) this = Some n → derived n = ProjectionPathASTNode names →
  node_at (heap s) c = Some cn → this ≠ c →
  addChild this fieldName (Some c) s =
    Ok (tt, {| heap := <[this := Some (ONode {| _parent := _parent n;
                                               _children := _children n ++ [Some c];
                                               derived := ProjectionPathASTNode
                                                            (names ++ [fieldName]) |})]>
                         (<[c := Some (ONode (set_parent cn (Some this)))]> (heap s));
               buffers := buffers s |}).
Proof.
  intros Hn Hd Hc Hne. unfold addChild.
  rewrite (bind_ok _ _ _ _ _ (addChildToInternalVector_ok _ _ _ _ _ Hc Hn Hne)).
  pose proof (node_at_lt _ _ _ Hn) as Hlt.
  erewrite bind_ok; last first.
  { apply load_node_ok. simpl. apply node_at_insert_eq. by rewrite length_insert. }
  simpl. rewrite Hd. erewrite store_ok; last first.
  { simpl. rewrite cell_insert_eq; [done|]. by rewrite length_insert. }
  simpl. by rewrite list_insert_insert_eq.
Qed.

(** The lookup of the name of the last entry, when no earlier entry has it. *)
Lemma getChild_last s this par cs names fieldName c :
  node_at (heap s) this
    = Some {| _parent := par; _children := cs ++ [c];
              derived := ProjectionPathASTNode (names ++ [fieldName]) |} →
  length names = length cs → fieldName ∉ names →
  getChild this fieldName s = Ok (c, s).
Proof.
  intros Hn Hlen Hfresh.
  edestruct (getChild_first s this _ (names ++ [fieldName]) fieldName (length names) Hn)
    as (r & Hr & Hg); last (rewrite Hg).
  - reflexivity.
  - simpl. rewrite !length_app. by rewrite Hlen.
  - by apply list_lookup_middle.
  - intros j Hj Hjn. rewrite lookup_app_l in Hjn by lia.
    apply Hfresh. by eapply list_elem_of_lookup_2.
  - simpl in Hr. rewrite list_lookup_middle in Hr by done. by injection Hr as <-.
Qed.

(** X2. [addChild] of a node under a name that the path node does not have
    yet, then [getChild] of that name: the node that was added, now with the
    path node as its parent, its class, members and children as they were. *)
Theorem X2_addChild_then_getChild :
  ∀ s this n names fieldName c cn,
    node_at (heap s) this = Some n → derived n = ProjectionPathASTNode names →
    length names = length (children n) →
    node_at (heap s) c = Some cn → this ≠ c →
    fieldName ∉ names →
    ∃ s' cn',
      addChild this fieldName (Some c) s = Ok (tt, s') ∧
      getChild this fieldName s' = Ok (Some c, s') ∧
      node_at (heap s') c = Some cn' ∧ parent cn' = Some this ∧
      derived cn' = derived cn ∧ children cn' = children cn.
Proof.
  intros s this n names fieldName c cn Hn Hd Hlen Hc Hne Hfresh.
  pose proof (node_at_lt _ _ _ Hn) as Hlt. pose proof (node_at_lt _ _ _ Hc) as Hltc.
  eexists _, _. split; [exact (addChild_ok s this n names fieldName c cn Hn Hd Hc Hne)|].
  split; [|split].
  - eapply getChild_last; [|exact Hlen|exact Hfresh].
    simpl. apply node_at_insert_eq. by rewrite length_insert.
  - simpl. rewrite node_at_insert_ne by done. by apply node_at_insert_eq.
  - done.
Qed.

(** X3. [addChild] changes the result of no earlier lookup: under a name that
    the path node has, [getChild] returns the child it returned before, also
    when the added entry has that same name (the earlier entry shadows it);
    under any name other than the added one it returns what it returned
    before. *)
Theorem X3_addChild_keeps_lookups :
  ∀ s this n names fieldName node u s' name,
    node_at (heap s) this = Some n → derived n = ProjectionPathASTNode names →
    length names = length (children n) →
    addChild this fieldName node s = Ok (u, s') →
    name ∈ names ∨ name ≠ fieldName →
    ∃ r, getChild this name s = Ok (r, s) ∧ getChild this name s' = Ok (r, s').
Proof.
  intros s this n names fieldName node u s' name Hn Hd Hlen Hadd Hname.
  unfold children in Hlen.
  destruct (addChild_aligned _ _ _ _ _ _ _ _ Hn Hd Hadd) as (n' & Hn' & Hd' & Hcs').
  assert (length (names ++ [fieldName]) = length (_children n')) as Hlen'.
  { rewrite Hcs', !length_app. simpl. lia. }
  destruct (getChild_aligned s this n names name Hn Hd Hlen)
    as (r & Hg & [(i & Hi & Hfi & Hr)|[Hnot ->]]).
  - exists r. split; [done|].
    pose proof (lookup_lt_Some _ _ _ Hi) as Hlti.
    destruct (getChild_first s' this n' (names ++ [fieldName]) name i)
      as (r' & Hr' & Hg'); try done.
    + by rewrite lookup_app_l.
    + intros j Hj. rewrite lookup_app_l by lia. by apply Hfi.
    + rewrite Hcs', lookup_app_l in Hr' by lia. congruence.
  - exists None. split; [done|].
    destruct Hname as [Hin|Hne]; [done|].
    eapply getChild_absent; [done..|].
    intros [Hin|Hin%list_elem_of_singleton]%elem_of_app; [done|congruence].
Qed.

(** ** The constructor against [addChild] *)

Lemma insert_last {A} (l : list A) x y i :
  i = length l → <[i := y]> (l ++ [x]) = l ++ [y].
Proof. intros ->. rewrite insert_app_r_alt by lia. by rewrite Nat.sub_diag. Qed.

(** The two loops side by side: the constructor's over the children, the
    caller's over the pairs of a name and a child. *)
Lemma adopt_and_addChild_loops this :
  ∀ cs names done_cs done_names base b x,
    length cs = length names → length base = this →
    Forall (live_node base) cs →
    ∃ base',
      length base' = this ∧
      for_each cs (adopt_child this) {| heap := base ++ [x]; buffers := b |}
        = Ok (tt, {| heap := base' ++ [x]; buffers := b |}) ∧
      for_each (zip names cs) (λ '(name, child), addChild this name child)
        {| heap := base ++ [Some (ONode {| _parent := None; _children := done_cs;
                                           derived := ProjectionPathASTNode done_names |})];
           buffers := b |}
        = Ok (tt, {| heap := base' ++
                       [Some (ONode {| _parent := None; _children := done_cs ++ cs;
                                       derived := ProjectionPathASTNode
                                                    (done_names ++ names) |})];
                     buffers := b |}).
Proof.
  induction cs as [|p cs IH]; intros names done_cs done_names base b x Hlen Hbase Hlive.
  - destruct names; [|done]. exists base. by rewrite !app_nil_r.
  - destruct names as [|name names]; [done|]. simpl in Hlen.
    apply Forall_cons in Hlive as [(c & cn & -> & Hc) Hlive].
    pose proof (node_at_lt _ _ _ Hc) as Hltc.
    set (base1 := <[c := Some (ONode (set_parent cn (Some this)))]> base).
    destruct (IH names (done_cs ++ [Some c]) (done_names ++ [name]) base1 b x)
      as (base' & Hlen' & Hctor & Hadd).
    + lia.
    + unfold base1. by rewrite length_insert.
    + eapply Forall_impl; [exact Hlive|]. intros p. unfold base1.
      by apply live_node_parents_only, parents_only_set_parent.
    + exists base'. split; [done|]. split.
      * simpl. erewrite bind_ok; last first.
        { apply adopt_child_ok. simpl. rewrite node_at_app_old by done. exact Hc. }
        simpl. rewrite insert_app_l by done. exact Hctor.
      * simpl. erewrite bind_ok; last first.
        { eapply addChild_ok; simpl.
          - rewrite <- Hbase. apply node_at_app_new.
          - reflexivity.
          - rewrite node_at_app_old by done. exact Hc.
          - lia. }
        simpl. rewrite insert_app_l by done. fold base1.
        rewrite insert_last by (unfold base1; rewrite length_insert; lia).
        rewrite <- !app_assoc in Hadd. exact Hadd.
Qed.

(** X4. On live children and as many names, the child-vector constructor of a
    path node gives the node and the store that the default constructor
    followed by [addChild] of each child under its name, in order, gives. *)
Theorem X4_constructor_is_addChild_sequence :
  ∀ cs names s,
    length cs = length names → Forall (live_node (heap s)) cs →
    ∃ s', new_ProjectionPathASTNode cs names s = Ok (length (heap s), s') ∧
          ProjectionPathASTNode_by_addChild cs names s = Ok (length (heap s), s').
Proof.
  intros cs names s Hlen Hlive.
  destruct (adopt_and_addChild_loops (length (heap s)) cs names [] [] (heap s) (buffers s)
              (Some (ONode {| _parent := None; _children := cs; derived := AbstractBase |})))
    as (base' & Hlen' & Hctor & Hadd); [done..|].
  eexists. split.
  - unfold new_ProjectionPathASTNode. rewrite (bind_ok (alloc _) _ s _ _ eq_refl).
    unfold adopt_children. rewrite bind_bind.
    erewrite bind_ok; last by (apply load_node_ok, node_at_app_new).
    simpl _children. rewrite (bind_ok _ _ _ _ _ Hctor).
    erewrite bind_ok; last first.
    { apply load_node_ok. simpl. rewrite <- Hlen'. apply node_at_app_new. }
    erewrite bind_ok; last first.
    { eapply store_ok. simpl. rewrite <- Hlen'. apply cell_app_new. }
    simpl. rewrite Hlen, Nat.eqb_refl. rewrite insert_last by done. reflexivity.
  - unfold ProjectionPathASTNode_by_addChild, new_ProjectionPathASTNode_empty.
    rewrite (bind_ok (alloc _) _ s _ _ eq_refl).
    rewrite (bind_ok _ _ _ _ _ Hadd). reflexivity.
Qed.

(** X5. A null child is dereferenced: the child-vector constructor of a path
    node, whatever the names, and [addChild] set [_parent] through the pointer
    without a check, unlike the single-child constructors. *)
Theorem X5_null_child_is_dereferenced :
  (∀ cs names s, None ∈ cs → new_ProjectionPathASTNode cs names s = Fault) ∧
  (∀ this fieldName s, addChild this fieldName None s = Fault).
Proof.
  split; [|done].
  intros cs names s Hin. unfold new_ProjectionPathASTNode.
  rewrite (bind_ok (alloc _) _ s _ _ eq_refl). unfold adopt_children.
  rewrite bind_bind.
  erewrite bind_ok; last by (apply load_node_ok, node_at_app_new).
  simpl _children. apply bind_fault.
  match goal with |- for_each _ _ ?s0 = _ =>
    destruct (adopt_loop_outcome (length (heap s)) cs s0) as [E|(s1 & E & _)] end;
    [done|].
  apply adopt_loop_inv in E as (_ & _ & _ & Hall).
  by destruct (Hall None Hin) as (c & cn & cn' & [=] & _).
Qed.

(** ** Links of the trees that the operations build *)

Lemma root_nodes t : root t ∈ nodes t.
Proof. destruct t. by left. Qed.

Lemma nodes_sublist t : nodes t `sublist_of` owned t.
Proof.
  induction t as [a p kids IH] using Tree_ind'. simpl.
  apply sublist_skip. apply sublist_inserts_l.
  induction kids as [|k kids IHk]; [done|].
  apply Forall_cons in IH as [IH1 IH]. rewrite !bind_cons.
  apply sublist_app; [done|by apply IHk].
Qed.

Lemma nodes_NoDup t : NoDup (owned t) → NoDup (nodes t).
Proof. intros H. eapply sublist_NoDup; [exact H|apply nodes_sublist]. Qed.

Lemma count_absent (x : addr) (kids : list Tree) :
  (∀ k, k ∈ kids → root k ≠ x) →
  length (filter (λ c, c = Some x) (map (λ k, Some (root k)) kids)) = 0.
Proof.
  induction kids as [|k kids IH]; intros H; [done|]. simpl.
  rewrite filter_cons_False.
  - apply IH. intros k' Hk'. apply H. by right.
  - intros [= Heq]. by apply (H k); [left|].
Qed.

Lemma count_root kids k :
  k ∈ kids → NoDup (kids ≫= nodes) →
  length (filter (λ c, c = Some (root k)) (map (λ k, Some (root k)) kids)) = 1.
Proof.
  induction kids as [|k0 kids IH]; intros Hin Hnd; [by apply elem_of_nil in Hin|].
  rewrite bind_cons in Hnd. apply NoDup_app in Hnd as (Hnd0 & Hdis & Hnd).
  assert (∀ k', k' ∈ kids → root k' ≠ root k0) as Hothers.
  { intros k' Hk' Heq. apply (Hdis (root k0)); [apply root_nodes|].
    apply list_elem_of_bind. exists k'. split; [|done]. rewrite <- Heq. apply root_nodes. }
  simpl. destruct (decide (root k0 = root k)) as [Heq|Hne].
  - rewrite filter_cons_True by by rewrite Heq. simpl. f_equal.
    apply count_absent. intros k' Hk'. rewrite <- Heq. by apply Hothers.
  - rewrite filter_cons_False by (intros [= ?]; done).
    apply elem_of_cons in Hin as [->|Hin]; [done|]. by apply IH.
Qed.

Lemma repr_linked_root h t :
  ∀ par, repr h par t → NoDup (nodes t) →
    ∀ x, x ∈ nodes t →
      ∃ n, node_at h x = Some n ∧
        Forall (λ c : ptr, ∃ ca cn, c = Some ca ∧ ca ∈ nodes t ∧
                                    node_at h ca = Some cn ∧ parent cn = Some x)
          (children n) ∧
        (x = root t → parent n = par) ∧
        (x ≠ root t →
         ∃ p pn, parent n = Some p ∧ p ∈ nodes t ∧ node_at h p = Some pn ∧
                 length (filter (λ c, c = Some x) (children pn)) = 1).
Proof.
  induction t as [a p kids IH] using Tree_ind'. intros par Hr Hnd x Hx.
  inversion Hr as [? ? ? ? Hn _ Hkids]; subst.
  simpl in Hnd. apply NoDup_cons in Hnd as [Ha Hnd]. simpl in Hx.
  apply elem_of_cons in Hx as [->|Hx].
  - eexists. split; [exact Hn|]. split; [|split; [done|done]].
    unfold children. simpl. apply Forall_map. apply Forall_forall. intros k Hk.
    rewrite Forall_forall in Hkids.
    destruct (repr_root_node _ _ _ (Hkids k Hk)) as (kn & Hkn & Hp).
    exists (root k), kn. split; [done|]. split; [|done].
    right. apply list_elem_of_bind. exists k. split; [apply root_nodes|done].
  - apply list_elem_of_bind in Hx as (k & Hx & Hk).
    assert (x ≠ a) as Hxa.
    { intros ->. apply Ha. apply list_elem_of_bind. by exists k. }
    assert (NoDup (nodes k)) as Hndk.
    { clear -Hnd Hk. induction kids as [|k0 kids IHk]; [by apply elem_of_nil in Hk|].
      rewrite bind_cons in Hnd. apply NoDup_app in Hnd as (Hnd0 & _ & Hnd).
      apply elem_of_cons in Hk as [->|Hk]; [done|by apply IHk]. }
    rewrite Forall_forall in IH, Hkids.
    destruct (IH k Hk (Some a) (Hkids k Hk) Hndk x Hx)
      as (n & Hnx & Hcs & Hroot & Hinner).
    exists n. split; [done|]. split; [|split; [done|]].
    + eapply Forall_impl; [exact Hcs|]. intros c (ca & cn & -> & Hca & Hcn & Hp).
      exists ca, cn. split; [done|]. split; [|done].
      right. apply list_elem_of_bind. by exists k.
    + intros _. destruct (decide (x = root k)) as [->|Hne].
      * eexists a, _. split; [by apply Hroot|]. split; [by left|]. split; [exact Hn|].
        unfold children. simpl. by apply count_root.
      * destruct (Hinner Hne) as (p' & pn & Hp & Hp' & Hpn & Hcount).
        exists p', pn. split; [done|]. split; [|done].
        right. apply list_elem_of_bind. by exists k.
Qed.

Lemma repr_linked h par t : repr h par t → NoDup (owned t) → linked h t.
Proof.
  intros Hr Hnd x Hx.
  destruct (repr_linked_root h t par Hr (nodes_NoDup _ Hnd) x Hx)
    as (n & Hn & Hcs & _ & Hinner).
  by exists n.
Qed.

Lemma repr_kids_parent h par a p kids :
  repr h par (TNode a p kids) →
  Forall (λ k, ∃ kn, node_at h (root k) = Some kn ∧ parent kn = Some a ∧
                     isRoot kn = false) kids.
Proof.
  intros Hr. inversion Hr as [? ? ? ? _ _ Hkids]; subst.
  eapply Forall_impl; [exact Hkids|]. intros k Hk.
  destruct (repr_root_node _ _ _ Hk) as (kn & Hkn & Hp).
  exists kn. unfold parent, isRoot. by rewrite Hp.
Qed.

(** X6. The child-vector constructor of a path node, given the roots of trees
    with nodes of their own and as many names, links them into one tree: the
    new node is a root, [children()] lists the roots in order, each of them
    has the new node as [parent()], and the subtrees are as they were.  In
    the tree every child pointer leads to a node with that node as parent,
    and every node but the root is listed exactly once by its parent. *)
Theorem X6_constructor_links_the_children :
  ∀ kids names s,
    Forall (repr (heap s) None) kids → NoDup (kids ≫= owned) →
    length names = length kids →
    ∃ s' n,
      new_ProjectionPathASTNode (map (λ k, Some (root k)) kids) names s
        = Ok (length (heap s), s') ∧
      repr (heap s') None (TNode (length (heap s)) (PProjectionPath names) kids) ∧
      NoDup (owned (TNode (length (heap s)) (PProjectionPath names) kids)) ∧
      node_at (heap s') (length (heap s)) = Some n ∧ isRoot n = true ∧
      children n = map (λ k, Some (root k)) kids ∧
      Forall (λ k, ∃ kn, node_at (heap s') (root k) = Some kn ∧
                         parent kn = Some (length (heap s)) ∧ isRoot kn = false) kids ∧
      linked (heap s') (TNode (length (heap s)) (PProjectionPath names) kids).
Proof.
  intros kids names s Hkids Hnd Hlen.
  destruct (new_ProjectionPathASTNode_repr kids names s Hkids Hnd Hlen)
    as (s' & Hctor & Hr & Hnd').
  exists s'. inversion Hr as [? ? ? ? Hn _ _]; subst.
  eexists. split; [done|]. split; [done|]. split; [done|].
  split; [exact Hn|]. split; [done|]. split; [done|].
  split; [by eapply repr_kids_parent|by eapply repr_linked].
Qed.

(** X7. [addChild] of the root of a tree with nodes of its own to a path node
    of a tree keeps the tree linked: the added tree is the last subtree of the
    node, under the new name, with the node as [parent()]; the parent of the
    path node and the other subtrees are as they were.  In the tree every
    child pointer leads to a node with that node as parent, and every node
    but the root is listed exactly once by its parent. *)
Theorem X7_addChild_links_the_child :
  ∀ s par this names kids k fieldName,
    repr (heap s) par (TNode this (PProjectionPath names) kids) →
    repr (heap s) None k →
    NoDup (owned (TNode this (PProjectionPath names) kids) ++ owned k) →
    ∃ s' kn,
      addChild this fieldName (Some (root k)) s = Ok (tt, s') ∧
      repr (heap s') par
        (TNode this (PProjectionPath (names ++ [fieldName])) (kids ++ [k])) ∧
      NoDup (owned (TNode this (PProjectionPath (names ++ [fieldName])) (kids ++ [k]))) ∧
      node_at (heap s') (root k) = Some kn ∧ parent kn = Some this ∧
      isRoot kn = false ∧
      linked (heap s')
        (TNode this (PProjectionPath (names ++ [fieldName])) (kids ++ [k])).
Proof.
  intros s par this names kids k fieldName Hr Hk Hnd.
  destruct (addChild_repr s par this names kids k fieldName Hr Hk Hnd)
    as (s' & Hadd & Hr' & Hnd').
  pose proof (repr_kids_parent _ _ _ _ _ Hr') as Hall.
  apply Forall_app in Hall as [_ Hlast]. rewrite Forall_singleton in Hlast.
  destruct Hlast as (kn & Hkn & Hp & Hroot).
  exists s', kn. repeat (split; [done|]). by eapply repr_linked.
Qed.

(** X8. The clone of a tree is a linked tree of its own: its nodes and the
    objects they own are fresh and pairwise distinct, every child pointer
    leads to a node with that node as parent, and every node but the root is
    listed exactly once by its parent; the tree that was cloned is in the
    store as it was, parent of the root included. *)
Theorem X8_clone_links_the_copy :
  ∀ fuel t s par,
    height t ≤ fuel → repr (heap s) par t →
    buffers_live (buffers s) (tree_buffers t) → reparses t →
    ∃ s' t',
      clone fuel (root t) s = Ok (length (heap s), s') ∧
      root t' = length (heap s) ∧ cloned t t' ∧
      repr (heap s') None t' ∧ NoDup (owned t') ∧
      Forall (λ x, length (heap s) ≤ x < length (heap s')) (owned t') ∧
      linked (heap s') t' ∧
      repr (heap s') par t.
Proof.
  intros fuel t s par Hh Hr Hl Hre.
  destruct (clone_correct fuel t s par Hh Hr Hl Hre)
    as (s' & t' & Hc & Hroot & Hr' & Hcl & Hrange & Hnd & Hfr & _).
  exists s', t'. repeat (split; [done|]). split; [by eapply repr_linked|].
  eapply repr_agree_below; [|exact Hr]. done.
Qed.

(** X9. [clone] commutes with [getChild]: under each name the copy of a path
    node has the copy of the child that the node has under that name, and
    none where the node has none. *)
Theorem X9_clone_commutes_with_getChild :
  ∀ fuel s par this names kids fieldName,
    height (TNode this (PProjectionPath names) kids) ≤ fuel →
    repr (heap s) par (TNode this (PProjectionPath names) kids) →
    buffers_live (buffers s) (tree_buffers (TNode this (PProjectionPath names) kids)) →
    reparses (TNode this (PProjectionPath names) kids) →
    length names = length kids →
    ∃ s' kids' r r',
      clone fuel this s = Ok (length (heap s), s') ∧
      Forall2 cloned kids kids' ∧
      Forall (repr (heap s') (Some (length (heap s)))) kids' ∧
      getChild this fieldName s' = Ok (r, s') ∧
      getChild (length (heap s)) fieldName s' = Ok (r', s') ∧
      (((fieldName ∉ names) ∧ r = None ∧ r' = None) ∨
       ∃ i k k', names !! i = Some fieldName ∧
                 (∀ j, j < i → names !! j ≠ Some fieldName) ∧
                 kids !! i = Some k ∧ kids' !! i = Some k' ∧ cloned k k' ∧
                 r = Some (root k) ∧ r' = Some (root k')).
Proof.
  intros fuel s par this names kids fieldName Hh Hr Hl Hre Hlen.
  destruct (clone_correct fuel _ s par Hh Hr Hl Hre)
    as (s' & t' & Hc & Hroot & Hr' & Hcl & _ & _ & Hfr & _).
  inversion Hcl as [? ? ? a' p' kids' Hcp Hk2]; subst.
  destruct p'; simpl in Hcp; try done. subst names0.
  simpl in Hroot. subst a'.
  assert (repr (heap s') par (TNode this (PProjectionPath names) kids)) as Hr0.
  { eapply repr_agree_below; [|exact Hr]. done. }
  inversion Hr0 as [? ? ? ? Hn _ _]; subst.
  inversion Hr' as [? ? ? ? Hn' _ Hkids']; subst.
  pose proof (Forall2_length _ _ _ Hk2) as Hlen2.
  destruct (decide (fieldName ∈ names)) as [Hin|Hnin].
  - assert (∃ i, names !! i = Some fieldName ∧
                 ∀ j, j < i → names !! j ≠ Some fieldName) as (i & Hi & Hfi).
    { destruct (getChild_aligned s' this _ names fieldName Hn eq_refl)
        as (r & _ & [(i & Hi & Hfi & _)|[Hnot _]]); [simpl; rewrite length_map; lia| |done].
      by exists i. }
    pose proof (lookup_lt_Some _ _ _ Hi) as Hlti.
    destruct (lookup_lt_is_Some_2 kids i) as [k Hk]; [lia|].
    destruct (lookup_lt_is_Some_2 kids' i) as [k' Hk']; [lia|].
    destruct (getChild_first s' this _ names fieldName i Hn eq_refl)
      as (r & Hr1 & Hg); [simpl; rewrite length_map; lia|done|done|].
    destruct (getChild_first s' (length (heap s)) _ names fieldName i Hn' eq_refl)
      as (r' & Hr1' & Hg'); [simpl; rewrite length_map; lia|done|done|].
    simpl in Hr1, Hr1'. rewrite list_lookup_fmap in Hr1, Hr1'.
    rewrite Hk in Hr1. rewrite Hk' in Hr1'. simpl in *.
    injection Hr1 as <-. injection Hr1' as <-.
    exists s', kids', (Some (root k)), (Some (root k')).
    repeat (split; [done|]). right. exists i, k, k'.
    repeat (split; [done|]). split; [|done].
    by eapply Forall2_lookup_lr.
  - exists s', kids', None, None. repeat (split; [done|]).
    split; [|split; [|by left]].
    + eapply getChild_absent; [exact Hn|done|simpl; rewrite length_map; lia|done].
    + eapply getChild_absent; [exact Hn'|done|simpl; rewrite length_map; lia|done].
Qed.

(** ** [clone] on any store *)

Lemma clone_inv fuel a s a' s' :
  clone (S fuel) a s = Ok (a', s') →
  ∃ other s2 d s3 tn,
    node_at (heap s) a = Some other ∧ derived other ≠ AbstractBase ∧
    a' = length (heap s) ∧
    for_each (_children other) (clone_child (clone fuel) a')
      {| heap := heap s ++ [Some (ONode {| _parent := None; _children := [];
                                           derived := AbstractBase |})];
         buffers := buffers s |} = Ok (tt, s2) ∧
    copy_derived (derived other) s2 = Ok (d, s3) ∧
    node_at (heap s3) a' = Some tn ∧
    s' = {| heap := <[a' := Some (ONode (set_derived tn d))]> (heap s3);
            buffers := buffers s3 |}.
Proof.
  intros H. simpl in H. apply bind_inv in H as (other & s0 & Hl & H).
  apply load_node_inv in Hl as [-> Hother].
  assert (derived other ≠ AbstractBase) as Hd.
  { intros E. by rewrite E in H. }
  assert (∃ m : M nat, m s = Ok (a', s') ∧
            m = bind (alloc (ONode {| _parent := None; _children := [];
                                      derived := AbstractBase |}))
                  (λ this, bind (for_each (_children other)
                                   (clone_child (clone fuel) this))
                    (λ _, bind (copy_derived (derived other))
                      (λ d, bind (load_node this)
                        (λ tn, bind (store this (ONode (set_derived tn d)))
                          (λ _, ret this))))))
    as (m & Hm & ->); [destruct (derived other); by eauto|].
  clear H. apply bind_inv in Hm as (this & s1 & Ha & H).
  injection Ha as <- <-.
  apply bind_inv in H as ([] & s2 & Hloop & H).
  apply bind_inv in H as (d & s3 & Hcopy & H).
  apply bind_inv in H as (tn & s4 & Hl & H). apply load_node_inv in Hl as [-> Htn].
  apply bind_inv in H as ([] & s5 & Hs & H). apply store_inv in Hs as [-> Hlt].
  injection H as <- <-. by exists other, s2, d, s3, tn.
Qed.

Lemma clone_child_inv (f : addr → M addr) this child s u s' :
  clone_child f this child s = Ok (u, s') →
  ∃ c n s1, child = Some c ∧ f c s = Ok (n, s1) ∧
            addChildToInternalVector this (Some n) s1 = Ok (tt, s').
Proof.
  unfold clone_child. intros H.
  apply bind_inv in H as (c & s0 & Hd & H). apply deref_inv in Hd as [-> ->].
  apply bind_inv in H as (n & s1 & Hc & H). destruct u. by exists c, n, s1.
Qed.

Lemma copy_derived_label d s d' s' :
  copy_derived d s = Ok (d', s') →
  label_of d' = label_of d ∧ buffers_grow (buffers s) (buffers s').
Proof.
  destruct d; simpl; intros H; try done;
    try (injection H as <- <-; split; [done|apply buffers_grow_refl]).
  - apply bind_inv in H as ([] & s1 & Hr & H).
    apply retain_inv in Hr as (sb & Hsb & ->).
    apply bind_inv in H as (m & s2 & Hd & H). apply deref_inv in Hd as [_ ->].
    apply bind_inv in H as (m' & s2 & Hc & H). injection H as <- <-.
    apply shallowClone_inv in Hc as (t & _ & _ & ->). split; [done|].
    simpl. by apply retain_grow.
  - apply bind_inv in H as (ea & s1 & Hd & H). apply deref_inv in Hd as [_ ->].
    apply bind_inv in H as (eo & s1 & Hl & H).
    apply load_expression_inv in Hl as [-> _].
    apply bind_inv in H as (vps & s1 & Hl2 & H).
    apply load_context_inv in Hl2 as [-> _].
    apply bind_inv in H as (e' & s1 & Hp & H). injection H as <- <-.
    apply parseOperand_inv in Hp as (t & _ & _ & ->). split; [done|].
    apply buffers_grow_refl.
Qed.

(** The loop of the copy constructor adds one child for each child of the
    node, and only holders to the buffers. *)
Lemma clone_children_count fuel this cs :
  (∀ a s a' s', clone fuel a s = Ok (a', s') →
                buffers_grow (buffers s) (buffers s')) →
  ∀ s1 u s2 tn,
    for_each cs (clone_child (clone fuel) this) s1 = Ok (u, s2) →
    node_at (heap s1) this = Some tn →
    buffers_grow (buffers s1) (buffers s2) ∧
    ∃ tn', node_at (heap s2) this = Some tn' ∧
           length (_children tn') = length (_children tn) + length cs.
Proof.
  intros IH. induction cs as [|c cs IHcs]; intros s1 u s2 tn H Ht.
  - injection H as _ <-. split; [apply buffers_grow_refl|]. exists tn.
    split; [done|]. simpl. lia.
  - simpl in H. apply bind_inv in H as ([] & s1' & Hstep & H).
    apply clone_child_inv in Hstep as (ca & n & s1c & -> & Hc & Hstep).
    pose proof (IH _ _ _ _ Hc) as Hg.
    apply clone_frame_holds in Hc as (-> & Hlt & Hfr & _).
    apply addChildToInternalVector_inv in Hstep
      as (c' & cn & tn1 & [= <-] & Hcn & Htn1 & ->).
    pose proof (node_at_lt _ _ _ Ht) as Hthis.
    rewrite node_at_insert_ne in Htn1 by lia.
    assert (node_at (heap s1c) this = Some tn) as Ht1.
    { unfold node_at, cell. rewrite Hfr by done. exact Ht. }
    rewrite Ht1 in Htn1. injection Htn1 as <-.
    eapply IHcs in H as (Hg2 & tn' & Htn' & Hlen); last first.
    { simpl. apply node_at_insert_eq. rewrite length_insert. lia. }
    simpl in *. split; [by eapply buffers_grow_trans|].
    exists tn'. split; [done|]. rewrite Hlen, length_app. simpl. lia.
Qed.

Lemma clone_buffers_grow fuel :
  ∀ a s a' s', clone fuel a s = Ok (a', s') → buffers_grow (buffers s) (buffers s').
Proof.
  induction fuel as [|fuel IH]; intros a s a' s' H; [done|].
  apply clone_inv in H as (other & s2 & d & s3 & tn & _ & _ & -> & Hloop & Hcopy & _ & ->).
  eapply (clone_children_count _ _ _ IH) in Hloop as [Hg _];
    last by apply node_at_app_new.
  apply copy_derived_label in Hcopy as [_ Hg']. simpl in *.
  by eapply buffers_grow_trans.
Qed.

(** X10. [clone] writes to no object that exists when it is called, on any
    store and any node: the copy is at a fresh address, every cell of the
    store is as it was, no buffer appears or disappears, and the buffers keep
    their bytes and gain holders only. *)
Theorem X10_clone_writes_to_no_existing_object :
  ∀ fuel a s a' s',
    clone fuel a s = Ok (a', s') →
    a' = length (heap s) ∧ length (heap s) < length (heap s') ∧
    (∀ x, x < length (heap s) → heap s' !! x = heap s !! x) ∧
    length (buffers s') = length (buffers s) ∧
    (∀ b sb, buffer_at (buffers s) b = Some sb →
       ∃ sb', buffer_at (buffers s') b = Some sb' ∧ bytes sb' = bytes sb ∧
              holders sb ≤ holders sb') ∧
    (∀ b, buffer_at (buffers s) b = None → buffer_at (buffers s') b = None).
Proof.
  intros fuel a s a' s' H.
  pose proof (clone_buffers_grow _ _ _ _ _ H) as [Hlen Hg].
  apply clone_frame_holds in H as (-> & Hlt & Hfr & _).
  repeat (split; [done|]). split.
  - intros b sb Hb. specialize (Hg b). by rewrite Hb in Hg.
  - intros b Hb. specialize (Hg b). by rewrite Hb in Hg.
Qed.

(** The node that [clone] returns, against the node it was called on. *)
Lemma clone_root_label fuel a s a' s' n :
  clone fuel a s = Ok (a', s') → node_at (heap s) a = Some n →
  ∃ n', node_at (heap s') a' = Some n' ∧
        label_of (derived n') = label_of (derived n) ∧
        _parent n' = None ∧ length (_children n') = length (_children n).
Proof.
  intros H Hn. destruct fuel as [|fuel]; [done|].
  apply clone_inv in H as (other & s2 & d & s3 & tn & Hother & _ & -> & Hloop & Hcopy
                           & Htn & ->).
  rewrite Hn in Hother. injection Hother as <-.
  pose proof Hloop as Hloop0.
  eapply (clone_children_count _ _ _ (clone_buffers_grow fuel)) in Hloop
    as [_ (tn1 & Htn1 & Hlen)]; last by apply node_at_app_new.
  eapply (clone_children_frame _ _ _ (clone_frame_holds fuel)) in Hloop0
    as (Hle & _ & tn2 & Htn2 & Hpar & _); last by apply node_at_app_new.
  rewrite Htn1 in Htn2. injection Htn2 as <-.
  pose proof (copy_derived_label _ _ _ _ Hcopy) as [Hlabel _].
  apply copy_derived_inv in Hcopy as [new Hext].
  simpl in *. rewrite length_app in Hle. simpl in Hle.
  rewrite Hext, node_at_app_old in Htn by lia.
  rewrite Htn1 in Htn. injection Htn as <-.
  exists (set_derived tn1 d). split; [|done].
  apply node_at_insert_eq. rewrite Hext, length_app. lia.
Qed.

(** X11. On any store, the node that [clone] returns is of the class of the
    node it was called on, with the same [fieldNames()], [skip()], [limit()]
    and [value()] and as many [children()], and it is a root; the node it was
    called on is as it was. *)
Theorem X11_clone_copies_the_members :
  ∀ fuel a s a' s' n,
    clone fuel a s = Ok (a', s') → node_at (heap s) a = Some n →
    ∃ n', node_at (heap s') a' = Some n' ∧
          node_at (heap s') a = Some n ∧
          kind_of (derived n') = kind_of (derived n) ∧
          fieldNames n' = fieldNames n ∧
          skip n' = skip n ∧ limit n' = limit n ∧ value n' = value n ∧
          length (children n') = length (children n) ∧
          isRoot n' = true.
Proof.
  intros fuel a s a' s' n H Hn.
  destruct (clone_root_label _ _ _ _ _ _ H Hn) as (n' & Hn' & Hlabel & Hpar & Hlen).
  apply clone_frame_holds in H as (_ & _ & Hfr & _).
  pose proof (node_at_lt _ _ _ Hn) as Hlta.
  exists n'. split; [done|]. split.
  - unfold node_at, cell. rewrite Hfr by done. exact Hn.
  - unfold fieldNames, skip, limit, value, children, isRoot. rewrite Hpar, Hlen.
    destruct (derived n'), (derived n); simpl in Hlabel; try discriminate;
      try (injection Hlabel as <-); try (injection Hlabel as <- <-); done.
Qed.

(** X12. The copy that [clone] returns is of the dynamic class of the node:
    for every visitor, [acceptVisitor] on the copy calls the [visit] overload
    that it calls on the node. *)
Theorem X12_clone_keeps_the_dynamic_class :
  ∀ fuel a s a' s',
    clone fuel a s = Ok (a', s') →
    ∃ k, ∀ V (visitor : ProjectionASTVisitor V) v,
      acceptVisitor visitor a v s' = visit_of k visitor a v s' ∧
      acceptVisitor visitor a' v s' = visit_of k visitor a' v s'.
Proof.
  intros fuel a s a' s' H.
  destruct fuel as [|fuel]; [done|]. pose proof H as H0.
  apply clone_inv in H0 as (n & _ & _ & _ & _ & Hn & Hd & _).
  destruct (clone_root_label _ _ _ _ _ _ H Hn) as (n' & Hn' & Hlabel & _).
  assert (node_at (heap s') a = Some n) as Hn0.
  { apply clone_frame_holds in H as (_ & _ & Hfr & _).
    unfold node_at, cell. rewrite Hfr by by eapply node_at_lt. exact Hn. }
  assert (kind_of (derived n') = kind_of (derived n)) as Hk.
  { destruct (derived n'), (derived n); simpl in Hlabel; by try discriminate. }
  assert (∃ k, kind_of (derived n) = Some k) as [k Hkind].
  { destruct (derived n); try done; by eexists. }
  exists k. intros V visitor v. unfold acceptVisitor.
  rewrite (bind_ok _ _ _ _ _ (load_node_ok _ _ _ Hn0)).
  rewrite (bind_ok _ _ _ _ _ (load_node_ok _ _ _ Hn')).
  rewrite Hkind in Hk.
  split.
  - destruct (derived n); simpl in Hkind; try discriminate;
      injection Hkind as <-; reflexivity.
  - destruct (derived n'); simpl in Hk; try discriminate;
      injection Hk as <-; reflexivity.
Qed.

(** ** Holders of the buffers *)

Lemma occurrences_app b l1 l2 :
  occurrences b (l1 ++ l2) = occurrences b l1 + occurrences b l2.
Proof. unfold occurrences. by rewrite filter_app, length_app. Qed.

Lemma holders_added_nil bs : holders_added bs bs [].
Proof.
  split; [done|]. intros b. destruct (buffer_at bs b) as [[bytes holders]|]; [|done].
  simpl. unfold occurrences. simpl. by rewrite Nat.add_0_r.
Qed.

Lemma holders_added_app bs1 bs2 bs3 l1 l2 :
  holders_added bs1 bs2 l1 → holders_added bs2 bs3 l2 →
  holders_added bs1 bs3 (l1 ++ l2).
Proof.
  intros [L1 H1] [L2 H2]. split; [congruence|]. intros b.
  rewrite H2, H1, occurrences_app. destruct (buffer_at bs1 b); [|done].
  simpl. by rewrite Nat.add_assoc.
Qed.

Lemma holders_added_ext bs bs' l l' :
  (∀ b, occurrences b l = occurrences b l') →
  holders_added bs bs' l → holders_added bs bs' l'.
Proof. intros Heq [L H]. split; [done|]. intros b. by rewrite H, Heq. Qed.

Lemma holders_added_retain bs b sb :
  buffer_at bs b = Some sb →
  holders_added bs (<[b := Some {| bytes := bytes sb; holders := S (holders sb) |}]> bs) [b].
Proof.
  intros Hb. split; [by rewrite length_insert|]. intros b'.
  unfold occurrences. simpl. destruct (decide (b = b')) as [<-|Hne].
  - rewrite Hb, buffer_at_insert_eq by by eapply buffer_at_lt.
    rewrite filter_cons_True by done. simpl. do 2 f_equal. lia.
  - rewrite buffer_at_insert_ne by done. rewrite filter_cons_False by done.
    destruct (buffer_at bs b') as [[]|]; [|done]. simpl. by rewrite Nat.add_0_r.
Qed.

Lemma copy_derived_holders p s d' s' :
  copy_derived (derived_of p) s = Ok (d', s') →
  holders_added (buffers s) (buffers s') (payload_buffers p).
Proof.
  destruct p; cbn [derived_of copy_derived payload_buffers]; intros H;
    try (injection H as <- <-; apply holders_added_nil).
  - apply bind_inv in H as ([] & s1 & Hr & H).
    apply retain_inv in Hr as (sb & Hsb & ->).
    apply bind_inv in H as (m0 & s2 & Hd & H). apply deref_inv in Hd as [_ ->].
    apply bind_inv in H as (m' & s2 & Hc & H). injection H as <- <-.
    apply shallowClone_inv in Hc as (t & _ & _ & ->). simpl.
    by apply holders_added_retain.
  - apply bind_inv in H as (ea & s1 & Hd & H). apply deref_inv in Hd as [_ ->].
    apply bind_inv in H as (eo & s1 & Hl & H).
    apply load_expression_inv in Hl as [-> _].
    apply bind_inv in H as (vps0 & s1 & Hl2 & H).
    apply load_context_inv in Hl2 as [-> _].
    apply bind_inv in H as (e' & s1 & Hp & H). injection H as <- <-.
    apply parseOperand_inv in Hp as (t' & _ & _ & ->). apply holders_added_nil.
Qed.

Lemma clone_children_holders fuel this kids :
  Forall (λ k, ∀ s par a' s',
            repr (heap s) par k → clone fuel (root k) s = Ok (a', s') →
            holders_added (buffers s) (buffers s') (tree_buffers k)) kids →
  ∀ h0 par s1 u s2,
    Forall (repr h0 par) kids →
    (∀ x, x < length h0 → heap s1 !! x = h0 !! x) →
    length h0 ≤ this < length (heap s1) →
    for_each (map (λ k, Some (root k)) kids) (clone_child (clone fuel) this) s1
      = Ok (u, s2) →
    holders_added (buffers s1) (buffers s2) (kids ≫= tree_buffers).
Proof.
  induction kids as [|k kids IHk]; intros IH h0 par s1 u s2 Hkids Hagree Hthis H.
  - injection H as _ <-. apply holders_added_nil.
  - apply Forall_cons in IH as [IH1 IH]. apply Forall_cons in Hkids as [Hk Hkids].
    simpl in H. apply bind_inv in H as ([] & s1' & Hstep & H).
    apply clone_child_inv in Hstep as (ca & n & s1c & [= <-] & Hc & Hstep).
    assert (repr (heap s1) par k) as Hk1 by by eapply repr_agree_below.
    pose proof (IH1 _ _ _ _ Hk1 Hc) as Hadd.
    apply clone_frame_holds in Hc as (-> & Hlt & Hfr & _).
    apply addChildToInternalVector_inv in Hstep
      as (c' & cn & tn1 & [= <-] & Hcn & Htn1 & ->).
    rewrite bind_cons. eapply holders_added_app; [exact Hadd|].
    eapply (IHk IH h0 par) in H; [exact H|done|..]; simpl.
    + intros x Hx. rewrite !list_lookup_insert_ne by lia.
      rewrite Hfr by lia. by apply Hagree.
    + rewrite !length_insert. lia.
Qed.

Lemma clone_holders t :
  ∀ fuel s par a' s',
    repr (heap s) par t → clone fuel (root t) s = Ok (a', s') →
    holders_added (buffers s) (buffers s') (tree_buffers t).
Proof.
  induction t as [a p kids IH] using Tree_ind'. intros fuel s par a' s' Hr H.
  destruct fuel as [|fuel]; [done|].
  apply clone_inv in H as (other & s2 & d & s3 & tn & Hother & _ & -> & Hloop & Hcopy
                           & _ & ->).
  inversion Hr as [? ? ? ? Hn _ Hkids]; subst. simpl in Hother.
  rewrite Hn in Hother. injection Hother as <-. simpl in *.
  pose proof (clone_children_holders fuel (length (heap s)) kids) as Hlemma.
  eapply (Hlemma ltac:(eapply Forall_impl; [exact IH|]; intros k IHk s0 par0 a0 s0';
                        apply IHk) (heap s) (Some a)) in Hloop;
    [|exact Hkids|..]; simpl.
  - apply copy_derived_holders in Hcopy. simpl in Hloop.
    eapply holders_added_ext; [|by eapply holders_added_app].
    intros b. rewrite !occurrences_app. lia.
  - intros x Hx. by apply lookup_app_l.
  - rewrite length_app. simpl. split; [reflexivity|lia].
Qed.

(** X13. [clone] of a tree takes, for every [MatchExpressionASTNode] of the
    tree, one more hold on the buffer of that node: each buffer gains exactly
    as many holders as there are nodes of the tree that hold it, and keeps its
    bytes; no buffer appears or disappears. *)
Theorem X13_clone_holds_the_buffers_once_more :
  ∀ fuel t s par,
    height t ≤ fuel → repr (heap s) par t →
    buffers_live (buffers s) (tree_buffers t) → reparses t →
    ∃ s',
      clone fuel (root t) s = Ok (length (heap s), s') ∧
      length (buffers s') = length (buffers s) ∧
      ∀ b, buffer_at (buffers s') b =
           (λ sb, {| bytes := bytes sb;
                     holders := holders sb + occurrences b (tree_buffers t) |})
             <$> buffer_at (buffers s) b.
Proof.
  intros fuel t s par Hh Hr Hl Hre.
  destruct (clone_correct fuel t s par Hh Hr Hl Hre) as (s' & t' & Hc & _).
  exists s'. split; [done|]. by eapply clone_holders.
Qed.

(** ** Destruction *)

Lemma cell_insert_None h a : cell (<[a := None]> h) a = None.
Proof.
  unfold cell. destruct (decide (a < length h)).
  - by rewrite list_lookup_insert_eq.
  - rewrite list_insert_ge by lia. by rewrite lookup_ge_None_2 by lia.
Qed.









Lemma holders_dropped_ext bs bs' l l' :
  (∀ b, occurrences b l = occurrences b l') →
  holders_dropped bs bs' l → holders_dropped bs bs' l'.
Proof. intros Heq [L H]. split; [done|]. intros b. by rewrite H, Heq. Qed.









(** ** Destruction of trees and of copies *)





(** X16. A [MatchExpressionASTNode] owns its predicate tree and holds the
    buffer that the predicate refers to: the constructor returns a childless
    root with the predicate tree as [matchExpression()] and takes one more
    hold on the buffer, an observer reads through the node what the predicate
    designates in the buffer, and the destructor deletes the predicate tree
    and the node and gives the hold back, the buffer going with its last
    holder. *)
Theorem X16_MatchExpressionASTNode_owns_and_holds :
  ∀ s bson m me sb fuel,
    cell (heap s) m = Some (OMatchExpression me) →
    buffer_at (buffers s) bson = Some sb → refs_into bson me →
    ∃ s1 s2 n,
      new_MatchExpressionASTNode bson (Some m) s = Ok (length (heap s), s1) ∧
      node_at (heap s1) (length (heap s)) = Some n ∧
      matchExpression n = Some m ∧ isRoot n = true ∧ children n = [] ∧
      buffer_at (buffers s1) bson
        = Some {| bytes := bytes sb; holders := S (holders sb) |} ∧
      observe s1 (length (heap s)) = resolve (buffers s) me ∧
      destroy (S fuel) (length (heap s)) s1 = Ok (tt, s2) ∧
      cell (heap s2) m = None ∧ cell (heap s2) (length (heap s)) = None ∧
      buffer_at (buffers s2) bson = if decide (holders sb = 0) then None else Some sb.
Proof.
  intros s bson m me sb fuel Hm Hsb Hrefs.
  pose proof (cell_lt _ _ _ Hm) as Hltm. pose proof (buffer_at_lt _ _ _ Hsb) as Hltb.
  set (s1 := {| heap := heap s ++ [Some (ONode {| _parent := None; _children := [];
                               derived := MatchExpressionASTNode bson (Some m) |})];
                buffers := <[bson := Some {| bytes := bytes sb;
                                             holders := S (holders sb) |}]> (buffers s) |}).
  assert (match_expression_leaf s1 (length (heap s)) None bson m me) as Hleaf.
  { split; simpl; [apply node_at_app_new|by rewrite cell_app_old]. }
  assert (buffer_at (buffers s1) bson
          = Some {| bytes := bytes sb; holders := S (holders sb) |}) as Hsb1.
  { simpl. by rewrite buffer_at_insert_eq. }
  eexists s1, _, _. split; [|split; [apply Hleaf|]].
  { unfold new_MatchExpressionASTNode.
    by rewrite (bind_ok _ _ _ _ _ (retain_ok _ _ _ Hsb)). }
  split; [done|]. split; [done|]. split; [done|]. split; [done|]. split.
  { rewrite (observe_leaf _ _ _ _ _ _ Hleaf). by eapply resolve_same_bytes. }
  split.
  { eapply (destroy_match_expression_leaf s1 _ _ _ _ _ _ (holders sb) fuel Hleaf Hsb1).
    done. }
  simpl. split; [|split].
  - rewrite cell_insert_ne by lia. apply cell_insert_None.
  - apply cell_insert_None.
  - rewrite buffer_at_insert_eq by by rewrite length_insert.
    destruct sb as [bs [|k]]; done.
Qed.


(** X19. On a tree in the store whose buffers are live, [clone] is memory
    safe and ends: it returns the copy, or it ends with an exception of the
    expression parser; it dereferences no null or dangling pointer and fails
    no [invariant]. *)
Theorem X19_clone_is_memory_safe :
  ∀ fuel t s par,
    height t ≤ fuel → repr (heap s) par t →
    buffers_live (buffers s) (tree_buffers t) →
    (∃ s', clone fuel (root t) s = Ok (length (heap s), s')) ∨
    (∃ err, clone fuel (root t) s = Throw err ∧ parse_error err).
Proof.
  intros fuel t s par Hh Hr Hl.
  destruct (clone_total fuel t s par Hh Hr Hl) as [(_ & s' & t' & Hc & _)|(_ & err & Hc)].
  - left. by exists s'.
  - right. exists err. split; [done|].
    pose proof (no_abort_clone fuel (root t) s) as Hn. by rewrite Hc in Hn.
Qed.

(** ** Leaves *)

(** A childless node of any class, made and then added to a path node. *)
Lemma leaf_round_trip s this n names fieldName d :
  node_at (heap s) this = Some n → derived n = ProjectionPathASTNode names →
  length names = length (children n) → fieldName ∉ names →
  ∃ s2,
    bind (alloc (ONode {| _parent := None; _children := []; derived := d |}))
      (λ c, bind (addChild this fieldName (Some c)) (λ _, ret c)) s
      = Ok (length (heap s), s2) ∧
    getChild this fieldName s2 = Ok (Some (length (heap s)), s2) ∧
    node_at (heap s2) (length (heap s))
      = Some {| _parent := Some this; _children := []; derived := d |}.
Proof.
  intros Hn Hd Hlen Hfresh. pose proof (node_at_lt _ _ _ Hn) as Hlt.
  rewrite (bind_ok (alloc _) _ s _ _ eq_refl).
  set (leaf := {| _parent := None; _children := []; derived := d |}).
  set (s1 := {| heap := heap s ++ [Some (ONode leaf)]; buffers := buffers s |}).
  assert (node_at (heap s1) this = Some n) as Hn1
    by (simpl; by rewrite node_at_app_old).
  assert (node_at (heap s1) (length (heap s)) = Some leaf) as Hc1
    by apply node_at_app_new.
  assert (this ≠ length (heap s)) as Hne by lia.
  rewrite (bind_ok _ _ _ _ _ (addChild_ok s1 this n names fieldName _ _ Hn1 Hd Hc1 Hne)).
  eexists. split; [reflexivity|]. split.
  - eapply getChild_last; [|exact Hlen|exact Hfresh].
    simpl. apply node_at_insert_eq. rewrite length_insert, length_app. lia.
  - simpl. rewrite node_at_insert_ne by done.
    apply node_at_insert_eq. rewrite length_app. simpl. lia.
Qed.

(** X18. What a leaf is constructed with is what is read back through the
    tree: a [ProjectionSliceASTNode], a [BooleanConstantASTNode] or an
    [ExpressionASTNode], constructed and added to a path node under a name
    that the node does not have yet, is what [getChild] of that name returns,
    and [skip()] and [limit()], [value()] or [expression()] on it return the
    arguments of the constructor. *)
Theorem X18_leaf_members_round_trip :
  ∀ s this n names fieldName,
    node_at (heap s) this = Some n → derived n = ProjectionPathASTNode names →
    length names = length (children n) → fieldName ∉ names →
    (∀ skip0 limit0, ∃ s2 cn,
       bind (new_ProjectionSliceASTNode skip0 limit0)
         (λ c, bind (addChild this fieldName (Some c)) (λ _, ret c)) s
         = Ok (length (heap s), s2) ∧
       getChild this fieldName s2 = Ok (Some (length (heap s)), s2) ∧
       node_at (heap s2) (length (heap s)) = Some cn ∧
       skip cn = skip0 ∧ limit cn = limit0 ∧
       parent cn = Some this ∧ children cn = []) ∧
    (∀ val, ∃ s2 cn,
       bind (new_BooleanConstantASTNode val)
         (λ c, bind (addChild this fieldName (Some c)) (λ _, ret c)) s
         = Ok (length (heap s), s2) ∧
       getChild this fieldName s2 = Ok (Some (length (heap s)), s2) ∧
       node_at (heap s2) (length (heap s)) = Some cn ∧
       value cn = val ∧ parent cn = Some this ∧ children cn = []) ∧
    (∀ expr, ∃ s2 cn,
       bind (new_ExpressionASTNode expr)
         (λ c, bind (addChild this fieldName (Some c)) (λ _, ret c)) s
         = Ok (length (heap s), s2) ∧
       getChild this fieldName s2 = Ok (Some (length (heap s)), s2) ∧
       node_at (heap s2) (length (heap s)) = Some cn ∧
       expression cn = expr ∧ parent cn = Some this ∧ children cn = []).
Proof.
  intros s this n names fieldName Hn Hd Hlen Hfresh. split; [|split].
  - intros skip0 limit0.
    destruct (leaf_round_trip s this n names fieldName
                (ProjectionSliceASTNode skip0 limit0) Hn Hd Hlen Hfresh)
      as (s2 & Hrun & Hget & Hcn).
    by eexists s2, _.
  - intros val.
    destruct (leaf_round_trip s this n names fieldName
                (BooleanConstantASTNode val) Hn Hd Hlen Hfresh)
      as (s2 & Hrun & Hget & Hcn).
    by eexists s2, _.
  - intros expr.
    destruct (leaf_round_trip s this n names fieldName
                (ExpressionASTNode expr) Hn Hd Hlen Hfresh)
      as (s2 & Hrun & Hget & Hcn).
    by eexists s2, _.
Qed.

End Properties.

(** * The claims on the examples *)

#[local] Existing Instance example_language.

Example build_scenario_state : build_scenario empty_state = Ok (2, scenario_state).
Proof. reflexivity. Qed.

Example build_full_state : build_full parsed_buffers = Ok (11, full_state).
Proof. reflexivity. Qed.

Example scenario_repr : repr (heap scenario_state) None scenario_tree.
Proof. repeat constructor. Qed.

Example full_links : links_consistent (heap full_state) = true.
Proof. reflexivity. Qed.

(** The scenario of the spec, step by step. *)
Example scenario_getChild_a :
  getChild 2 "a" scenario_state = Ok (Some 0, scenario_state) ∧
  (node_at (heap scenario_state) 0 ≫= λ n, Some (value n)) = Some true.
Proof. split; reflexivity. Qed.

Example scenario_getChild_b :
  getChild 2 "b" scenario_state = Ok (Some 1, scenario_state) ∧
  (node_at (heap scenario_state) 1 ≫= λ n, Some (limit n, skip n)) = Some (5%Z, Some 2%Z).
Proof. split; reflexivity. Qed.

Example scenario_getChild_c : getChild 2 "c" scenario_state = Ok (None, scenario_state).
Proof. reflexivity. Qed.

Example scenario_clone :
  ∃ s', clone 2 2 scenario_state = Ok (3, s') ∧
        getChild 3 "a" s' = Ok (Some 4, s') ∧ getChild 3 "b" s' = Ok (Some 5, s') ∧
        (node_at (heap s') 4 ≫= λ n, Some (value n)) = Some true ∧
        (node_at (heap s') 5 ≫= λ n, Some (limit n, skip n)) = Some (5%Z, Some 2%Z) ∧
        links_consistent (heap s') = true.
Proof. eexists. split; [reflexivity|]. repeat split; reflexivity. Qed.

Example getChild_first_match :
  ∃ s p, bind new_ProjectionPathASTNode_empty (λ p,
         bind (addChild p "a" (Some 0)) (λ _,
         bind (addChild p "a" (Some 1)) (λ _, ret p))) leaves_state = Ok (p, s) ∧
         getChild p "a" s = Ok (Some 0, s) ∧ links_consistent (heap s) = true.
Proof. eexists _, _. split; [reflexivity|]. split; reflexivity. Qed.

(** A null child is dereferenced by the child-vector constructor before the
    lengths are compared; a single-child constructor aborts on it. *)
Example null_child :
  new_ProjectionPathASTNode [None] [] empty_state = Fault ∧
  new_ProjectionPositionalASTNode None empty_state = Abort ∧
  new_ProjectionElemMatchASTNode None empty_state = Abort.
Proof. repeat split; reflexivity. Qed.

Lemma C1_witness :
  new_ProjectionPathASTNode [Some 0; Some 1] ["a"]%string leaves_state = Abort ∧
  (∃ n, node_at (heap scenario_state) 2 = Some n ∧
        derived n = ProjectionPathASTNode ["a"; "b"]%string ∧
        _children n = [Some 0; Some 1] ∧
        length ["a"; "b"]%string = length [Some 0; Some 1]) ∧
  (∃ n', node_at (heap scenario_grown_state) 2 = Some n' ∧
         derived n' = ProjectionPathASTNode (["a"; "b"]%string ++ ["c"]%string) ∧
         _children n' = [Some 0; Some 1] ++ [Some 3]) ∧
  ∃ r, getChild 2 "b" scenario_state = Ok (r, scenario_state) ∧
       ((∃ i, ["a"; "b"]%string !! i = Some "b"%string ∧
              (∀ j, j < i → ["a"; "b"]%string !! j ≠ Some "b"%string) ∧
              [Some 0; Some 1] !! i = Some r)
        ∨ (("b"%string ∉ ["a"; "b"]%string) ∧ r = None)).
Proof.
  destruct C1_path_constructor_and_getChild as (Hmismatch & Hctor & Hadd & Hget & _).
  split; [|split; [|split]].
  - apply Hmismatch; [simpl; lia|].
    repeat constructor; eexists _, _; split; reflexivity.
  - apply (Hctor [Some 0; Some 1] ["a"; "b"]%string leaves_state 2 scenario_state).
    reflexivity.
  - apply (Hadd scenario_leaf_state 2 _ ["a"; "b"]%string "c"%string (Some 3) tt
             scenario_grown_state eq_refl eq_refl).
    reflexivity.
  - apply (Hget scenario_state 2 _ _ "b"%string eq_refl eq_refl). reflexivity.
Defined.

Lemma C2_witness :
  (match new_ProjectionPositionalASTNode (Some 4) full_state with
   | Ok (this, s') => single_child_node ProjectionPositionalASTNode (Some 4) this s'
   | Abort => Some 4 = None
   | _ => False
   end ∧
   match new_ProjectionElemMatchASTNode (Some 4) full_state with
   | Ok (this, s') => single_child_node ProjectionElemMatchASTNode (Some 4) this s'
   | Abort => Some 4 = None
   | _ => False
   end ∧
   (Some 4 = None →
    new_ProjectionPositionalASTNode (Some 4) full_state = Abort ∧
    new_ProjectionElemMatchASTNode (Some 4) full_state = Abort)) ∧
  ∃ s' c',
    clone 2 5 full_state = Ok (12, s') ∧
    single_child_node ProjectionPositionalASTNode (Some c') 12 s'.
Proof.
  destruct C2_single_match_expression_child as [Hctor Hclone]. split.
  - apply (Hctor (Some 4) full_state).
    eexists. split; [reflexivity|]. eexists _, _. reflexivity.
  - apply (Hclone 2 full_state (Some 11) 5 PProjectionPositional 4 0 3
             (MatchNode 0 [{| ref_buf := 0; ref_off := 0; ref_len := 2 |}]
                [MatchNode 1 [{| ref_buf := 0; ref_off := 2; ref_len := 1 |}] []])).
    + by left.
    + repeat constructor.
    + repeat constructor. eexists. reflexivity.
    + lia.
Defined.

Lemma full_height : height full_tree ≤ 3.
Proof. vm_compute. lia. Defined.

Lemma full_buffers_live : buffers_live (buffers full_state) (tree_buffers full_tree).
Proof. repeat constructor; eexists; reflexivity. Defined.

Lemma full_reparses : reparses full_tree.
Proof. repeat constructor. eexists. reflexivity. Defined.

Lemma full_repr_root : repr (heap full_state) None full_tree.
Proof. repeat constructor. Defined.

Lemma full_closed : closed (heap full_state).
Proof. repeat constructor; simpl; lia. Defined.

Lemma C3_witness :
  ∃ s' sh,
    clone 3 11 full_state = Ok (12, s') ∧
    shape_at 3 (heap full_state) 11 = Some sh ∧
    shape_at 3 (heap s') 11 = Some sh ∧
    shape_at 3 (heap s') 12 = Some sh.
Proof.
  exact (C3_clone_preserves_shape 3 full_tree full_state None
           full_height full_repr_root full_buffers_live full_reparses).
Defined.

Lemma C4_witness :
  ∃ s',
    clone 3 11 full_state = Ok (12, s') ∧
    independent (is_context (heap s')) (heap s') 11 12 ∧
    (∀ b sb, buffer_at (buffers full_state) b = Some sb →
             ∃ sb', buffer_at (buffers s') b = Some sb' ∧ bytes sb' = bytes sb).
Proof.
  exact (C4_clone_independent_but_for_buffers_and_contexts 3 full_tree full_state None
           full_height full_repr_root full_buffers_live full_reparses full_closed).
Defined.

(** C4 as stated fails: the clone of an expression node shares the expression
    context of the original, so overwriting the context reached from the
    clone changes what is read from the original. *)
Lemma C4_counterexample :
  clone 1 2 expression_state = Ok (3, expression_cloned_state) ∧
  reach (heap expression_cloned_state) 3 0 ∧
  reach (heap expression_cloned_state) 2 0 ∧
  (<[0 := None]> (heap expression_cloned_state)) !! 0
    ≠ heap expression_cloned_state !! 0 ∧
  ¬ independent (λ _, False) (heap expression_cloned_state) 2 3.
Proof.
  assert (reach (heap expression_cloned_state) 3 0) as Hclone.
  { eapply (reach_step _ _ 4); [|reflexivity|by left].
    eapply (reach_step _ _ 3); [apply reach_here|reflexivity|by left]. }
  assert (reach (heap expression_cloned_state) 2 0) as Horiginal.
  { eapply (reach_step _ _ 1); [|reflexivity|by left].
    eapply (reach_step _ _ 2); [apply reach_here|reflexivity|by left]. }
  split; [reflexivity|]. split; [exact Hclone|]. split; [exact Horiginal|].
  split; [discriminate|].
  intros H.
  specialize (H 0 0 None (λ f, f) (or_introl (conj Hclone Horiginal))).
  discriminate H.
Qed.

Lemma C5_witness :
  ∃ s1 s2 a2 s1' s2',
    clone 1 4 full_state = Ok (12, s1) ∧
    match_expression_leaf s1 12 None 0 13
      (MatchNode 0 [{| ref_buf := 0; ref_off := 0; ref_len := 2 |}]
         [MatchNode 1 [{| ref_buf := 0; ref_off := 2; ref_len := 1 |}] []]) ∧
    buffers s1 = <[0 := Some {| bytes := [Byte.x61; Byte.x62; Byte.x63]; holders := 2 |}]>
                   (buffers full_state) ∧
    deep_clone_MatchExpressionASTNode 4 full_state = Ok (a2, s2) ∧
    observe s1 12 = observe full_state 4 ∧
    observe s2 a2 = observe full_state 4 ∧
    destroy 1 4 s1 = Ok (tt, s1') ∧
    destroy 1 4 s2 = Ok (tt, s2') ∧
    observe s1' 12 = observe full_state 4 ∧
    observe s2' a2 = observe full_state 4.
Proof.
  apply (C5_shallow_clone_with_buffer_is_deep_clone full_state 4 (Some 5) 0 3 _
           {| bytes := [Byte.x61; Byte.x62; Byte.x63]; holders := 1 |} 0).
  - split; reflexivity.
  - reflexivity.
  - simpl. lia.
  - repeat constructor.
Defined.

(** What the observer of the example reads: the bytes, not the references. *)
Example full_observe :
  observe full_state 4 =
    Some (PredicateNode 0 [[Byte.x61; Byte.x62]] [PredicateNode 1 [[Byte.x63]] []]).
Proof. reflexivity. Qed.

Lemma C6_witness :
  ∃ s',
    clone 1 2 full_state = Ok (12, s') ∧
    expression_leaf s' 12 None 13 0 7 5%Z ∧
    expression_leaf s' 2 (Some 11) 1 0 7 5%Z ∧
    (parse (serialized_operand 5%Z) 7 = inr 5%Z →
     expression_leaf s' 12 None 13 0 7 5%Z).
Proof.
  apply (C6_expression_clone_reparses full_state 2 (Some 11) 1 0 7 5%Z 0 5%Z).
  - repeat split; reflexivity.
  - reflexivity.
Defined.

Lemma unparsable_repr : repr (heap unparsable_state) None unparsable_tree.
Proof. repeat constructor. Defined.

Lemma unparsable_not_reparses : ¬ reparses unparsable_tree.
Proof.
  intros H. inversion H as [? ? ? _ Hk]; subst.
  apply Forall_cons in Hk as [Hk _]. inversion Hk as [? ? ? Hp _]; subst.
  destruct Hp as [t' Ht']. discriminate Ht'.
Defined.

Lemma C7_witness :
  clone 1 2 unparsable_state =
    Throw {| code := 168; reason := "Unrecognized expression" |} ∧
  (∃ err, clone 2 3 unparsable_state = Throw err ∧ parse_error err) ∧
  clone 2 3 unparsable_state ≠ Abort.
Proof.
  destruct C7_reparse_failure_is_thrown as (Hleaf & Htree & Habort & _).
  split; [|split].
  - apply (Hleaf unparsable_state 2 (Some 3) 1 0 7 (-3)%Z 0).
    + repeat split; reflexivity.
    + reflexivity.
  - apply (Htree 2 unparsable_tree unparsable_state None).
    + vm_compute. lia.
    + exact unparsable_repr.
    + constructor.
    + exact unparsable_not_reparses.
  - apply Habort.
Defined.

Lemma C8_witness :
  (∀ V (visitor : ProjectionASTVisitor V) v,
     acceptVisitor visitor 5 v full_state =
     visit_of KProjectionPositional visitor 5 v full_state) ∧
  (∀ log, acceptVisitor recorder 5 log full_state =
          Ok (log ++ [(KProjectionPositional, 5)], full_state)).
Proof.
  apply (C8_acceptVisitor_dispatch full_state 5 _ KProjectionPositional eq_refl eq_refl).
Defined.

(** Each class on the example, with the recording visitor. *)
Example full_dispatch :
  map (λ a, acceptVisitor recorder a [] full_state) [2; 4; 5; 8; 9; 10; 11] =
  map (λ '(k, a), Ok ([(k, a)], full_state))
    [(KExpression, 2); (KMatchExpression, 4); (KProjectionPositional, 5);
     (KProjectionElemMatch, 8); (KBooleanConstant, 9); (KProjectionSlice, 10);
     (KProjectionPath, 11)].
Proof. reflexivity. Qed.

Lemma C10_witness :
  (∃ n, node_at (heap expression_cloned_state) 3 = Some n ∧
        parent n = None ∧ isRoot n = true) ∧
  (∃ s' n, clone 2 5 full_state = Ok (12, s') ∧
           node_at (heap s') 12 = Some n ∧ parent n = None ∧ isRoot n = true) ∧
  (∃ s' cn', addChildToInternalVector 2 (Some 3) expression_cloned_state = Ok (tt, s') ∧
             node_at (heap s') 3 = Some cn' ∧ parent cn' = Some 2).
Proof.
  destruct C10_clone_is_root as (Hany & Htree & Hadopt).
  split; [|split].
  - apply (Hany 1 2 expression_state 3 expression_cloned_state). reflexivity.
  - apply (Htree 2 positional_tree full_state (Some 11)).
    + vm_compute. lia.
    + repeat constructor.
    + repeat constructor; eexists; reflexivity.
    + repeat constructor.
  - eapply (Hadopt expression_cloned_state 2 3); [reflexivity|reflexivity|lia].
Defined.

(** C9 on the move constructor: the tree of the scenario has consistent
    links; move construction of its root gives a node at [3] that owns the
    children [0] and [1], whose parent pointers still designate the
    moved-from node [2], which lists no child any more. *)
Theorem C9_move_constructor_breaks_links :
  build_scenario empty_state = Ok (2, scenario_state) ∧
  links_consistent (heap scenario_state) = true ∧
  move_construct 0 2 scenario_state = Ok (3, scenario_moved_state) ∧
  links_consistent (heap scenario_moved_state) = false ∧
  (node_at (heap scenario_moved_state) 3 ≫= λ n, Some (children n))
    = Some [Some 0; Some 1] ∧
  (node_at (heap scenario_moved_state) 0 ≫= parent) = Some 2 ∧
  (node_at (heap scenario_moved_state) 2 ≫= λ n, Some (children n)) = Some [].
Proof. repeat split; reflexivity. Qed.

(** * The further properties on the examples *)

Ltac absent :=
  let H := fresh in
  intros H; repeat (apply elem_of_cons in H as [H|H]; [discriminate H|]);
  by apply elem_of_nil in H.

Lemma X1_witness :
  getChild 2 "b" scenario_state = Ok (Some 1, scenario_state) ∧
  ∃ cn', node_at (heap scenario_state) 1 = Some cn' ∧
         parent cn' = Some 2 ∧ isRoot cn' = false ∧
         derived cn' = ProjectionSliceASTNode (Some 2%Z) 5%Z ∧ children cn' = [].
Proof.
  apply (X1_constructor_then_getChild [Some 0; Some 1] ["a"; "b"]%string leaves_state 2
           scenario_state 1 "b"%string 1
           {| _parent := None; _children := [];
              derived := ProjectionSliceASTNode (Some 2%Z) 5%Z |}).
  - reflexivity.
  - reflexivity.
  - intros [|j] Hj; [discriminate|lia].
  - reflexivity.
  - reflexivity.
Defined.

Lemma X2_witness :
  ∃ s' cn',
    addChild 2 "c" (Some 3) scenario_leaf_state = Ok (tt, s') ∧
    getChild 2 "c" s' = Ok (Some 3, s') ∧
    node_at (heap s') 3 = Some cn' ∧ parent cn' = Some 2 ∧
    derived cn' = BooleanConstantASTNode false ∧ children cn' = [].
Proof.
  apply (X2_addChild_then_getChild scenario_leaf_state 2 _ ["a"; "b"]%string "c"%string 3
           {| _parent := None; _children := []; derived := BooleanConstantASTNode false |}
           eq_refl eq_refl eq_refl eq_refl).
  - lia.
  - absent.
Defined.

Lemma X3_witness :
  ∃ r, getChild 2 "a" scenario_leaf_state = Ok (r, scenario_leaf_state) ∧
       getChild 2 "a" scenario_shadowed_state = Ok (r, scenario_shadowed_state).
Proof.
  apply (X3_addChild_keeps_lookups scenario_leaf_state 2 _ ["a"; "b"]%string "a"%string
           (Some 3) tt scenario_shadowed_state "a"%string eq_refl eq_refl eq_refl eq_refl).
  left. by left.
Defined.

Lemma X4_witness :
  ∃ s', new_ProjectionPathASTNode [Some 0; Some 1] ["a"; "b"]%string leaves_state
          = Ok (2, s') ∧
        ProjectionPathASTNode_by_addChild [Some 0; Some 1] ["a"; "b"]%string leaves_state
          = Ok (2, s').
Proof.
  apply (X4_constructor_is_addChild_sequence [Some 0; Some 1] ["a"; "b"]%string
           leaves_state eq_refl).
  repeat constructor; eexists _, _; split; reflexivity.
Defined.

Lemma X5_witness :
  new_ProjectionPathASTNode [Some 0; None] ["a"; "b"]%string leaves_state = Fault ∧
  addChild 2 "c" None scenario_state = Fault.
Proof.
  destruct X5_null_child_is_dereferenced as [Hctor Hadd]. split.
  - apply Hctor. right. left.
  - apply Hadd.
Defined.

Lemma X6_witness :
  ∃ s' n,
    new_ProjectionPathASTNode [Some 0; Some 1] ["a"; "b"]%string leaves_state
      = Ok (2, s') ∧
    repr (heap s') None scenario_tree ∧ NoDup (owned scenario_tree) ∧
    node_at (heap s') 2 = Some n ∧ isRoot n = true ∧
    children n = [Some 0; Some 1] ∧
    Forall (λ k, ∃ kn, node_at (heap s') (root k) = Some kn ∧
                       parent kn = Some 2 ∧ isRoot kn = false)
      [TNode 0 (PBooleanConstant true) [];
       TNode 1 (PProjectionSlice (Some 2%Z) 5%Z) []] ∧
    linked (heap s') scenario_tree.
Proof.
  apply (X6_constructor_links_the_children
           [TNode 0 (PBooleanConstant true) [];
            TNode 1 (PProjectionSlice (Some 2%Z) 5%Z) []]
           ["a"; "b"]%string leaves_state).
  - repeat constructor.
  - compute_done.
  - reflexivity.
Defined.

Lemma X7_witness :
  ∃ s' kn,
    addChild 2 "c" (Some 3) scenario_leaf_state = Ok (tt, s') ∧
    repr (heap s') None
      (TNode 2 (PProjectionPath (["a"; "b"]%string ++ ["c"]%string))
         ([TNode 0 (PBooleanConstant true) [];
           TNode 1 (PProjectionSlice (Some 2%Z) 5%Z) []] ++ [leaf_tree])) ∧
    NoDup (owned
      (TNode 2 (PProjectionPath (["a"; "b"]%string ++ ["c"]%string))
         ([TNode 0 (PBooleanConstant true) [];
           TNode 1 (PProjectionSlice (Some 2%Z) 5%Z) []] ++ [leaf_tree]))) ∧
    node_at (heap s') 3 = Some kn ∧ parent kn = Some 2 ∧ isRoot kn = false ∧
    linked (heap s')
      (TNode 2 (PProjectionPath (["a"; "b"]%string ++ ["c"]%string))
         ([TNode 0 (PBooleanConstant true) [];
           TNode 1 (PProjectionSlice (Some 2%Z) 5%Z) []] ++ [leaf_tree])).
Proof.
  apply (X7_addChild_links_the_child scenario_leaf_state None 2 ["a"; "b"]%string
           [TNode 0 (PBooleanConstant true) [];
            TNode 1 (PProjectionSlice (Some 2%Z) 5%Z) []] leaf_tree "c"%string).
  - repeat constructor.
  - repeat constructor.
  - compute_done.
Defined.

Lemma X8_witness :
  ∃ s' t',
    clone 3 11 full_state = Ok (12, s') ∧
    root t' = 12 ∧ cloned full_tree t' ∧
    repr (heap s') None t' ∧ NoDup (owned t') ∧
    Forall (λ x, 12 ≤ x < length (heap s')) (owned t') ∧
    linked (heap s') t' ∧
    repr (heap s') None full_tree.
Proof.
  exact (X8_clone_links_the_copy 3 full_tree full_state None
           full_height full_repr_root full_buffers_live full_reparses).
Defined.

Lemma X9_witness :
  ∃ s' kids' r r',
    clone 3 11 full_state = Ok (12, s') ∧
    Forall2 cloned full_kids kids' ∧
    Forall (repr (heap s') (Some 12)) kids' ∧
    getChild 11 "z" s' = Ok (r, s') ∧
    getChild 12 "z" s' = Ok (r', s') ∧
    ((("z"%string ∉ full_names) ∧ r = None ∧ r' = None) ∨
     ∃ i k k', full_names !! i = Some "z"%string ∧
               (∀ j, j < i → full_names !! j ≠ Some "z"%string) ∧
               full_kids !! i = Some k ∧ kids' !! i = Some k' ∧ cloned k k' ∧
               r = Some (root k) ∧ r' = Some (root k')).
Proof.
  exact (X9_clone_commutes_with_getChild 3 full_state None 11 full_names full_kids
           "z"%string full_height full_repr_root full_buffers_live full_reparses eq_refl).
Defined.

Lemma X10_witness :
  3 = length (heap expression_state) ∧
  length (heap expression_state) < length (heap expression_cloned_state) ∧
  (∀ x, x < length (heap expression_state) →
        heap expression_cloned_state !! x = heap expression_state !! x) ∧
  length (buffers expression_cloned_state) = length (buffers expression_state) ∧
  (∀ b sb, buffer_at (buffers expression_state) b = Some sb →
     ∃ sb', buffer_at (buffers expression_cloned_state) b = Some sb' ∧
            bytes sb' = bytes sb ∧ holders sb ≤ holders sb') ∧
  (∀ b, buffer_at (buffers expression_state) b = None →
        buffer_at (buffers expression_cloned_state) b = None).
Proof.
  exact (X10_clone_writes_to_no_existing_object 1 2 expression_state 3
           expression_cloned_state eq_refl).
Defined.

Lemma X11_witness :
  ∃ n', node_at (heap slice_cloned_state) 3 = Some n' ∧
        node_at (heap slice_cloned_state) 1
          = Some {| _parent := Some 2; _children := [];
                    derived := ProjectionSliceASTNode (Some 2%Z) 5%Z |} ∧
        kind_of (derived n') = Some KProjectionSlice ∧
        fieldNames n' = [] ∧
        skip n' = Some 2%Z ∧ limit n' = 5%Z ∧ value n' = false ∧
        length (children n') = 0 ∧
        isRoot n' = true.
Proof.
  exact (X11_clone_copies_the_members 1 1 scenario_state 3 slice_cloned_state _
           eq_refl eq_refl).
Defined.

Lemma X12_witness :
  ∃ k, ∀ V (visitor : ProjectionASTVisitor V) v,
    acceptVisitor visitor 1 v slice_cloned_state
      = visit_of k visitor 1 v slice_cloned_state ∧
    acceptVisitor visitor 3 v slice_cloned_state
      = visit_of k visitor 3 v slice_cloned_state.
Proof.
  exact (X12_clone_keeps_the_dynamic_class 1 1 scenario_state 3 slice_cloned_state
           eq_refl).
Defined.

Lemma X13_witness :
  ∃ s',
    clone 3 11 full_state = Ok (12, s') ∧
    length (buffers s') = length (buffers full_state) ∧
    ∀ b, buffer_at (buffers s') b =
         (λ sb, {| bytes := bytes sb;
                   holders := holders sb + occurrences b (tree_buffers full_tree) |})
           <$> buffer_at (buffers full_state) b.
Proof.
  exact (X13_clone_holds_the_buffers_once_more 3 full_tree full_state None
           full_height full_repr_root full_buffers_live full_reparses).
Defined.





Lemma X16_witness :
  ∃ s1 s2 n,
    new_MatchExpressionASTNode 1 (Some 6) full_state = Ok (12, s1) ∧
    node_at (heap s1) 12 = Some n ∧
    matchExpression n = Some 6 ∧ isRoot n = true ∧ children n = [] ∧
    buffer_at (buffers s1) 1
      = Some {| bytes := [Byte.x64; Byte.x65; Byte.x66]; holders := 2 |} ∧
    observe s1 12
      = resolve (buffers full_state)
          (MatchNode 2 [{| ref_buf := 1; ref_off := 1; ref_len := 2 |}] []) ∧
    destroy 1 12 s1 = Ok (tt, s2) ∧
    cell (heap s2) 6 = None ∧ cell (heap s2) 12 = None ∧
    buffer_at (buffers s2) 1
      = Some {| bytes := [Byte.x64; Byte.x65; Byte.x66]; holders := 1 |}.
Proof.
  apply (X16_MatchExpressionASTNode_owns_and_holds full_state 1 6
           (MatchNode 2 [{| ref_buf := 1; ref_off := 1; ref_len := 2 |}] [])
           {| bytes := [Byte.x64; Byte.x65; Byte.x66]; holders := 1 |} 0).
  - reflexivity.
  - reflexivity.
  - repeat constructor.
Defined.


Lemma X18_witness :
  ∃ s2 cn,
    bind (new_ProjectionSliceASTNode (Some 1%Z) 3%Z)
      (λ c, bind (addChild 2 "c" (Some c)) (λ _, ret c)) scenario_state
      = Ok (3, s2) ∧
    getChild 2 "c" s2 = Ok (Some 3, s2) ∧
    node_at (heap s2) 3 = Some cn ∧
    skip cn = Some 1%Z ∧ limit cn = 3%Z ∧
    parent cn = Some 2 ∧ children cn = [].
Proof.
  apply (X18_leaf_members_round_trip scenario_state 2 _ ["a"; "b"]%string "c"%string
           eq_refl eq_refl eq_refl); absent.
Defined.

Lemma X19_witness :
  (∃ s', clone 3 11 full_state = Ok (12, s')) ∨
  (∃ err, clone 3 11 full_state = Throw err ∧ parse_error err).
Proof.
  exact (X19_clone_is_memory_safe 3 full_tree full_state None
           full_height full_repr_root full_buffers_live).
Defined.
